(** * helix-dispatch: the fetch plan of [src/fetchers.js]

    A shallow embedding of the path resolver ([getPathInfos]), the two
    resolver policies ([defaultResolver], [errorPageResolver]), the ref
    resolver ([resolveRef]) and the plan builder ([fetchers]), followed by
    the properties established about them. *)

From Stdlib Require Import ZArith Strings.String Strings.Ascii Numbers.DecimalString Lia.
From stdpp Require Import base gmap strings list fin_maps.

Local Open Scope Z_scope.
Set Warnings "-clear-no-such-hyp".

(** ** JavaScript strings

    A string is a [string] of the Standard Library; indices are [Z], as
    [lastIndexOf] answers [-1] when the character is absent. *)

Module JS.

Definition len (s : string) : Z := Z.of_nat (String.length s).

(** [s.lastIndexOf(c)] for a one-character pattern [c]. *)
Fixpoint lastIndexOf (s : string) (c : ascii) : Z :=
  match s with
  | EmptyString => -1
  | String a s' =>
      let r := lastIndexOf s' c in
      if 0 <=? r then r + 1 else if Ascii.eqb a c then 0 else -1
  end.

Fixpoint take (n : nat) (s : string) : string :=
  match n, s with
  | S n', String a s' => String a (take n' s')
  | _, _ => EmptyString
  end.

Fixpoint drop (n : nat) (s : string) : string :=
  match n, s with
  | S n', String _ s' => drop n' s'
  | _, _ => s
  end.

Definition clamp (s : string) (i : Z) : Z := Z.max 0 (Z.min i (len s)).

(** [s.substring(a, b)]: both indices are clamped to [0..length] and
    swapped when [a > b]. *)
Definition substring (s : string) (a b : Z) : string :=
  let a' := clamp s a in
  let b' := clamp s b in
  let lo := Z.min a' b' in
  let hi := Z.max a' b' in
  take (Z.to_nat (hi - lo)) (drop (Z.to_nat lo) s).

(** [s.substring(a)] *)
Definition substringFrom (s : string) (a : Z) : string :=
  substring s a (len s).

(** [s.startsWith(p)] *)
Definition startsWith (s p : string) : bool := String.prefix p s.

(** [s.endsWith(c)] for a one-character pattern [c]. *)
Fixpoint endsWith (s : string) (c : ascii) : bool :=
  match s with
  | EmptyString => false
  | String a EmptyString => Ascii.eqb a c
  | String _ s' => endsWith s' c
  end.

(** Truthiness of a string: only the empty string is falsy. *)
Definition truthy (s : string) : bool :=
  match s with EmptyString => false | _ => true end.

(** [s.split(c)] for a one-character separator: never the empty list. *)
Fixpoint split (c : ascii) (s : string) : list string :=
  match s with
  | EmptyString => [EmptyString]
  | String a s' =>
      if Ascii.eqb a c then EmptyString :: split c s'
      else match split c s' with
           | seg :: segs => String a seg :: segs
           | [] => [String a EmptyString]
           end
  end.

(** [segs.join(sep)] *)
Fixpoint join (sep : string) (segs : list string) : string :=
  match segs with
  | [] => EmptyString
  | [seg] => seg
  | seg :: segs' => seg +:+ sep +:+ join sep segs'
  end.

Fixpoint dropWhileSlash (s : string) : string :=
  match s with
  | EmptyString => EmptyString
  | String a s' => if Ascii.eqb a "/" then dropWhileSlash s' else s
  end.

(** [s.replace(/\/+/, '/')]: the pattern carries no [g] flag, so only the
    first (leftmost, maximal) run of slashes is replaced. *)
Fixpoint replaceFirstSlashRun (s : string) : string :=
  match s with
  | EmptyString => EmptyString
  | String a s' =>
      if Ascii.eqb a "/" then String "/" (dropWhileSlash s')
      else String a (replaceFirstSlashRun s')
  end.

(** The path with every run of consecutive slashes replaced by a single
    slash, as [s.replace(/\/+/g, '/')] computes it. *)
Fixpoint collapseSlashRuns (s : string) : string :=
  match s with
  | EmptyString => EmptyString
  | String a s' =>
      if Ascii.eqb a "/" && match s' with String b _ => Ascii.eqb b "/" | _ => false end
      then collapseSlashRuns s'
      else String a (collapseSlashRuns s')
  end.

End JS.

(** ** Exceptions *)

Inductive Exn :=
| Error (message : string)
| TypeError (message : string).

Inductive result (A : Type) :=
| Ok (a : A)
| Throw (e : Exn).
Arguments Ok {A} a.
Arguments Throw {A} e.

Definition bind {A B} (r : result A) (f : A → result B) : result B :=
  match r with
  | Ok a => f a
  | Throw e => Throw e
  end.

(** [arr.map(f)] for a callback that may throw: the first exception ends
    the traversal. *)
Fixpoint mapM {A B} (f : A → result B) (l : list A) : result (list B) :=
  match l with
  | [] => Ok []
  | a :: l' => bind (f a) (λ b, bind (mapM f l') (λ bs, Ok (b :: bs)))
  end.

(** ** [path.posix.resolve] of Node.js

    The library function, modelled on segments: the arguments are joined
    from the right until one is absolute (the working directory comes
    last), the joined path is cut at its slashes, empty and ["."] segments
    are dropped and [".."] removes the segment before it. *)

Module Path.

(** One step of [normalizeString] of Node.js; [res] holds the segments
    kept so far, the last one first. *)
Definition normalizeStep (allowAboveRoot : bool) (res : list string) (seg : string)
  : list string :=
  if String.eqb seg "" || String.eqb seg "." then res
  else if String.eqb seg ".." then
    match res with
    | [] => if allowAboveRoot then [".."] else []
    | top :: res' =>
        if String.eqb top ".." then (if allowAboveRoot then ".." :: res else res)
        else res'
    end
  else seg :: res.

Definition normalizeString (path : string) (allowAboveRoot : bool) : string :=
  JS.join "/" (rev (fold_left (normalizeStep allowAboveRoot) (JS.split "/" path) [])).

Definition isAbsolute (p : string) : bool :=
  match p with String a _ => Ascii.eqb a "/" | EmptyString => false end.

(** The loop of [resolve]; [rargs] lists the arguments from the last to the
    first and ends with the working directory. *)
Fixpoint resolveLoop (rargs : list string) (resolvedPath : string) : string * bool :=
  match rargs with
  | [] => (resolvedPath, false)
  | p :: rest =>
      if String.eqb p "" then resolveLoop rest resolvedPath
      else
        let resolvedPath := p +:+ "/" +:+ resolvedPath in
        if isAbsolute p then (resolvedPath, true) else resolveLoop rest resolvedPath
  end.

Definition resolve (cwd : string) (args : list string) : string :=
  let '(resolvedPath, resolvedAbsolute) := resolveLoop (rev args ++ [cwd]) "" in
  let normalized := normalizeString resolvedPath (negb resolvedAbsolute) in
  if resolvedAbsolute then "/" +:+ normalized
  else if JS.truthy normalized then normalized else ".".

End Path.

(** ** The path resolver *)

(** The callback of the [reduce] in [unique]. *)
Definition uniqueStep (retval : list string) (item : string) : list string :=
  if bool_decide (item ∈ retval) then retval else retval ++ [item].

(** [unique]: the order-preserving uniqueness filter. *)
Definition unique (arr : list string) : list string := fold_left uniqueStep arr [].

Record PathInfo := {
  path : string;
  name : string;
  selector : string;
  ext : string;
  relPath : string;
}.

Section PathResolver.

(** [process.cwd()], which [path.resolve] consults for a relative path. *)
Variable cwd : string.

(** Step 2 of [getPathInfos]: the candidate URLs. *)
Definition candidates (urlPath : string) (indices : list string) : list string :=
  let urlPath := JS.replaceFirstSlashRun urlPath in
  if JS.lastIndexOf urlPath "." <=? JS.lastIndexOf urlPath "/" then
    if negb (JS.truthy urlPath) || JS.endsWith urlPath "/" then
      map (λ index, Path.resolve cwd [if JS.truthy urlPath then urlPath else "/"; index])
          indices
    else [Path.resolve cwd [urlPath] +:+ ".html"]
  else [urlPath].

(** The callback of the final [map]: the path info of one candidate. *)
Definition pathInfoOf (mount : string) (url : string) : result PathInfo :=
  let lastSlash := JS.lastIndexOf url "/" in
  let lastDot := JS.lastIndexOf url "." in
  if lastDot <=? lastSlash then
    Throw (Error "directory index must have an extension.")
  else
    let ext := JS.substringFrom url (lastDot + 1) in
    let name := JS.substring url (lastSlash + 1) lastDot in
    let relPath := JS.substring url 0 lastDot in
    let selDot := JS.lastIndexOf relPath "." in
    let '(name, selector, relPath) :=
      if lastSlash <? selDot then
        (JS.substring url (lastSlash + 1) selDot,
         JS.substringFrom relPath (selDot + 1),
         JS.substring relPath 0 selDot)
      else (name, "", relPath) in
    let '(pth, relPath) :=
      if JS.truthy mount && negb (String.eqb mount "/") then
        if JS.startsWith (relPath +:+ "/") (mount +:+ "/") then
          (JS.substringFrom url (JS.len mount), JS.substringFrom relPath (JS.len mount))
        else (url, relPath)
      else (url, relPath) in
    Ok {| path := pth; name := name; selector := selector; ext := ext;
          relPath := relPath |}.

Definition getPathInfos (urlPath mount : string) (indices : list string)
  : result (list PathInfo) :=
  mapM (pathInfoOf mount) (unique (candidates urlPath indices)).

End PathResolver.

(** ** Values and objects

    The values that travel through the plan: request parameters are
    strings or absent, the literals add booleans, and the inbound headers
    are an object of strings. An object is a finite map from property names
    to values; a property set to [undefined] is present in the map. *)

Inductive jsval :=
| JUndefined
| JBool (b : bool)
| JStr (s : string)
| JObj (fields : gmap string string).

Abbreviation jsobj := (gmap string jsval).

(** [o.k]: reading an absent property gives [undefined]. *)
Definition prop (o : jsobj) (k : string) : jsval := default JUndefined (o !! k).

Definition truthy (v : jsval) : bool :=
  match v with
  | JUndefined => false
  | JBool b => b
  | JStr s => JS.truthy s
  | JObj _ => true
  end.

(** [`${v}`] *)
Definition tpl (v : jsval) : string :=
  match v with
  | JUndefined => "undefined"
  | JBool true => "true"
  | JBool false => "false"
  | JStr s => s
  | JObj _ => "[object Object]"
  end.

(** [`${n}`] for an integer [n]. *)
Definition dec (n : Z) : string := NilZero.string_of_int (Z.to_int n).

Definition ofOpt (o : option string) : jsval :=
  match o with Some s => JStr s | None => JUndefined end.

(** [a || d] for an optional string [a]. *)
Definition strOr (a : option string) (d : string) : string :=
  match a with
  | Some s => if JS.truthy s then s else d
  | None => d
  end.

(** [{...o, ...src}]: the properties of [src] win. *)
Definition assign (o src : jsobj) : jsobj := src ∪ o.

(** [a === b] on two values that are strings or [undefined]. *)
Definition strictEq (a b : jsval) : bool :=
  match a, b with
  | JUndefined, JUndefined => true
  | JStr s, JStr t => String.eqb s t
  | JBool x, JBool y => Bool.eqb x y
  | _, _ => false
  end.

(** ** Promises

    A promise is modelled by the way it settles. *)

Inductive promise (A : Type) :=
| Fulfilled (a : A)
| Rejected (e : Exn).
Arguments Fulfilled {A} a.
Arguments Rejected {A} e.

(** [p.then(f)] for a callback that returns a plain value. *)
Definition then_ {A B} (p : promise A) (f : A → B) : promise B :=
  match p with
  | Fulfilled a => Fulfilled (f a)
  | Rejected e => Rejected e
  end.

(** [p.then(f)] for a callback that returns a promise. *)
Definition thenP {A B} (p : promise A) (f : A → promise B) : promise B :=
  match p with
  | Fulfilled a => f a
  | Rejected e => Rejected e
  end.

(** ** Responses and the resolver policies *)

(** Modelled from the spec: the completed response the executor (in
    [index.js], not among the sources) hands to a policy; it "must expose
    [statusCode] and the [params] used for the call", which the resolvers
    read as [res.actionOptions] with its [idx], [name] and [params]. *)
Module Res.
Record ActionOptions := {
  idx : Z;
  name : string;
  params : jsobj;
}.
Record t := {
  statusCode : Z;
  body : jsval;
  actionOptions : ActionOptions;
}.
Definition withStatusCode (res : t) (code : Z) : t :=
  {| statusCode := code; body := body res; actionOptions := actionOptions res |}.
End Res.

Module Err.
Record t := {
  message : string;
  statusCode : Z;
}.
End Err.

(** Response objects live in a store and are passed by reference; [None]
    stands for a [null] or [undefined] response. *)
Abbreviation loc := positive.
Abbreviation store := (gmap loc Res.t).

Inductive settled :=
| Resolves (res : option loc)
| Rejects (error : Err.t).

Definition Resolver : Type := option loc → store → settled * store.

Definition defaultResolver : Resolver := λ res h,
  match res ≫= (λ l, h !! l) with
  | Some r =>
      if 400 <=? Res.statusCode r then
        let params := Res.params (Res.actionOptions r) in
        let rp := tpl (prop params "owner") +:+ "/" +:+ tpl (prop params "repo") +:+ "/"
                  +:+ tpl (prop params "ref") +:+ tpl (prop params "path") in
        let error :=
          {| Err.message :=
               "[" +:+ dec (Res.idx (Res.actionOptions r)) +:+ "] Error invoking "
               +:+ Res.name (Res.actionOptions r) +:+ "(" +:+ rp +:+ "): "
               +:+ dec (Res.statusCode r);
             Err.statusCode :=
               if Res.statusCode r =? 502 then 504 else Res.statusCode r |} in
        (Rejects error, h)
      else (Resolves res, h)
  | None => (Resolves res, h)
  end.

Definition errorPageResolver : Resolver := λ res h,
  match res with
  | Some l =>
      match h !! l with
      | Some r =>
          if Res.statusCode r =? 200 then
            (Resolves res, <[l := Res.withStatusCode r 404]> h)
          else defaultResolver res h
      | None => defaultResolver res h
      end
  | None => defaultResolver res h
  end.

(** ** The action-invocation service and the logger *)

Module Invoke.
Record t := {
  name : string;
  blocking : bool;
  result : bool;
  params : jsobj;
}.
End Invoke.

(** Modelled from the spec: the client of [./openwhisk.js], which is not
    among the sources. The ref-resolution service "returns
    [{statusCode, body:{sha?}}]" and "failures raise an error
    distinguishable from a successful-but-erroring response"; an exception
    of [openwhisk()] itself is treated like a failed invocation. *)
Record RefResponse := {
  res_statusCode : option Z;
  res_body : jsval;
}.

Inductive Outcome :=
| Returned (res : RefResponse)
| Raised (e : string).

Inductive LogLevel := LInfo | LError.

(** The effects of planning: the invocations sent to the service and the
    lines logged, oldest first; [resolutions] is a ghost trace of the
    option objects [resolveRef] was called with. Asynchronous resolutions
    are run to completion in the order they are started. *)
Record World := {
  invocations : list Invoke.t;
  resolutions : list jsobj;
  logged : list (LogLevel * string);
}.

Definition emptyWorld : World :=
  {| invocations := []; resolutions := []; logged := [] |}.

Definition enter (opts : jsobj) (w : World) : World :=
  {| invocations := invocations w; resolutions := resolutions w ++ [opts];
     logged := logged w |}.

Definition send (req : Invoke.t) (w : World) : World :=
  {| invocations := invocations w ++ [req]; resolutions := resolutions w;
     logged := logged w |}.

Definition record (level : LogLevel) (msg : string) (w : World) : World :=
  {| invocations := invocations w; resolutions := resolutions w;
     logged := logged w ++ [(level, msg)] |}.

(** A logger, as the action wrapper puts one into [params.__ow_logger]:
    its methods [info] and [error] record a line and return. A request
    that carries none has [undefined] there, written [None]. *)
Inductive Logger := WrapperLogger.

Definition levelName (level : LogLevel) : string :=
  match level with LInfo => "info" | LError => "error" end.

(** What reading [log[level]] throws when [log] is [undefined]. *)
Definition missingLogger (level : LogLevel) : Exn :=
  TypeError ("Cannot read property '" +:+ levelName level +:+ "' of undefined").

(** [log[level](msg)] *)
Definition callLogger (log : option Logger) (level : LogLevel) (msg : string) (w : World)
  : result World :=
  match log with
  | Some WrapperLogger => Ok (record level msg w)
  | None => Throw (missingLogger level)
  end.

(** [`${e}`] for an exception. *)
Definition showExn (e : Exn) : string :=
  match e with
  | Error msg => "Error: " +:+ msg
  | TypeError msg => "TypeError: " +:+ msg
  end.

(** ** Invocation descriptors and the plan *)

Module Task.
Record t := {
  resolve : Resolver;
  name : string;
  blocking : bool;
  idxOffset : option nat;
  params : jsobj;
}.
End Task.

Record Plan := {
  base : list (promise Task.t);
  fetch404 : list (promise Task.t);
}.

(** The request parameters [fetchers] reads. A parameter is a string or
    absent; those that are only handed on are kept as values;
    [__ow_logger] is a logger or absent. *)
Module Params.
Record t := {
  path : option string;
  rootPath : option string;
  content_index : option string;
  content_owner : option string;
  content_repo : option string;
  content_ref : option string;
  content_package : option string;
  content_root : jsval;
  static_owner : option string;
  static_repo : option string;
  static_ref : option string;
  static_esi : jsval;
  static_root : jsval;
  params : jsval;
  GITHUB_TOKEN : option string;
  __ow_headers : option (gmap string string);
  __ow_method : jsval;
  __ow_logger : option Logger;
}.
(** [{}] *)
Definition empty : t :=
  {| path := None; rootPath := None; content_index := None; content_owner := None;
     content_repo := None; content_ref := None; content_package := None;
     content_root := JUndefined; static_owner := None; static_repo := None;
     static_ref := None; static_esi := JUndefined; static_root := JUndefined;
     params := JUndefined; GITHUB_TOKEN := None; __ow_headers := None;
     __ow_method := JUndefined; __ow_logger := None |}.
End Params.

(** ** The ref resolver *)

Definition isHexDigit (c : ascii) : bool :=
  let n := nat_of_ascii c in
  ((48 <=? n) && (n <=? 57) || (97 <=? n) && (n <=? 102) || (65 <=? n) && (n <=? 70))%nat.

(** [/^[a-f0-9]{40}$/i] *)
Definition isSha (s : string) : bool :=
  (String.length s =? 40)%nat && forallb isHexDigit (list_ascii_of_string s).

(** [res.body && res.body.sha], when truthy. *)
Definition bodySha (body : jsval) : option string :=
  match body with
  | JObj fields =>
      match fields !! "sha" with
      | Some sha => if JS.truthy sha then Some sha else None
      | None => None
      end
  | _ => None
  end.

Definition HELIX_STATIC_ACTION : string := "helix-services/static@v1".

Section Planner.

Variable cwd : string.

(** The answer of the service to the [n]-th invocation it receives. *)
Variable service : nat → Invoke.t → Outcome.

(** [ref && ref.match(/^[a-f0-9]{40}$/i)]; a truthy value that is not a
    string has no [match] method. *)
Definition refIsSha (ref : jsval) : result bool :=
  match ref with
  | JStr s => Ok (JS.truthy s && isSha s)
  | JUndefined | JBool false => Ok false
  | JBool true | JObj _ => Throw (TypeError "ref.match is not a function")
  end.

(** The [catch] clause of [resolveRef], entered with [`${e}`]; what it
    throws leaves the function. *)
Definition resolveCatch (log : option Logger) (ref : jsval) (e : string) (w : World)
  : promise jsobj * World :=
  match callLogger log LError ("Unable to resolve ref " +:+ tpl ref +:+ ": " +:+ e) w with
  | Ok w => (Fulfilled {[ "ref" := ref ]}, w)
  | Throw e' => (Rejected e', w)
  end.

(** [resolveRef]. An [async] function: what it throws outside its
    [try] block, or inside its [catch] clause, rejects the promise. Its
    first step here records the call in the ghost trace. *)
Definition resolveRef (opts wskOpts : jsobj) (log : option Logger) (w : World)
  : promise jsobj * World :=
  let w := enter opts w in
  let ref := prop opts "ref" in
  match refIsSha ref with
  | Throw e => (Rejected e, w)
  | Ok true => (Fulfilled {[ "ref" := ref ]}, w)
  | Ok false =>
      let req := {| Invoke.name := "helix-services/resolve-git-ref@v1_link";
                    Invoke.blocking := true;
                    Invoke.result := true;
                    Invoke.params := assign opts wskOpts |} in
      match service (length (invocations w)) req with
      | Returned res =>
          let w := send req w in
          match bodySha (res_body res) with
          | Some sha => (Fulfilled {[ "ref" := JStr sha; "branch" := ref ]}, w)
          | None =>
              let level :=
                match res_statusCode res with
                | Some code => if (code =? 0) || (500 <=? code) then LError else LInfo
                | None => LError
                end in
              let status := from_option dec "undefined" (res_statusCode res) in
              match callLogger log level
                      ("Unable to resolve ref " +:+ tpl ref +:+ ": " +:+ status
                       +:+ " " +:+ tpl (res_body res)) w with
              | Ok w => (Fulfilled {[ "ref" := ref ]}, w)
              | Throw e => resolveCatch log ref (showExn e) w
              end
          end
      | Raised e => resolveCatch log ref e (send req w)
      end
  end.

(** [updateOpts] *)
Definition updateOpts (opts : jsobj) (resolverPromise : promise jsobj) : promise jsobj :=
  then_ resolverPromise (λ ref, assign opts ref).

Definition equalRepository (o1 o2 : jsobj) : bool :=
  strictEq (prop o1 "owner") (prop o2 "owner")
  && strictEq (prop o1 "repo") (prop o2 "repo")
  && strictEq (prop o1 "ref") (prop o2 "ref").

(** ** The plan builder *)

Definition fetch404tasks (infos : list PathInfo) (wskOpts : jsobj)
    (contentPromise staticPromise : promise jsobj) (idxOffset : nat)
  : result (list (promise Task.t)) :=
  match infos with
  | [] => Throw (TypeError "Cannot read property 'ext' of undefined")
  | info0 :: _ =>
      if String.eqb (ext info0) "html" then
        Ok [ then_ contentPromise (λ contentOpts,
               {| Task.resolve := errorPageResolver;
                  Task.name := HELIX_STATIC_ACTION;
                  Task.blocking := true;
                  Task.idxOffset := Some idxOffset;
                  Task.params :=
                    assign (assign {[ "path" := JStr "/404.html"; "esi" := JBool false;
                                      "plain" := JBool true ]} wskOpts) contentOpts |});
             thenP staticPromise (λ staticOpts, then_ contentPromise (λ _,
               {| Task.resolve := errorPageResolver;
                  Task.name := HELIX_STATIC_ACTION;
                  Task.blocking := true;
                  Task.idxOffset := Some idxOffset;
                  Task.params :=
                    assign (assign {[ "path" := JStr "/404.html"; "esi" := JBool false;
                                      "plain" := JBool true ]} wskOpts) staticOpts |})) ]
      else Ok []
  end.

Definition fetchfallbacktasks (infos : list PathInfo) (wskOpts : jsobj)
    (contentPromise staticPromise : promise jsobj) : list (promise Task.t) :=
  map (λ info, thenP staticPromise (λ staticOpts, then_ contentPromise (λ _,
         {| Task.resolve := defaultResolver;
            Task.name := HELIX_STATIC_ACTION;
            Task.blocking := true;
            Task.idxOffset := None;
            Task.params :=
              assign (assign {[ "path" := JStr (path info); "esi" := JBool false;
                                "plain" := JBool true ]} wskOpts) staticOpts |})))
      infos.

Definition fetchactiontasks (infos : list PathInfo) (wskOpts : jsobj)
    (contentPromise : promise jsobj) (params : Params.t) : list (promise Task.t) :=
  map (λ info, then_ contentPromise (λ contentOpts,
         let actionname :=
           (if truthy (prop contentOpts "package") then tpl (prop contentOpts "package")
            else "default")
           +:+ "/" +:+ (if JS.truthy (selector info) then selector info +:+ "_" else "")
           +:+ ext info in
         {| Task.resolve := defaultResolver;
            Task.name := actionname;
            Task.blocking := true;
            Task.idxOffset := None;
            Task.params :=
              assign (assign {[ "path" := JStr (relPath info +:+ ".md");
                                "rootPath" := JStr (strOr (Params.rootPath params) "") ]}
                             wskOpts) contentOpts |}))
      infos.

Definition fetchrawtasks (infos : list PathInfo) (params : Params.t)
    (contentPromise : promise jsobj) (wskOpts : jsobj) : list (promise Task.t) :=
  map (λ info, then_ contentPromise (λ contentOpts,
         {| Task.resolve := defaultResolver;
            Task.name := HELIX_STATIC_ACTION;
            Task.blocking := true;
            Task.idxOffset := None;
            Task.params :=
              assign (assign {[ "path" := JStr (path info); "esi" := JBool false;
                                "plain" := JBool true;
                                "root" := Params.content_root params ]} wskOpts)
                     contentOpts |}))
      infos.

(** [params.GITHUB_TOKEN || (params.__ow_headers && params.__ow_headers['x-github-token'])] *)
Definition extractGithubToken (params : Params.t) : jsval :=
  match Params.GITHUB_TOKEN params with
  | Some token => if JS.truthy token then JStr token else
      match Params.__ow_headers params with
      | Some headers => ofOpt (headers !! "x-github-token")
      | None => JUndefined
      end
  | None =>
      match Params.__ow_headers params with
      | Some headers => ofOpt (headers !! "x-github-token")
      | None => JUndefined
      end
  end.

Definition staticOptsOf (params : Params.t) : jsobj :=
  let staticOpts : jsobj :=
    {[ "owner" := ofOpt (Params.static_owner params);
       "repo" := ofOpt (Params.static_repo params);
       "ref" := ofOpt (Params.static_ref params);
       "esi" := Params.static_esi params;
       "root" := Params.static_root params ]} in
  let githubToken := extractGithubToken params in
  if truthy githubToken then <["GITHUB_TOKEN" := githubToken]> staticOpts else staticOpts.

Definition contentOptsOf (params : Params.t) : jsobj :=
  let contentOpts : jsobj :=
    {[ "owner" := ofOpt (Params.content_owner params);
       "repo" := ofOpt (Params.content_repo params);
       "ref" := ofOpt (Params.content_ref params);
       "package" := ofOpt (Params.content_package params);
       "params" := Params.params params ]} in
  let githubToken := extractGithubToken params in
  if truthy githubToken then <["GITHUB_TOKEN" := githubToken]> contentOpts else contentOpts.

Definition wskOptsOf (params : Params.t) : jsobj :=
  {[ "__ow_headers" := from_option JObj JUndefined (Params.__ow_headers params);
     "__ow_method" := Params.__ow_method params ]}.

(** The two resolver promises of [fetchers]: the content coordinate shares
    the static resolution when [equalRepository] holds. *)
Definition resolvers (staticOpts contentOpts wskOpts : jsobj) (log : option Logger)
    (w : World) : promise jsobj * promise jsobj * World :=
  let '(staticResolver, w) := resolveRef staticOpts wskOpts log w in
  let '(contentResolver, w) :=
    if equalRepository staticOpts contentOpts then (staticResolver, w)
    else resolveRef contentOpts wskOpts log w in
  (staticResolver, contentResolver, w).

Definition fetchers (params : Params.t) (w : World) : result Plan * World :=
  let log := Params.__ow_logger params in
  let dirindex := JS.split "," (strOr (Params.content_index params) "index.html") in
  let urlPath := strOr (Params.path params) "/" in
  let mount := strOr (Params.rootPath params) "" in
  match getPathInfos cwd urlPath mount dirindex, getPathInfos cwd urlPath mount dirindex with
  | Throw e, _ | Ok _, Throw e => (Throw e, w)
  | Ok infos, Ok actioninfos =>
      let staticOpts := staticOptsOf params in
      let contentOpts := contentOptsOf params in
      let wskOpts := wskOptsOf params in
      let '(staticResolver, contentResolver, w) :=
        resolvers staticOpts contentOpts wskOpts log w in
      let staticPromise := updateOpts staticOpts staticResolver in
      let contentPromise := updateOpts contentOpts contentResolver in
      let baseTasks :=
        fetchrawtasks infos params contentPromise wskOpts
        ++ fetchactiontasks actioninfos wskOpts contentPromise params
        ++ fetchfallbacktasks infos wskOpts contentPromise staticPromise in
      match fetch404tasks infos wskOpts contentPromise staticPromise (length baseTasks) with
      | Throw e => (Throw e, w)
      | Ok tasks404 => (Ok {| base := baseTasks; fetch404 := tasks404 |}, w)
      end
  end.

End Planner.

(** A [ref] on which [ref && ref.match(...)] is well typed: a string, or a
    falsy value. *)
Definition stringOrFalsy (v : jsval) : Prop :=
  match v with
  | JBool true | JObj _ => False
  | _ => True
  end.

(** A ref that is a string of 40 hexadecimal digits. *)
Definition shaRef (ref : jsval) : bool :=
  match ref with JStr s => isSha s | _ => false end.

(** The request sent to the ref-resolution service. *)
Definition resolveRequest (opts wskOpts : jsobj) : Invoke.t :=
  {| Invoke.name := "helix-services/resolve-git-ref@v1_link";
     Invoke.blocking := true;
     Invoke.result := true;
     Invoke.params := assign opts wskOpts |}.

(** A URL with an extension: its last dot comes after its last slash. *)
Definition hasExtension (url : string) : Prop :=
  JS.lastIndexOf url "/" < JS.lastIndexOf url ".".

(** A plain file name with an extension: not empty, no slash, at least one
    dot, and neither ["."] nor [".."]. *)
Definition isFileName (s : string) : bool :=
  negb (String.eqb s "") && negb (String.eqb s ".") && negb (String.eqb s "..")
  && (JS.lastIndexOf s "/" =? -1) && (0 <=? JS.lastIndexOf s ".").

(** The directory a request path ending in a slash stands for. *)
Definition directoryPath (urlPath : string) : string :=
  let urlPath := JS.replaceFirstSlashRun urlPath in
  if JS.truthy urlPath then urlPath else "/".

(** The normalized form of a directory, with its closing slash. *)
Definition directoryOf (cwd dir : string) : string :=
  let resolved := Path.resolve cwd [dir] in
  if String.eqb resolved "/" then "/" else resolved +:+ "/".

(** The error of the fail-fast branch of [getPathInfos]. *)
Definition extensionError : Exn := Error "directory index must have an extension.".

(** The info [pathInfoOf] gives for a URL with an extension. *)
Definition infoOf (mount url : string) : PathInfo :=
  match pathInfoOf mount url with
  | Ok info => info
  | Throw _ => {| path := url; name := ""; selector := ""; ext := ""; relPath := "" |}
  end.

#[global] Instance hasExtension_dec (url : string) : Decision (hasExtension url).
Proof. unfold hasExtension. apply _. Defined.

(** The path infos [fetchers] computes from the request parameters. *)
Definition pathInfosOf (cwd : string) (params : Params.t) : result (list PathInfo) :=
  getPathInfos cwd (strOr (Params.path params) "/") (strOr (Params.rootPath params) "")
    (JS.split "," (strOr (Params.content_index params) "index.html")).

(** A task that fetches [pth] with [HELIX_STATIC_ACTION] from the repository
    [owner]/[repo] under the policy [resolver]. *)
Definition fetchesFrom (resolver : Resolver) (owner repo : option string) (pth : string)
    (task : promise Task.t) : Prop :=
  ∃ d, task = Fulfilled d
       ∧ Task.name d = HELIX_STATIC_ACTION
       ∧ Task.resolve d = resolver
       ∧ Task.blocking d = true
       ∧ prop (Task.params d) "path" = JStr pth
       ∧ prop (Task.params d) "owner" = ofOpt owner
       ∧ prop (Task.params d) "repo" = ofOpt repo.

(** A task that invokes the pipeline action of [info] on the content
    repository. *)
Definition invokesPipeline (params : Params.t) (info : PathInfo) (task : promise Task.t)
  : Prop :=
  ∃ d, task = Fulfilled d
       ∧ Task.name d
         = strOr (Params.content_package params) "default" +:+ "/"
           +:+ (if JS.truthy (selector info) then selector info +:+ "_" else "")
           +:+ ext info
       ∧ Task.resolve d = defaultResolver
       ∧ Task.blocking d = true
       ∧ prop (Task.params d) "path" = JStr (relPath info +:+ ".md")
       ∧ prop (Task.params d) "owner" = ofOpt (Params.content_owner params)
       ∧ prop (Task.params d) "repo" = ofOpt (Params.content_repo params).

(** A resolution result carries no property but [ref] and [branch]. *)
Definition onlyRef (v : jsobj) : Prop := ∀ k, k ≠ "ref" → k ≠ "branch" → v !! k = None.

(** The base plan built from settled option objects. *)
Definition baseOf (params : Params.t) (infos : list PathInfo) (cOpts sOpts : jsobj)
  : list (promise Task.t) :=
  fetchrawtasks infos params (Fulfilled cOpts) (wskOptsOf params)
  ++ fetchactiontasks infos (wskOptsOf params) (Fulfilled cOpts) params
  ++ fetchfallbacktasks infos (wskOptsOf params) (Fulfilled cOpts) (Fulfilled sOpts).

(** A task built with [then] on the promise [p]: it is as [P] describes
    when [p] fulfils, and rejects with the error of [p] otherwise. *)
Definition awaits (p : promise jsobj) (P : promise Task.t → Prop) (task : promise Task.t)
  : Prop :=
  match p with
  | Fulfilled _ => P task
  | Rejected e => task = Rejected e
  end.

(** What a task built by [staticPromise.then(() => contentPromise.then(..))]
    awaits: the static resolution and then the content resolution. *)
Definition bothOf (staticResolver contentResolver : promise jsobj) : promise jsobj :=
  thenP staticResolver (λ _, contentResolver).

(** How a call of [resolveRef] on a string or absent ref settles: it
    fulfils with a result of [ref] and [branch] only, or, when there is no
    logger, rejects with the [TypeError] of [log.error]. *)
Definition settlement (log : option Logger) (p : promise jsobj) : Prop :=
  match p with
  | Fulfilled v => onlyRef v
  | Rejected e => log = None ∧ e = missingLogger LError
  end.

(** [params.__ow_headers && params.__ow_headers['x-github-token']] *)
Definition headerToken (params : Params.t) : option string :=
  match Params.__ow_headers params with
  | Some headers => headers !! "x-github-token"
  | None => None
  end.

(** The requests a call of [resolveRef] on [opts] sends to the service. *)
Definition requestsOf (opts wskOpts : jsobj) : list Invoke.t :=
  if shaRef (prop opts "ref") then [] else [resolveRequest opts wskOpts].

(** ** Sample inputs *)

Definition sampleResponse (code : Z) : Res.t :=
  {| Res.statusCode := code;
     Res.body := JStr "<html/>";
     Res.actionOptions :=
       {| Res.idx := 3;
          Res.name := HELIX_STATIC_ACTION;
          Res.params := {[ "owner" := JStr "adobe"; "repo" := JStr "helix-pages";
                           "ref" := JStr "main"; "path" := JStr "/a.html" ]} |} |}.

Definition sampleStore (code : Z) : store := {[ 1%positive := sampleResponse code ]}.

Definition branchOpts : jsobj :=
  {[ "owner" := JStr "adobe"; "repo" := JStr "helix-pages"; "ref" := JStr "main" ]}.

Definition shaService : nat → Invoke.t → Outcome :=
  λ _ _, Returned {| res_statusCode := Some 200;
                     res_body := JObj {[ "sha" := "5f2a6c8d7e1b4a3c9d0e5f2a6c8d7e1b4a3c9d0e" ]} |}.

Definition downService : nat → Invoke.t → Outcome := λ _ _, Raised "Error: unavailable".

Definition notFoundService : nat → Invoke.t → Outcome :=
  λ _ _, Returned {| res_statusCode := Some 404; res_body := JStr "not found" |}.

Definition shaOpts : jsobj :=
  {[ "owner" := JStr "adobe"; "repo" := JStr "helix-pages";
     "ref" := JStr "0123456789ABCDEF0123456789abcdef01234567" ]}.

(** The request [{__ow_logger: logger}]. *)
Definition loggedParams : Params.t :=
  {| Params.path := None; Params.rootPath := None; Params.content_index := None;
     Params.content_owner := None; Params.content_repo := None;
     Params.content_ref := None; Params.content_package := None;
     Params.content_root := JUndefined; Params.static_owner := None;
     Params.static_repo := None; Params.static_ref := None;
     Params.static_esi := JUndefined; Params.static_root := JUndefined;
     Params.params := JUndefined; Params.GITHUB_TOKEN := None;
     Params.__ow_headers := None; Params.__ow_method := JUndefined;
     Params.__ow_logger := Some WrapperLogger |}.

(** The request [{__ow_headers: {'x-github-token': 'header-token'}}]. *)
Definition headerTokenParams : Params.t :=
  {| Params.path := None; Params.rootPath := None; Params.content_index := None;
     Params.content_owner := None; Params.content_repo := None;
     Params.content_ref := None; Params.content_package := None;
     Params.content_root := JUndefined; Params.static_owner := None;
     Params.static_repo := None; Params.static_ref := None;
     Params.static_esi := JUndefined; Params.static_root := JUndefined;
     Params.params := JUndefined; Params.GITHUB_TOKEN := None;
     Params.__ow_headers := Some {[ "x-github-token" := "header-token" ]};
     Params.__ow_method := JUndefined; Params.__ow_logger := None |}.

(** A request with a logger whose content and static repositories differ,
    both at the branch [main]; it carries a token as a parameter and
    another one in a header. *)
Definition twoRepoParams : Params.t :=
  {| Params.path := Some "/docs/"; Params.rootPath := None; Params.content_index := None;
     Params.content_owner := Some "adobe"; Params.content_repo := Some "helix-content";
     Params.content_ref := Some "main";
     Params.content_package := None; Params.content_root := JUndefined;
     Params.static_owner := Some "adobe"; Params.static_repo := Some "helix-static";
     Params.static_ref := Some "main";
     Params.static_esi := JUndefined; Params.static_root := JUndefined;
     Params.params := JUndefined; Params.GITHUB_TOKEN := Some "param-token";
     Params.__ow_headers := Some {[ "x-github-token" := "header-token" ]};
     Params.__ow_method := JStr "get";
     Params.__ow_logger := Some WrapperLogger |}.

(** The request [{'content.index': 'README'}]. *)
Definition bareIndexParams : Params.t :=
  {| Params.path := None; Params.rootPath := None; Params.content_index := Some "README";
     Params.content_owner := None; Params.content_repo := None;
     Params.content_ref := None; Params.content_package := None;
     Params.content_root := JUndefined; Params.static_owner := None;
     Params.static_repo := None; Params.static_ref := None;
     Params.static_esi := JUndefined; Params.static_root := JUndefined;
     Params.params := JUndefined; Params.GITHUB_TOKEN := None;
     Params.__ow_headers := None; Params.__ow_method := JUndefined;
     Params.__ow_logger := None |}.

(** ** The redirect adapter ([redirect.js]) *)

Module Redirect.

(** The options [redirect] hands to [ow.actions.invoke]. *)
Record Request := {
  name : string;
  params : jsobj;
}.

(** What [redirect] writes with [console.log]. *)
Inductive ConsoleLine (R : Type) :=
| LoggedOpts (opts : Request)
| LoggedResult (result : R).
Arguments LoggedOpts {R} opts.
Arguments LoggedResult {R} result.

(** The object [redirect] resolves with; [target] is [null] or a string. *)
Record Redirection (R : Type) := {
  type : string;
  target : option string;
  result : R;
}.
Arguments type {R} _.
Arguments target {R} _.
Arguments result {R} _.

Record Abort := {
  statusCode : Z;
  body : string;
}.

(** [s.replace(/c/g, by)] for a one-character pattern [c]. *)
Fixpoint replaceAll (c : ascii) (by_ : string) (s : string) : string :=
  match s with
  | EmptyString => EmptyString
  | String a s' =>
      if Ascii.eqb a c then by_ +:+ replaceAll c by_ s'
      else String a (replaceAll c by_ s')
  end.

(** [.replace(/&/g, '&amp;').replace(/</g, '&lt;').replace(/>/g, '&gt;')] *)
Definition escape (s : string) : string :=
  replaceAll ">" "&gt;" (replaceAll "<" "&lt;" (replaceAll "&" "&amp;" s)).

(** The entity of one character. *)
Definition entityOf (a : ascii) : string :=
  if Ascii.eqb a "&" then "&amp;"
  else if Ascii.eqb a "<" then "&lt;"
  else if Ascii.eqb a ">" then "&gt;"
  else String a EmptyString.

(** The escaping done in one pass over the characters. *)
Fixpoint escapeChars (s : string) : string :=
  match s with
  | EmptyString => EmptyString
  | String a s' => entityOf a +:+ escapeChars s'
  end.

Section Adapter.

(** The type of an invocation result. *)
Variable R : Type.

Definition redirect (params : jsobj) (ow : Request → promise R)
    (console : list (ConsoleLine R)) : promise (Redirection R) * list (ConsoleLine R) :=
  let opts := {| name := "helix-services/redirect@v1"; params := params |} in
  let console := console ++ [LoggedOpts opts] in
  match ow opts with
  | Fulfilled result =>
      (Fulfilled {| type := "none"; target := None; result := result |},
       console ++ [LoggedResult result])
  | Rejected e => (Rejected e, console)
  end.

Definition sendRedirect (redirectPromise : promise (Redirection R)) : promise R :=
  then_ redirectPromise result.

Definition abortRedirect (redirectPromise : promise (Redirection R)) : promise Abort :=
  then_ redirectPromise (λ redirection,
    {| statusCode := 508;
       body := "Too many internal redirects to "
               +:+ escape (strOr (target redirection) "") |}).

End Adapter.

End Redirect.

(** ** Descriptions used by the further properties *)

(** No occurrence of the character [c] in [s]. *)
Definition free (c : ascii) (s : string) : Prop := JS.lastIndexOf s c = -1.

(** The fields [pathInfoOf] computes, written with [take] and [drop]. *)
Definition fieldsOf (mount url : string) : PathInfo :=
  let lastSlash := JS.lastIndexOf url "/" in
  let lastDot := JS.lastIndexOf url "." in
  let selDot := JS.lastIndexOf (JS.take (Z.to_nat lastDot) url) "." in
  let cut := if lastSlash <? selDot then selDot else lastDot in
  let relPath := JS.take (Z.to_nat cut) url in
  let strip := JS.truthy mount && negb (String.eqb mount "/")
               && JS.startsWith (relPath +:+ "/") (mount +:+ "/") in
  {| path := if strip then JS.drop (String.length mount) url else url;
     name := JS.take (Z.to_nat (cut - lastSlash - 1)) (JS.drop (Z.to_nat (lastSlash + 1)) url);
     selector := if lastSlash <? selDot
                 then JS.drop (Z.to_nat (selDot + 1)) (JS.take (Z.to_nat lastDot) url)
                 else "";
     ext := JS.drop (Z.to_nat (lastDot + 1)) url;
     relPath := if strip then JS.drop (String.length mount) relPath else relPath |}.

(** The level [resolveRef] logs a failed resolution at. *)
Definition failureLevel (status : option Z) : LogLevel :=
  match status with
  | Some code => if (code =? 0) || (500 <=? code) then LError else LInfo
  | None => LError
  end.

(** The tasks of a plan, the base list first. *)
Definition tasksOf (plan : Plan) : list (promise Task.t) := base plan ++ fetch404 plan.

(** A service that resolves every ref to [sha]. *)
Definition resolvesTo (sha : string) (service : nat → Invoke.t → Outcome) : Prop :=
  ∀ n req, ∃ res, service n req = Returned res ∧ bodySha (res_body res) = Some sha.

(** An object literal of a task: it has no property but these five. *)
Definition taskLiteral (literal : jsobj) : Prop :=
  ∀ k, k ≠ "path" → k ≠ "esi" → k ≠ "plain" → k ≠ "root" → k ≠ "rootPath" →
       literal !! k = None.

(** A request whose two refs are commit shas. *)
Definition shaParams : Params.t :=
  {| Params.path := Some "/docs/"; Params.rootPath := None; Params.content_index := None;
     Params.content_owner := Some "adobe"; Params.content_repo := Some "helix-content";
     Params.content_ref := Some "5f2a6c8d7e1b4a3c9d0e5f2a6c8d7e1b4a3c9d0e";
     Params.content_package := None; Params.content_root := JUndefined;
     Params.static_owner := Some "adobe"; Params.static_repo := Some "helix-static";
     Params.static_ref := Some "0123456789ABCDEF0123456789abcdef01234567";
     Params.static_esi := JStr "true"; Params.static_root := JStr "/htdocs";
     Params.params := JUndefined; Params.GITHUB_TOKEN := None;
     Params.__ow_headers := None; Params.__ow_method := JStr "get";
     Params.__ow_logger := None |}.

(** * Properties *)

(** ** Sample evaluations *)

(** The examples of the Node.js documentation of [path.resolve]. *)
Example resolve_relative : Path.resolve "/" ["/foo/bar"; "./baz"] = "/foo/bar/baz".
Proof. reflexivity. Qed.

Example resolve_absolute_wins : Path.resolve "/" ["/foo/bar"; "/tmp/file/"] = "/tmp/file".
Proof. reflexivity. Qed.

Example resolve_from_cwd :
  Path.resolve "/home/myself/node" ["wwwroot"; "static_files/png/"; "../gif/image.gif"]
  = "/home/myself/node/wwwroot/static_files/gif/image.gif".
Proof. reflexivity. Qed.

Example replace_first_run_only : JS.replaceFirstSlashRun "a///b//c" = "a/b//c".
Proof. reflexivity. Qed.

Example getPathInfos_root :
  getPathInfos "/" "/" "" ["index.html"; "default.html"]
  = Ok [ {| path := "/index.html"; name := "index"; selector := ""; ext := "html";
            relPath := "/index" |};
         {| path := "/default.html"; name := "default"; selector := ""; ext := "html";
            relPath := "/default" |} ].
Proof. vm_compute. reflexivity. Qed.

Example getPathInfos_selector :
  getPathInfos "/" "/foo/bar.info.html" "/foo" ["index.html"]
  = Ok [ {| path := "/bar.info.html"; name := "bar"; selector := "info"; ext := "html";
            relPath := "/bar" |} ].
Proof. vm_compute. reflexivity. Qed.

Example getPathInfos_bare :
  getPathInfos "/" "/a/../foo//bar" "" ["index.html"]
  = Ok [ {| path := "/foo/bar.html"; name := "bar"; selector := ""; ext := "html";
            relPath := "/foo/bar" |} ].
Proof. vm_compute. reflexivity. Qed.

Example defaultResolver_502 :
  let r := {| Res.statusCode := 502; Res.body := JUndefined;
              Res.actionOptions :=
                {| Res.idx := 3; Res.name := "helix-services/static@v1";
                   Res.params := {[ "owner" := JStr "adobe"; "repo" := JStr "helix";
                                    "ref" := JStr "main"; "path" := JStr "/a.html" ]} |} |} in
  fst (defaultResolver (Some 1%positive) {[ 1%positive := r ]})
  = Rejects {| Err.message :=
                 "[3] Error invoking helix-services/static@v1(adobe/helix/main/a.html): 502";
               Err.statusCode := 504 |}.
Proof. vm_compute. reflexivity. Qed.

(** ** The resolver policies *)

Section Policies.

Variables (h : store) (l : loc) (r : Res.t).
Hypothesis Hl : h !! l = Some r.

Lemma defaultResolver_accepts :
  Res.statusCode r < 400 → defaultResolver (Some l) h = (Resolves (Some l), h).
Proof using Hl.
  intros Hlt. unfold defaultResolver. simpl. rewrite Hl.
  destruct (Z.leb_spec 400 (Res.statusCode r)); [lia | reflexivity].
Qed.

Lemma defaultResolver_rejects :
  400 ≤ Res.statusCode r →
  ∃ e, defaultResolver (Some l) h = (Rejects e, h)
       ∧ Err.statusCode e = (if Res.statusCode r =? 502 then 504 else Res.statusCode r)
       ∧ Err.message e =
           let o := Res.actionOptions r in
           let rp := tpl (prop (Res.params o) "owner") +:+ "/"
                     +:+ tpl (prop (Res.params o) "repo") +:+ "/"
                     +:+ tpl (prop (Res.params o) "ref")
                     +:+ tpl (prop (Res.params o) "path") in
           "[" +:+ dec (Res.idx o) +:+ "] Error invoking " +:+ Res.name o
           +:+ "(" +:+ rp +:+ "): " +:+ dec (Res.statusCode r).
Proof using Hl.
  intros Hge. unfold defaultResolver. simpl. rewrite Hl.
  destruct (Z.leb_spec 400 (Res.statusCode r)); [| lia].
  eexists. split; [reflexivity |]. split; [reflexivity |].
  reflexivity.
Qed.

Lemma errorPageResolver_delegates :
  Res.statusCode r ≠ 200 → errorPageResolver (Some l) h = defaultResolver (Some l) h.
Proof using Hl.
  intros Hne. unfold errorPageResolver. rewrite Hl.
  destruct (Z.eqb_spec (Res.statusCode r) 200); [contradiction | reflexivity].
Qed.

Lemma errorPageResolver_rewrites :
  Res.statusCode r = 200 →
  errorPageResolver (Some l) h = (Resolves (Some l), <[l := Res.withStatusCode r 404]> h).
Proof using Hl.
  intros Heq. unfold errorPageResolver. rewrite Hl, Heq. reflexivity.
Qed.

End Policies.

(** C2. For a completed response [r] stored at [l], [defaultResolver]
    resolves with the response when its status code is below 400; from 400
    on it rejects with an error whose message carries the invocation index,
    the target name and owner/repo/ref followed by the path, and whose
    status code is 504 for a 502 response and the response's own status
    code otherwise. *)
Theorem defaultResolver_policy (h : store) (l : loc) (r : Res.t) :
  h !! l = Some r →
  (Res.statusCode r < 400 → defaultResolver (Some l) h = (Resolves (Some l), h))
  ∧ (400 ≤ Res.statusCode r →
     ∃ e, defaultResolver (Some l) h = (Rejects e, h)
          ∧ Err.message e =
              (let o := Res.actionOptions r in
               let rp := tpl (prop (Res.params o) "owner") +:+ "/"
                         +:+ tpl (prop (Res.params o) "repo") +:+ "/"
                         +:+ tpl (prop (Res.params o) "ref")
                         +:+ tpl (prop (Res.params o) "path") in
               "[" +:+ dec (Res.idx o) +:+ "] Error invoking " +:+ Res.name o
               +:+ "(" +:+ rp +:+ "): " +:+ dec (Res.statusCode r))
          ∧ (Res.statusCode r = 502 → Err.statusCode e = 504)
          ∧ (Res.statusCode r ≠ 502 → Err.statusCode e = Res.statusCode r)).
Proof.
  intros Hl. split.
  - apply defaultResolver_accepts, Hl.
  - intros Hge. destruct (defaultResolver_rejects h l r Hl Hge) as (e & He & Hcode & Hmsg).
    exists e. repeat split; [exact He | exact Hmsg | |].
    + intros H502. rewrite H502 in Hcode. exact Hcode.
    + intros Hne. rewrite Hcode.
      destruct (Z.eqb_spec (Res.statusCode r) 502); [contradiction | reflexivity].
Qed.

Lemma defaultResolver_policy_witness :
  sampleStore 502 !! 1%positive = Some (sampleResponse 502)
  ∧ ∃ e, defaultResolver (Some 1%positive) (sampleStore 502) = (Rejects e, sampleStore 502)
         ∧ Err.message e
           = "[3] Error invoking helix-services/static@v1(adobe/helix-pages/main/a.html): 502"
         ∧ Err.statusCode e = 504.
Proof.
  split; [reflexivity |].
  destruct (defaultResolver_policy (sampleStore 502) 1%positive (sampleResponse 502) eq_refl)
    as [_ Hrej].
  destruct Hrej as (e & He & Hmsg & H502 & _); [vm_compute; discriminate |].
  exists e. split; [exact He |]. split; [exact Hmsg | apply H502; reflexivity].
Defined.

(** C3. For a completed response [r] stored at [l], [errorPageResolver]
    resolves with the response, its status code set to 404, when the status
    code is 200; in every other case it answers as [defaultResolver] does,
    so that a 404 or 500 response is rejected with its status code kept. *)
Theorem errorPageResolver_policy (h : store) (l : loc) (r : Res.t) :
  h !! l = Some r →
  (Res.statusCode r = 200 →
   ∃ h' r', errorPageResolver (Some l) h = (Resolves (Some l), h')
            ∧ h' !! l = Some r' ∧ Res.statusCode r' = 404)
  ∧ (Res.statusCode r ≠ 200 → errorPageResolver (Some l) h = defaultResolver (Some l) h)
  ∧ (Res.statusCode r = 404 ∨ Res.statusCode r = 500 →
     ∃ e, errorPageResolver (Some l) h = (Rejects e, h)
          ∧ Err.statusCode e = Res.statusCode r).
Proof.
  intros Hl. split; [| split].
  - intros H200. eexists _, _. split; [apply errorPageResolver_rewrites; eassumption |].
    split; [apply lookup_insert_eq | reflexivity].
  - apply errorPageResolver_delegates, Hl.
  - intros Hcode. rewrite (errorPageResolver_delegates h l r Hl) by lia.
    destruct (defaultResolver_rejects h l r Hl) as (e & He & Hst & _); [lia |].
    exists e. split; [exact He |]. rewrite Hst.
    destruct (Z.eqb_spec (Res.statusCode r) 502); [lia | reflexivity].
Qed.

Lemma errorPageResolver_policy_witness :
  sampleStore 404 !! 1%positive = Some (sampleResponse 404)
  ∧ ∃ e, errorPageResolver (Some 1%positive) (sampleStore 404) = (Rejects e, sampleStore 404)
         ∧ Err.statusCode e = 404.
Proof.
  split; [reflexivity |].
  destruct (errorPageResolver_policy (sampleStore 404) 1%positive (sampleResponse 404) eq_refl)
    as (_ & _ & Hrej).
  exact (Hrej (or_introl eq_refl)).
Defined.

(** C10. On a response with status code 200, [errorPageResolver] updates
    the stored object itself: afterwards the same reference holds a
    response with status code 404 and every other field as before, no other
    object of the store is touched and none is created, and the promise
    resolves with that very reference. *)
Theorem errorPageResolver_in_place (h : store) (l : loc) (r : Res.t) :
  h !! l = Some r →
  Res.statusCode r = 200 →
  ∃ h' r', errorPageResolver (Some l) h = (Resolves (Some l), h')
           ∧ h' !! l = Some r'
           ∧ Res.statusCode r' = 404
           ∧ Res.body r' = Res.body r
           ∧ Res.actionOptions r' = Res.actionOptions r
           ∧ (∀ l', l' ≠ l → h' !! l' = h !! l')
           ∧ dom h' = dom h.
Proof.
  intros Hl H200. exists (<[l := Res.withStatusCode r 404]> h), (Res.withStatusCode r 404).
  split; [apply errorPageResolver_rewrites; assumption |].
  split; [apply lookup_insert_eq |].
  repeat split.
  - intros l' Hne. apply lookup_insert_ne. congruence.
  - rewrite dom_insert_L. apply subseteq_union_1_L, singleton_subseteq_l, elem_of_dom. eauto.
Qed.

Lemma errorPageResolver_in_place_witness :
  sampleStore 200 !! 1%positive = Some (sampleResponse 200)
  ∧ Res.statusCode (sampleResponse 200) = 200
  ∧ ∃ h' r', errorPageResolver (Some 1%positive) (sampleStore 200)
             = (Resolves (Some 1%positive), h')
             ∧ h' !! 1%positive = Some r' ∧ Res.statusCode r' = 404.
Proof.
  split; [reflexivity |]. split; [reflexivity |].
  destruct (errorPageResolver_in_place (sampleStore 200) 1%positive (sampleResponse 200)
              eq_refl eq_refl) as (h' & r' & Hres & Hlook & Hcode & _).
  exists h', r'. auto.
Defined.

(** ** The ref resolver *)

Section RefResolver.

Variable service : nat → Invoke.t → Outcome.

Lemma isSha_truthy (s : string) : isSha s = true → JS.truthy s = true.
Proof. destruct s; [discriminate | reflexivity]. Qed.

Lemma refIsSha_string (s : string) : refIsSha (JStr s) = Ok (isSha s).
Proof.
  unfold refIsSha. destruct (isSha s) eqn:E.
  - rewrite (isSha_truthy s E). reflexivity.
  - rewrite andb_false_r. reflexivity.
Qed.

Lemma refIsSha_typed (ref : jsval) :
  stringOrFalsy ref →
  refIsSha ref = Ok (match ref with JStr s => isSha s | _ => false end).
Proof.
  destruct ref as [| [] | s |]; simpl; intros H; try contradiction; try reflexivity.
  apply refIsSha_string.
Qed.

Lemma resolveRef_sha (opts wskOpts : jsobj) (log : option Logger) (w : World) (s : string) :
  prop opts "ref" = JStr s → isSha s = true →
  resolveRef service opts wskOpts log w = (Fulfilled {[ "ref" := JStr s ]}, enter opts w).
Proof.
  intros Href Hsha. unfold resolveRef. rewrite Href, refIsSha_string, Hsha. reflexivity.
Qed.

Lemma refIsSha_cases (ref : jsval) :
  (stringOrFalsy ref ∧ refIsSha ref = Ok (shaRef ref))
  ∨ (¬ stringOrFalsy ref ∧ shaRef ref = false
     ∧ refIsSha ref = Throw (TypeError "ref.match is not a function")).
Proof.
  destruct ref as [| [] | s |]; simpl;
    try (left; split; [exact I | reflexivity]);
    try (right; split; [tauto | split; reflexivity]).
  left. split; [exact I | apply refIsSha_string].
Qed.

Lemma onlyRef_ref (x : jsval) : onlyRef {[ "ref" := x ]}.
Proof. intros k H _. apply lookup_singleton_ne. congruence. Qed.

Lemma onlyRef_branch (x y : jsval) : onlyRef {[ "ref" := x; "branch" := y ]}.
Proof.
  intros k H1 H2. rewrite lookup_insert_ne by congruence.
  apply lookup_singleton_ne. congruence.
Qed.

(** How a call of [resolveRef] on a string or absent ref ends. *)
Lemma resolveRef_settled (opts wskOpts : jsobj) (log : option Logger) (w : World) :
  stringOrFalsy (prop opts "ref") →
  ∃ p w', resolveRef service opts wskOpts log w = (p, w')
          ∧ resolutions w' = resolutions w ++ [opts]
          ∧ invocations w' = invocations w ++ requestsOf opts wskOpts
          ∧ settlement log p.
Proof.
  intros Hty. unfold resolveRef, requestsOf. rewrite (refIsSha_typed _ Hty).
  change (match prop opts "ref" with JStr s => isSha s | _ => false end)
    with (shaRef (prop opts "ref")).
  destruct (shaRef (prop opts "ref")).
  - eexists _, _. split; [reflexivity |]. split; [reflexivity |].
    split; [symmetry; apply List.app_nil_r | apply onlyRef_ref].
  - destruct (service _ _) as [res | e].
    + destruct (bodySha (res_body res)).
      * eexists _, _. split; [reflexivity |]. split; [reflexivity |].
        split; [reflexivity | apply onlyRef_branch].
      * destruct log as [[] |].
        -- eexists _, _. split; [reflexivity |]. split; [reflexivity |].
           split; [reflexivity | apply onlyRef_ref].
        -- eexists _, _. split; [reflexivity |]. split; [reflexivity |].
           split; [reflexivity | split; reflexivity].
    + destruct log as [[] |].
      * eexists _, _. split; [reflexivity |]. split; [reflexivity |].
        split; [reflexivity | apply onlyRef_ref].
      * eexists _, _. split; [reflexivity |]. split; [reflexivity |].
        split; [reflexivity | split; reflexivity].
Qed.

(** With a logger, the call fulfils. *)
Lemma resolveRef_fulfilled (opts wskOpts : jsobj) (logger : Logger) (w : World) :
  stringOrFalsy (prop opts "ref") →
  ∃ v w', resolveRef service opts wskOpts (Some logger) w = (Fulfilled v, w')
          ∧ resolutions w' = resolutions w ++ [opts]
          ∧ invocations w' = invocations w ++ requestsOf opts wskOpts
          ∧ onlyRef v.
Proof.
  intros Hty.
  destruct (resolveRef_settled opts wskOpts (Some logger) w Hty)
    as ([v | e] & w' & Hres & Htrace & Hinv & Hp).
  - exists v, w'. auto.
  - destruct Hp as [Hp _]. discriminate.
Qed.

End RefResolver.

(** C4, counterexample. Without a logger, [resolveRef] rejects when the
    service raises an error and when it answers without a sha; a ref that
    is [true] rejects whatever the service and the logger. *)
Lemma resolveRef_rejects_without_logger :
  fst (resolveRef downService branchOpts ∅ None emptyWorld)
  = Rejected (missingLogger LError)
  ∧ fst (resolveRef notFoundService branchOpts ∅ None emptyWorld)
    = Rejected (missingLogger LError)
  ∧ fst (resolveRef shaService {[ "ref" := JBool true ]} ∅ (Some WrapperLogger) emptyWorld)
    = Rejected (TypeError "ref.match is not a function").
Proof. repeat split; vm_compute; reflexivity. Qed.

(** C4, amended. A ref of 40 hexadecimal digits in either case comes back
    as [{ref}] and nothing is sent to the ref-resolution service. For any
    other ref that is a string or falsy, one request is sent; the result is
    [{ref: sha, branch: ref}] when the response body carries a sha. In
    every other case, be it a response without a usable sha or an
    exception, the outcome depends on the logger: with a logger the call
    fulfils with [{ref}], which has no [branch] property; without one
    ([log] undefined) it rejects with the [TypeError] of reading
    [log.error]. A truthy ref that is not a string rejects with the
    [TypeError] of [ref.match] and nothing is sent. *)
Theorem resolveRef_never_fails (service : nat → Invoke.t → Outcome)
    (opts wskOpts : jsobj) (log : option Logger) (w : World) :
  let ref := prop opts "ref" in
  let req := resolveRequest opts wskOpts in
  let degraded (p : promise jsobj) :=
    match log with
    | Some _ => p = Fulfilled {[ "ref" := ref ]}
                ∧ ({[ "ref" := ref ]} : jsobj) !! "branch" = None
    | None => p = Rejected (missingLogger LError)
    end in
  ∃ p w', resolveRef service opts wskOpts log w = (p, w')
    ∧ (shaRef ref = true →
         p = Fulfilled {[ "ref" := ref ]} ∧ invocations w' = invocations w)
    ∧ (stringOrFalsy ref → shaRef ref = false →
         invocations w' = invocations w ++ [req]
         ∧ match service (length (invocations w)) req with
           | Returned res =>
               match bodySha (res_body res) with
               | Some sha => p = Fulfilled {[ "ref" := JStr sha; "branch" := ref ]}
               | None => degraded p
               end
           | Raised _ => degraded p
           end)
    ∧ (¬ stringOrFalsy ref →
         p = Rejected (TypeError "ref.match is not a function")
         ∧ invocations w' = invocations w).
Proof.
  intros ref req degraded. unfold resolveRef. fold ref.
  destruct (refIsSha_cases ref) as [[Hty Hsha] | (Hty & Hno & Hsha)]; rewrite Hsha.
  - destruct (shaRef ref) eqn:E.
    + eexists _, _. split; [reflexivity |].
      split; [intros _; split; reflexivity |].
      split; [intros _ H; discriminate | intros H; contradiction].
    + change (service (length (invocations (enter opts w))) _)
        with (service (length (invocations w)) req).
      unfold degraded.
      destruct (service (length (invocations w)) req) as [res | e].
      * destruct (bodySha (res_body res)) as [sha |]; [| destruct log as [[] |]];
          (eexists _, _; split; [reflexivity |];
           split; [intros H; discriminate |];
           split; [intros _ _; split; [reflexivity | try split; reflexivity]
                  | intros H; contradiction]).
      * destruct log as [[] |];
          (eexists _, _; split; [reflexivity |];
           split; [intros H; discriminate |];
           split; [intros _ _; split; [reflexivity | try split; reflexivity]
                  | intros H; contradiction]).
  - eexists _, _. split; [reflexivity |].
    split; [intros H; rewrite H in Hno; discriminate |].
    split; [intros H; contradiction | intros _; split; reflexivity].
Qed.

Lemma resolveRef_never_fails_witness :
  (∃ w', resolveRef downService shaOpts ∅ None emptyWorld
         = (Fulfilled {[ "ref" := JStr "0123456789ABCDEF0123456789abcdef01234567" ]}, w')
         ∧ invocations w' = [])
  ∧ (∃ w', resolveRef downService branchOpts ∅ (Some WrapperLogger) emptyWorld
           = (Fulfilled {[ "ref" := JStr "main" ]}, w')
           ∧ invocations w' = [resolveRequest branchOpts ∅])
  ∧ (∃ w', resolveRef notFoundService branchOpts ∅ (Some WrapperLogger) emptyWorld
           = (Fulfilled {[ "ref" := JStr "main" ]}, w')
           ∧ invocations w' = [resolveRequest branchOpts ∅])
  ∧ (∃ w', resolveRef shaService branchOpts ∅ None emptyWorld
           = (Fulfilled {[ "ref" := JStr "5f2a6c8d7e1b4a3c9d0e5f2a6c8d7e1b4a3c9d0e";
                           "branch" := JStr "main" ]}, w')
           ∧ invocations w' = [resolveRequest branchOpts ∅]).
Proof.
  assert (Hsha : shaRef (prop shaOpts "ref") = true) by (vm_compute; reflexivity).
  assert (Hbranch : shaRef (prop branchOpts "ref") = false) by (vm_compute; reflexivity).
  assert (Hty : stringOrFalsy (prop branchOpts "ref")) by exact I.
  split; [| split; [| split]].
  - destruct (resolveRef_never_fails downService shaOpts ∅ None emptyWorld)
      as (p & w' & Hres & Hshort & _).
    destruct (Hshort Hsha) as [Hp Hinv].
    exists w'. split; [| exact Hinv]. rewrite Hres, Hp. reflexivity.
  - destruct (resolveRef_never_fails downService branchOpts ∅ (Some WrapperLogger) emptyWorld)
      as (p & w' & Hres & _ & Hcall & _).
    destruct (Hcall Hty Hbranch) as [Hinv [Hp _]].
    exists w'. split; [| exact Hinv]. rewrite Hres, Hp. reflexivity.
  - destruct (resolveRef_never_fails notFoundService branchOpts ∅ (Some WrapperLogger)
                emptyWorld) as (p & w' & Hres & _ & Hcall & _).
    destruct (Hcall Hty Hbranch) as [Hinv [Hp _]].
    exists w'. split; [| exact Hinv]. rewrite Hres, Hp. reflexivity.
  - destruct (resolveRef_never_fails shaService branchOpts ∅ None emptyWorld)
      as (p & w' & Hres & _ & Hcall & _).
    destruct (Hcall Hty Hbranch) as [Hinv Hp].
    exists w'. split; [| exact Hinv]. rewrite Hres. f_equal. f_equal. exact Hp.
Defined.

(** ** The plan builder *)

Lemma prop_assign (o src : jsobj) (k : string) :
  prop (assign o src) k = match src !! k with Some v => v | None => prop o k end.
Proof.
  unfold prop, assign. rewrite lookup_union.
  destruct (src !! k), (o !! k); reflexivity.
Qed.

Lemma lookup_assign_None (o src : jsobj) (k : string) :
  src !! k = None → assign o src !! k = o !! k.
Proof. intros H. unfold assign. rewrite lookup_union, H. destruct (o !! k); reflexivity. Qed.

Lemma strictEq_ofOpt (a b : option string) : strictEq (ofOpt a) (ofOpt b) = true ↔ a = b.
Proof.
  destruct a as [s |], b as [t |]; simpl; split; intros H; try discriminate; try reflexivity.
  - apply String.eqb_eq in H. congruence.
  - injection H as ->. apply String.eqb_refl.
Qed.

Lemma truthy_ofOpt (a : option string) (d : string) :
  (if truthy (ofOpt a) then tpl (ofOpt a) else d) = strOr a d.
Proof. destruct a as [s |]; simpl; [destruct (JS.truthy s) |]; reflexivity. Qed.

Section OptionObjects.

Variable params : Params.t.

Lemma staticOptsOf_coordinate :
  staticOptsOf params !! "owner" = Some (ofOpt (Params.static_owner params))
  ∧ staticOptsOf params !! "repo" = Some (ofOpt (Params.static_repo params))
  ∧ staticOptsOf params !! "ref" = Some (ofOpt (Params.static_ref params))
  ∧ staticOptsOf params !! "path" = None.
Proof. unfold staticOptsOf. destruct (truthy _); repeat split; reflexivity. Qed.

Lemma contentOptsOf_coordinate :
  contentOptsOf params !! "owner" = Some (ofOpt (Params.content_owner params))
  ∧ contentOptsOf params !! "repo" = Some (ofOpt (Params.content_repo params))
  ∧ contentOptsOf params !! "ref" = Some (ofOpt (Params.content_ref params))
  ∧ contentOptsOf params !! "package" = Some (ofOpt (Params.content_package params))
  ∧ contentOptsOf params !! "path" = None.
Proof. unfold contentOptsOf. destruct (truthy _); repeat split; reflexivity. Qed.

Lemma wskOptsOf_keys (k : string) :
  k ≠ "__ow_headers" → k ≠ "__ow_method" → wskOptsOf params !! k = None.
Proof.
  intros H1 H2. unfold wskOptsOf.
  rewrite lookup_insert_ne by congruence. apply lookup_singleton_ne. congruence.
Qed.

Lemma stringOrFalsy_ofOpt (a : option string) : stringOrFalsy (ofOpt a).
Proof. destruct a; exact I. Qed.

Lemma equalRepository_spec :
  equalRepository (staticOptsOf params) (contentOptsOf params) = true
  ↔ Params.static_owner params = Params.content_owner params
    ∧ Params.static_repo params = Params.content_repo params
    ∧ Params.static_ref params = Params.content_ref params.
Proof.
  unfold equalRepository, prop.
  destruct staticOptsOf_coordinate as (-> & -> & -> & _).
  destruct contentOptsOf_coordinate as (-> & -> & -> & _).
  simpl default. rewrite !andb_true_iff, !strictEq_ofOpt. tauto.
Qed.

End OptionObjects.

(** ** Strings *)

Module StrFacts.

Lemma app_nil_l (s : string) : "" +:+ s = s.
Proof. reflexivity. Qed.

Lemma app_cons (a : ascii) (s t : string) : String a s +:+ t = String a (s +:+ t).
Proof. reflexivity. Qed.

Lemma app_nil_r (s : string) : s +:+ "" = s.
Proof. induction s as [| a s IH]; [reflexivity |]. rewrite app_cons, IH. reflexivity. Qed.

Lemma app_assoc (s t u : string) : (s +:+ t) +:+ u = s +:+ t +:+ u.
Proof.
  induction s as [| a s IH]; [reflexivity |]. rewrite !app_cons, IH. reflexivity.
Qed.

Lemma len_nil : JS.len "" = 0.
Proof. reflexivity. Qed.

Lemma len_cons (a : ascii) (s : string) : JS.len (String a s) = JS.len s + 1.
Proof. unfold JS.len. simpl String.length. lia. Qed.

Lemma len_app (s t : string) : JS.len (s +:+ t) = JS.len s + JS.len t.
Proof.
  induction s as [| a s IH]; [reflexivity |].
  rewrite app_cons, !len_cons, IH. lia.
Qed.

Lemma len_nonneg (s : string) : 0 ≤ JS.len s.
Proof. unfold JS.len. lia. Qed.

Lemma lastIndexOf_cons (a c : ascii) (s : string) :
  JS.lastIndexOf (String a s) c
  = if 0 <=? JS.lastIndexOf s c then JS.lastIndexOf s c + 1
    else if Ascii.eqb a c then 0 else -1.
Proof. reflexivity. Qed.

Lemma lastIndexOf_bounds (s : string) (c : ascii) :
  -1 ≤ JS.lastIndexOf s c < JS.len s.
Proof.
  induction s as [| a s IH]; [unfold JS.len; simpl; lia |].
  rewrite lastIndexOf_cons, len_cons. pose proof (len_nonneg s).
  destruct (0 <=? JS.lastIndexOf s c) eqn:E; [lia |].
  destruct (Ascii.eqb a c); lia.
Qed.

Lemma lastIndexOf_app_present (s t : string) (c : ascii) :
  0 ≤ JS.lastIndexOf t c →
  JS.lastIndexOf (s +:+ t) c = JS.len s + JS.lastIndexOf t c.
Proof.
  intros Ht. induction s as [| a s IH]; [rewrite app_nil_l, len_nil; lia |].
  rewrite app_cons, lastIndexOf_cons, IH, len_cons.
  pose proof (len_nonneg s).
  destruct (Z.leb_spec 0 (JS.len s + JS.lastIndexOf t c)); lia.
Qed.

Lemma lastIndexOf_app_absent (s t : string) (c : ascii) :
  JS.lastIndexOf t c = -1 →
  JS.lastIndexOf (s +:+ t) c = JS.lastIndexOf s c.
Proof.
  intros Ht. induction s as [| a s IH]; [rewrite app_nil_l; exact Ht |].
  rewrite app_cons, !lastIndexOf_cons, IH. reflexivity.
Qed.

Lemma endsWith_cons (a c : ascii) (s : string) :
  JS.endsWith (String a s) c
  = match s with EmptyString => Ascii.eqb a c | _ => JS.endsWith s c end.
Proof. destruct s; reflexivity. Qed.

Lemma endsWith_lastIndexOf (s : string) (c : ascii) :
  JS.endsWith s c = true → JS.lastIndexOf s c = JS.len s - 1.
Proof.
  induction s as [| a s IH]; [discriminate |].
  rewrite endsWith_cons, lastIndexOf_cons, len_cons.
  destruct s as [| b s].
  - intros ->. reflexivity.
  - intros H. rewrite (IH H). pose proof (len_nonneg (String b s)).
    rewrite len_cons in *. pose proof (len_nonneg s).
    destruct (Z.leb_spec 0 (JS.len s + 1 - 1)); lia.
Qed.

Lemma endsWith_app (s : string) (c : ascii) : JS.endsWith (s +:+ String c "") c = true.
Proof.
  induction s as [| a s IH]; [simpl; apply Ascii.eqb_refl |].
  rewrite app_cons, endsWith_cons.
  destruct (s +:+ String c "") eqn:E; [| exact IH].
  destruct s; discriminate.
Qed.

Lemma truthy_spec (s : string) : JS.truthy s = true ↔ s ≠ "".
Proof. destruct s; simpl; split; congruence. Qed.

Lemma prefix_app (s t : string) : String.prefix s (s +:+ t) = true.
Proof.
  induction s as [| a s IH]; [destruct t; reflexivity |].
  rewrite app_cons. simpl. destruct (ascii_dec a a); [exact IH | congruence].
Qed.

End StrFacts.

(** ** Lists of segments *)

Module SegFacts.
Import StrFacts.

Lemma slash_app (s : string) : "/" +:+ s = String "/" s.
Proof. reflexivity. Qed.

Lemma split_cons (c a : ascii) (s : string) :
  JS.split c (String a s)
  = if Ascii.eqb a c then "" :: JS.split c s
    else match JS.split c s with
         | seg :: segs => String a seg :: segs
         | [] => [String a ""]
         end.
Proof. reflexivity. Qed.

Lemma split_nonempty (c : ascii) (s : string) : JS.split c s ≠ [].
Proof.
  induction s as [| a s IH]; [discriminate |].
  rewrite split_cons. destruct (Ascii.eqb a c); [discriminate |].
  destruct (JS.split c s); discriminate.
Qed.

Lemma lastIndexOf_absent_cons (a c : ascii) (s : string) :
  JS.lastIndexOf (String a s) c = -1 → Ascii.eqb a c = false ∧ JS.lastIndexOf s c = -1.
Proof.
  rewrite lastIndexOf_cons. pose proof (lastIndexOf_bounds s c).
  destruct (Z.leb_spec 0 (JS.lastIndexOf s c)); [lia |].
  destruct (Ascii.eqb a c); [lia |]. split; [reflexivity | lia].
Qed.

Lemma split_absent (c : ascii) (s : string) :
  JS.lastIndexOf s c = -1 → JS.split c s = [s].
Proof.
  induction s as [| a s IH]; [reflexivity |].
  intros H. apply lastIndexOf_absent_cons in H as [Ha Hs].
  rewrite split_cons, Ha, (IH Hs). reflexivity.
Qed.

Lemma split_app_sep (c : ascii) (s t : string) :
  JS.split c (s +:+ String c t) = JS.split c s ++ JS.split c t.
Proof.
  induction s as [| a s IH].
  - rewrite app_nil_l, split_cons, Ascii.eqb_refl. reflexivity.
  - rewrite app_cons, !split_cons, IH. destruct (Ascii.eqb a c); [reflexivity |].
    pose proof (split_nonempty c s). destruct (JS.split c s); [contradiction | reflexivity].
Qed.

Lemma join_snoc (sep : string) (l : list string) (x : string) :
  JS.join sep (l ++ [x])
  = match l with [] => x | _ => JS.join sep l +:+ sep +:+ x end.
Proof.
  induction l as [| a l IH]; [reflexivity |].
  destruct l as [| b l]; [reflexivity |].
  change (JS.join sep ((a :: b :: l) ++ [x]))
    with (a +:+ sep +:+ JS.join sep ((b :: l) ++ [x])).
  rewrite IH.
  change (JS.join sep (a :: b :: l)) with (a +:+ sep +:+ JS.join sep (b :: l)).
  rewrite !app_assoc. reflexivity.
Qed.

Lemma join_nonempty (sep : string) (l : list string) :
  l ≠ [] → Forall (λ seg, seg ≠ "") l → JS.join sep l ≠ "".
Proof.
  destruct l as [| a l]; [congruence |]. intros _ Hall.
  apply Forall_cons in Hall as [Ha _].
  destruct a as [| c a]; [congruence |].
  destruct l; simpl; [discriminate |]. rewrite app_cons. discriminate.
Qed.

Lemma unique_fold_elem (l acc : list string) (x : string) :
  x ∈ fold_left uniqueStep l acc ↔ x ∈ acc ∨ x ∈ l.
Proof.
  revert acc. induction l as [| a l IH]; intros acc; simpl.
  - set_solver.
  - rewrite IH. unfold uniqueStep. case_bool_decide; set_solver.
Qed.

Lemma unique_elem (l : list string) (x : string) : x ∈ unique l ↔ x ∈ l.
Proof. unfold unique. rewrite unique_fold_elem. set_solver. Qed.

Lemma unique_fold_NoDup (l acc : list string) :
  NoDup l → (∀ x, x ∈ l → x ∉ acc) → fold_left uniqueStep l acc = acc ++ l.
Proof.
  revert acc. induction l as [| a l IH]; intros acc Hnd Hdisj; simpl.
  - rewrite List.app_nil_r. reflexivity.
  - apply NoDup_cons in Hnd as [Ha Hnd]. unfold uniqueStep at 2.
    rewrite bool_decide_eq_false_2 by (apply Hdisj; set_solver).
    rewrite IH; [rewrite <- List.app_assoc; reflexivity | exact Hnd |].
    intros x Hx. rewrite elem_of_app, list_elem_of_singleton.
    intros [Hacc | ->]; [apply (Hdisj x); set_solver | contradiction].
Qed.

Lemma unique_NoDup (l : list string) : NoDup l → unique l = l.
Proof.
  intros Hnd. unfold unique.
  rewrite unique_fold_NoDup; [reflexivity | exact Hnd | set_solver].
Qed.

Lemma unique_fold_NoDup_inv (l acc : list string) :
  NoDup acc → NoDup (fold_left uniqueStep l acc).
Proof.
  revert acc. induction l as [| a l IH]; intros acc Hacc; [exact Hacc |].
  simpl. apply IH. unfold uniqueStep. case_bool_decide; [exact Hacc |].
  apply NoDup_app. split; [exact Hacc |]. split; [| apply NoDup_singleton].
  intros x Hx ->%list_elem_of_singleton. contradiction.
Qed.

Lemma unique_fold_sublist (l acc : list string) :
  ∃ t, fold_left uniqueStep l acc = acc ++ t ∧ t `sublist_of` l.
Proof.
  revert acc. induction l as [| a l IH]; intros acc.
  - exists []. split; [rewrite List.app_nil_r; reflexivity | constructor].
  - simpl. unfold uniqueStep at 2. case_bool_decide.
    + destruct (IH acc) as (t & -> & Ht). exists t. split; [reflexivity |].
      apply sublist_cons, Ht.
    + destruct (IH (acc ++ [a])) as (t & -> & Ht). exists (a :: t).
      split; [rewrite <- List.app_assoc; reflexivity | apply sublist_skip, Ht].
Qed.

Lemma unique_nonempty (l : list string) : l ≠ [] → unique l ≠ [].
Proof.
  destruct l as [| a l]; [congruence |]. intros _ Hnil.
  assert (Ha : a ∈ unique (a :: l)) by (apply unique_elem; set_solver).
  rewrite Hnil in Ha. set_solver.
Qed.

Lemma mapM_length {A B} (f : A → result B) (l : list A) (bs : list B) :
  mapM f l = Ok bs → length bs = length l.
Proof.
  revert bs. induction l as [| a l IH]; intros bs; simpl.
  - intros [= <-]. reflexivity.
  - destruct (f a) as [b | e]; simpl; [| discriminate].
    destruct (mapM f l) as [bs' | e]; simpl; [| discriminate].
    intros [= <-]. simpl. rewrite (IH bs' eq_refl). reflexivity.
Qed.

Lemma mapM_Ok {A B} (f : A → result B) (g : A → B) (l : list A) :
  (∀ a, a ∈ l → f a = Ok (g a)) → mapM f l = Ok (map g l).
Proof.
  induction l as [| a l IH]; intros H; simpl; [reflexivity |].
  rewrite (H a) by set_solver. simpl. rewrite IH by (intros; apply H; set_solver).
  reflexivity.
Qed.

Lemma mapM_Throw {A B} (f : A → result B) (e : Exn) (l : list A) :
  (∀ a, a ∈ l → (∃ b, f a = Ok b) ∨ f a = Throw e) →
  (∃ a, a ∈ l ∧ f a = Throw e) → mapM f l = Throw e.
Proof.
  induction l as [| a l IH]; intros Hall (x & Hx & Hfx); [set_solver |].
  simpl. destruct (Hall a) as [[b Hb] | Ha]; [set_solver | | rewrite Ha; reflexivity].
  rewrite Hb. simpl. rewrite IH; [reflexivity | intros; apply Hall; set_solver |].
  apply elem_of_cons in Hx as [-> | Hx]; [congruence | eauto].
Qed.

End SegFacts.

(** ** [path.resolve] *)

Module PathFacts.
Import StrFacts SegFacts.

Lemma normalizeStep_skip (allow : bool) (res : list string) :
  Path.normalizeStep allow res "" = res.
Proof. reflexivity. Qed.

Lemma normalizeStep_push (allow : bool) (res : list string) (seg : string) :
  seg ≠ "" → seg ≠ "." → seg ≠ ".." → Path.normalizeStep allow res seg = seg :: res.
Proof.
  intros H0 H1 H2. unfold Path.normalizeStep.
  destruct (String.eqb_spec seg ""); [contradiction |].
  destruct (String.eqb_spec seg "."); [contradiction |].
  destruct (String.eqb_spec seg ".."); [contradiction |]. reflexivity.
Qed.

Lemma normalizeStep_segments (allow : bool) (res : list string) (seg : string) :
  Forall (λ s, s ≠ "") res → Forall (λ s, s ≠ "") (Path.normalizeStep allow res seg).
Proof.
  intros Hres. unfold Path.normalizeStep.
  destruct (String.eqb_spec seg ""); [exact Hres |].
  destruct (String.eqb_spec seg "."); [exact Hres |].
  destruct (String.eqb_spec seg "..").
  - destruct res as [| top res']; [destruct allow; repeat constructor; discriminate |].
    destruct (String.eqb top ".."), allow; try exact Hres.
    + constructor; [discriminate | exact Hres].
    + apply Forall_cons in Hres as [_ Hres]. exact Hres.
    + apply Forall_cons in Hres as [_ Hres]. exact Hres.
  - constructor; assumption.
Qed.

Lemma normalize_segments (allow : bool) (segs res : list string) :
  Forall (λ s, s ≠ "") res →
  Forall (λ s, s ≠ "") (fold_left (Path.normalizeStep allow) segs res).
Proof.
  revert res. induction segs as [| seg segs IH]; intros res Hres; simpl; [exact Hres |].
  apply IH, normalizeStep_segments, Hres.
Qed.

Lemma resolveLoop_acc (rargs : list string) (acc : string) :
  Path.resolveLoop rargs acc
  = (fst (Path.resolveLoop rargs "") +:+ acc, snd (Path.resolveLoop rargs "")).
Proof.
  revert acc. induction rargs as [| p rest IH]; intros acc; simpl; [reflexivity |].
  destruct (String.eqb p ""); [apply IH |].
  destruct (Path.isAbsolute p); simpl.
  - rewrite !app_assoc. reflexivity.
  - rewrite (IH (p +:+ "/" +:+ acc)), (IH (p +:+ "/" +:+ "")). simpl.
    rewrite !app_assoc. reflexivity.
Qed.

Lemma resolveLoop_absolute (cwd : string) (rargs : list string) (acc : string) :
  Path.isAbsolute cwd = true → snd (Path.resolveLoop (rargs ++ [cwd]) acc) = true.
Proof.
  intros Hcwd. revert acc. induction rargs as [| p rest IH]; intros acc; simpl.
  - destruct cwd as [| a cwd]; [discriminate |]. simpl. simpl in Hcwd. rewrite Hcwd.
    reflexivity.
  - destruct (String.eqb p ""); [apply IH |].
    destruct (Path.isAbsolute p); [reflexivity | apply IH].
Qed.

Lemma resolveLoop_head (d : string) (rest : list string) :
  d ≠ "" → ∃ q, fst (Path.resolveLoop (d :: rest) "") = q +:+ String "/" "".
Proof.
  intros Hd. simpl. destruct (String.eqb_spec d ""); [contradiction |].
  destruct (Path.isAbsolute d); simpl.
  - exists d. reflexivity.
  - rewrite resolveLoop_acc. simpl. exists (fst (Path.resolveLoop rest "") +:+ d).
    rewrite !app_assoc. reflexivity.
Qed.

Lemma isAbsolute_no_slash (s : string) :
  JS.lastIndexOf s "/" = -1 → Path.isAbsolute s = false.
Proof.
  destruct s as [| a s]; [reflexivity |]. intros H.
  apply lastIndexOf_absent_cons in H as [Ha _]. exact Ha.
Qed.

Section Child.

Variables (cwd d index : string).
Hypothesis Hcwd : Path.isAbsolute cwd = true.
Hypothesis Hd : d ≠ "".
Hypothesis Hname : index ≠ "" ∧ index ≠ "." ∧ index ≠ "..".
Hypothesis Hplain : JS.lastIndexOf index "/" = -1.

(** Resolving a plain name against a directory appends the name to the
    normalized directory. *)
Lemma resolve_child : Path.resolve cwd [d; index] = directoryOf cwd d +:+ index.
Proof using Hcwd Hd Hname Hplain.
  destruct Hname as (Hi0 & Hi1 & Hi2).
  unfold directoryOf, Path.resolve. simpl rev. simpl app.
  assert (Habs : snd (Path.resolveLoop [d; cwd] "") = true)
    by apply (resolveLoop_absolute cwd [d] "" Hcwd).
  destruct (resolveLoop_head d [cwd] Hd) as [q Hq].
  assert (Hloop : Path.resolveLoop [index; d; cwd] ""
                  = (q +:+ String "/" (index +:+ String "/" ""), true)).
  { change (Path.resolveLoop [index; d; cwd] "")
      with (if String.eqb index "" then Path.resolveLoop [d; cwd] ""
            else if Path.isAbsolute index then (index +:+ "/" +:+ "", true)
                 else Path.resolveLoop [d; cwd] (index +:+ "/" +:+ "")).
    destruct (String.eqb_spec index ""); [contradiction |].
    rewrite (isAbsolute_no_slash index Hplain), resolveLoop_acc, Hq, Habs.
    rewrite app_assoc. reflexivity. }
  rewrite Hloop. destruct (Path.resolveLoop [d; cwd] "") as [p a]. simpl in Hq, Habs.
  subst p a. simpl negb. unfold Path.normalizeString.
  rewrite !split_app_sep, (split_absent "/" index Hplain).
  change (JS.split "/" "") with [""].
  rewrite !fold_left_app. simpl fold_left.
  set (R := fold_left (Path.normalizeStep false) (JS.split "/" q) []).
  rewrite !normalizeStep_skip, (normalizeStep_push false R index Hi0 Hi1 Hi2).
  simpl rev. rewrite join_snoc.
  assert (HR : Forall (λ s, s ≠ "") (rev R)).
  { apply Forall_rev. apply normalize_segments. constructor. }
  destruct (rev R) as [| seg segs] eqn:ER.
  - simpl JS.join. rewrite app_nil_r. simpl String.eqb. reflexivity.
  - assert (Hne : JS.join "/" (seg :: segs) ≠ "") by (apply join_nonempty; [discriminate | exact HR]).
    destruct (String.eqb_spec ("/" +:+ JS.join "/" (seg :: segs)) "/") as [E | _].
    + exfalso. apply Hne. rewrite slash_app in E. congruence.
    + rewrite !app_assoc. reflexivity.
Qed.

End Child.

End PathFacts.

(** ** The path resolver *)

Module ResolverFacts.
Import StrFacts SegFacts PathFacts.

Lemma pathInfoOf_throws (mount url : string) :
  ¬ hasExtension url → pathInfoOf mount url = Throw extensionError.
Proof.
  unfold hasExtension, pathInfoOf. intros H.
  destruct (Z.leb_spec (JS.lastIndexOf url ".") (JS.lastIndexOf url "/")); [reflexivity | lia].
Qed.

Lemma pathInfoOf_returns (mount url : string) :
  hasExtension url →
  ∃ info, pathInfoOf mount url = Ok info
          ∧ (mount = "" ∨ mount = "/" → path info = url).
Proof.
  unfold hasExtension, pathInfoOf. intros H.
  destruct (Z.leb_spec (JS.lastIndexOf url ".") (JS.lastIndexOf url "/")); [lia |].
  destruct (_ <? _); (destruct (JS.truthy mount && negb (String.eqb mount "/")) eqn:Em;
    [ destruct (JS.startsWith _ _);
      (eexists; split; [reflexivity |]; intros [-> | ->]; discriminate)
    | eexists; split; [reflexivity |]; intros _; reflexivity ]).
Qed.

Lemma pathInfoOf_cases (mount url : string) :
  (∃ info, pathInfoOf mount url = Ok info) ∨ pathInfoOf mount url = Throw extensionError.
Proof.
  destruct (Z.lt_ge_cases (JS.lastIndexOf url "/") (JS.lastIndexOf url ".")) as [H | H].
  - left. destruct (pathInfoOf_returns mount url H) as (info & Hinfo & _). eauto.
  - right. apply pathInfoOf_throws. unfold hasExtension. lia.
Qed.

Lemma pathInfoOf_infoOf (mount url : string) :
  hasExtension url → pathInfoOf mount url = Ok (infoOf mount url).
Proof.
  intros H. unfold infoOf.
  destruct (pathInfoOf_returns mount url H) as (info & -> & _). reflexivity.
Qed.

Lemma path_infoOf (mount url : string) :
  hasExtension url → mount = "" ∨ mount = "/" → path (infoOf mount url) = url.
Proof.
  intros H Hm. unfold infoOf.
  destruct (pathInfoOf_returns mount url H) as (info & -> & Hp). auto.
Qed.

Lemma getPathInfos_returns (cwd urlPath mount : string) (indices : list string) :
  (∀ url, url ∈ candidates cwd urlPath indices → hasExtension url) →
  getPathInfos cwd urlPath mount indices
  = Ok (map (infoOf mount) (unique (candidates cwd urlPath indices))).
Proof.
  intros Hall. unfold getPathInfos. apply mapM_Ok.
  intros url Hurl. apply pathInfoOf_infoOf, Hall, unique_elem, Hurl.
Qed.

Lemma getPathInfos_throws (cwd urlPath mount : string) (indices : list string) :
  (∃ url, url ∈ candidates cwd urlPath indices ∧ ¬ hasExtension url) →
  getPathInfos cwd urlPath mount indices = Throw extensionError.
Proof.
  intros (url & Hurl & Hext). unfold getPathInfos. apply mapM_Throw.
  - intros a _. apply pathInfoOf_cases.
  - exists url. split; [apply unique_elem, Hurl | apply pathInfoOf_throws, Hext].
Qed.

Lemma hasExtension_html (s : string) : hasExtension (s +:+ ".html").
Proof.
  unfold hasExtension.
  rewrite (lastIndexOf_app_absent s ".html" "/") by reflexivity.
  rewrite (lastIndexOf_app_present s ".html" ".") by (vm_compute; discriminate).
  pose proof (lastIndexOf_bounds s "/"). change (JS.lastIndexOf ".html" ".") with 0. lia.
Qed.

Lemma isFileName_spec (s : string) :
  isFileName s = true →
  (s ≠ "" ∧ s ≠ "." ∧ s ≠ "..") ∧ JS.lastIndexOf s "/" = -1 ∧ 0 ≤ JS.lastIndexOf s ".".
Proof.
  unfold isFileName. rewrite !andb_true_iff, !negb_true_iff, !String.eqb_neq.
  intros ((((H0 & H1) & H2) & H3) & H4). apply Z.eqb_eq in H3. apply Z.leb_le in H4.
  auto.
Qed.

Lemma hasExtension_child (dir index : string) :
  isFileName index = true → hasExtension (dir +:+ index).
Proof.
  intros H. apply isFileName_spec in H as (_ & Hslash & Hdot). unfold hasExtension.
  rewrite (lastIndexOf_app_absent dir index "/" Hslash).
  rewrite (lastIndexOf_app_present dir index "." Hdot).
  pose proof (lastIndexOf_bounds dir "/"). lia.
Qed.

Lemma truthy_replaceFirstSlashRun (s : string) :
  JS.truthy (JS.replaceFirstSlashRun s) = JS.truthy s.
Proof. destruct s as [| a s]; [reflexivity |]. simpl. destruct (Ascii.eqb a "/"); reflexivity. Qed.

Lemma dropWhileSlash_ends (s : string) :
  s = "" ∨ JS.endsWith s "/" = true →
  JS.dropWhileSlash s = "" ∨ JS.endsWith (JS.dropWhileSlash s) "/" = true.
Proof.
  induction s as [| a s IH]; [auto |]. intros [H | H]; [discriminate |].
  simpl JS.dropWhileSlash. destruct (Ascii.eqb a "/"); [| auto].
  apply IH. rewrite endsWith_cons in H. destruct s; auto.
Qed.

Lemma endsWith_replaceFirstSlashRun (s : string) :
  JS.endsWith s "/" = true → JS.endsWith (JS.replaceFirstSlashRun s) "/" = true.
Proof.
  induction s as [| a s IH]; [discriminate |]. intros H.
  simpl JS.replaceFirstSlashRun. destruct (Ascii.eqb a "/") eqn:Ea.
  - rewrite endsWith_cons. rewrite endsWith_cons in H.
    destruct (dropWhileSlash_ends s) as [-> | Hd]; [destruct s; auto | reflexivity |].
    destruct (JS.dropWhileSlash s); [reflexivity | exact Hd].
  - rewrite endsWith_cons in H. destruct s as [| b s]; [congruence |].
    specialize (IH H). rewrite endsWith_cons.
    destruct (JS.replaceFirstSlashRun (String b s)); [discriminate | exact IH].
Qed.

Lemma candidates_directory (cwd urlPath : string) (indices : list string) :
  urlPath = "" ∨ JS.endsWith urlPath "/" = true →
  candidates cwd urlPath indices
  = map (λ index, Path.resolve cwd [directoryPath urlPath; index]) indices.
Proof.
  intros Hdir. unfold candidates, directoryPath.
  set (u := JS.replaceFirstSlashRun urlPath).
  assert (Hu : u = "" ∨ JS.endsWith u "/" = true).
  { destruct Hdir as [-> | H]; [left; reflexivity | right].
    apply endsWith_replaceFirstSlashRun, H. }
  assert (Hle : JS.lastIndexOf u "." ≤ JS.lastIndexOf u "/").
  { destruct Hu as [-> | H]; [reflexivity |].
    rewrite (endsWith_lastIndexOf u "/" H). pose proof (lastIndexOf_bounds u "."). lia. }
  destruct (Z.leb_spec (JS.lastIndexOf u ".") (JS.lastIndexOf u "/")); [| lia].
  destruct Hu as [-> | ->]; [reflexivity |]. rewrite orb_true_r. reflexivity.
Qed.

Lemma directoryPath_nonempty (urlPath : string) : directoryPath urlPath ≠ "".
Proof.
  unfold directoryPath. destruct (JS.truthy _) eqn:E; [| discriminate].
  apply truthy_spec, E.
Qed.

Lemma candidates_fileNames (cwd urlPath : string) (indices : list string) :
  Path.isAbsolute cwd = true →
  urlPath = "" ∨ JS.endsWith urlPath "/" = true →
  Forall (λ index, isFileName index = true) indices →
  candidates cwd urlPath indices
  = map (λ index, directoryOf cwd (directoryPath urlPath) +:+ index) indices.
Proof.
  intros Hcwd Hdir Hnames. rewrite (candidates_directory cwd urlPath indices Hdir).
  apply map_ext_Forall. eapply Forall_impl; [exact Hnames |]. simpl.
  intros index H. apply isFileName_spec in H as (Hn & Hslash & _).
  apply resolve_child; auto using directoryPath_nonempty.
Qed.

Lemma candidates_extension (cwd urlPath : string) (indices : list string) :
  let u := JS.replaceFirstSlashRun urlPath in
  u ≠ "" → JS.endsWith u "/" = false →
  ∀ url, url ∈ candidates cwd urlPath indices → hasExtension url.
Proof.
  intros u Hne Hends url. unfold candidates. fold u.
  apply truthy_spec in Hne. rewrite Hne, Hends. simpl.
  destruct (Z.leb_spec (JS.lastIndexOf u ".") (JS.lastIndexOf u "/")) as [Hle | Hlt].
  - intros ->%list_elem_of_singleton. apply hasExtension_html.
  - intros ->%list_elem_of_singleton. exact Hlt.
Qed.

End ResolverFacts.

(** ** Properties of [getPathInfos] *)

Import StrFacts SegFacts PathFacts ResolverFacts.

Lemma candidates_directory_index (cwd urlPath : string) (indices : list string) :
  Path.isAbsolute cwd = true →
  Forall (λ index, isFileName index = true) indices →
  ∀ url, url ∈ candidates cwd urlPath indices → hasExtension url.
Proof.
  intros Hcwd Hnames url.
  set (u := JS.replaceFirstSlashRun urlPath).
  destruct (decide (u = "")) as [Hu | Hu];
    [| destruct (JS.endsWith u "/") eqn:Hends;
       [| apply (candidates_extension cwd urlPath indices Hu Hends) ] ].
  - assert (Hempty : urlPath = "").
    { destruct urlPath as [| a s]; [reflexivity |]. subst u. simpl in Hu.
      destruct (Ascii.eqb a "/"); discriminate. }
    rewrite (candidates_fileNames cwd urlPath indices Hcwd (or_introl Hempty) Hnames).
    intros (index & -> & Hin)%list_elem_of_fmap.
    apply hasExtension_child. rewrite Forall_forall in Hnames. apply Hnames, Hin.
  - unfold candidates. fold u.
    assert (Hle : JS.lastIndexOf u "." ≤ JS.lastIndexOf u "/").
    { rewrite (endsWith_lastIndexOf u "/" Hends). pose proof (lastIndexOf_bounds u "."). lia. }
    destruct (Z.leb_spec (JS.lastIndexOf u ".") (JS.lastIndexOf u "/")); [| lia].
    rewrite Hends, orb_true_r. apply truthy_spec in Hu. rewrite Hu.
    intros (index & -> & Hin)%list_elem_of_fmap.
    rewrite Forall_forall in Hnames. specialize (Hnames index Hin).
    pose proof (isFileName_spec index Hnames) as (Hn & Hslash & _).
    rewrite resolve_child; [apply hasExtension_child, Hnames | auto ..].
    apply truthy_spec, Hu.
Qed.

(** C6. [getPathInfos] does not collapse a run of slashes that comes after
    the first slash of the path: on [/a//b.html] the doubled slash is kept
    in [path] and [relPath], whereas the path with every run collapsed,
    [/a/b.html], gives the descriptor without it. *)
Theorem getPathInfos_later_slash_run (cwd mount : string) :
  mount = "" ∨ mount = "/" →
  JS.collapseSlashRuns "/a//b.html" = "/a/b.html"
  ∧ getPathInfos cwd "/a//b.html" mount ["index.html"]
    = Ok [ {| path := "/a//b.html"; name := "b"; selector := ""; ext := "html";
              relPath := "/a//b" |} ]
  ∧ getPathInfos cwd (JS.collapseSlashRuns "/a//b.html") mount ["index.html"]
    = Ok [ {| path := "/a/b.html"; name := "b"; selector := ""; ext := "html";
              relPath := "/a/b" |} ]
  ∧ getPathInfos cwd "/a//b.html" mount ["index.html"]
    ≠ getPathInfos cwd (JS.collapseSlashRuns "/a//b.html") mount ["index.html"].
Proof.
  intros [-> | ->]; (split; [reflexivity |]); (split; [reflexivity |]);
    (split; [reflexivity | vm_compute; discriminate]).
Qed.

Lemma getPathInfos_later_slash_run_witness :
  getPathInfos "/" "/a//b.html" "" ["index.html"]
  ≠ getPathInfos "/" (JS.collapseSlashRuns "/a//b.html") "" ["index.html"].
Proof.
  exact (proj2 (proj2 (proj2 (getPathInfos_later_slash_run "/" "" (or_introl eq_refl))))).
Defined.

(** C7, counterexample. An index name listed twice gives one descriptor,
    not two, and so do two names of one file; an index name without an
    extension makes [getPathInfos] throw; under the mount [/docs] the
    directory [/docs/] is no prefix of the [path], and neither is a
    directory that is not normalized, nor the directory of an index name
    that leaves it. *)
Lemma getPathInfos_duplicate_index :
  JS.endsWith "/" "/" = true
  ∧ getPathInfos "/" "/" "" ["index.html"; "index.html"]
    = Ok [ {| path := "/index.html"; name := "index"; selector := ""; ext := "html";
              relPath := "/index" |} ]
  ∧ length ["index.html"; "index.html"] = 2%nat
  ∧ getPathInfos "/" "/" "" ["index.html"; "./index.html"]
    = Ok [ {| path := "/index.html"; name := "index"; selector := ""; ext := "html";
              relPath := "/index" |} ]
  ∧ getPathInfos "/" "/" "" ["README"] = Throw extensionError
  ∧ (getPathInfos "/" "/docs/" "/docs" ["index.html"]
     = Ok [ {| path := "/index.html"; name := "index"; selector := ""; ext := "html";
               relPath := "/index" |} ]
     ∧ JS.startsWith "/index.html" "/docs/" = false)
  ∧ (getPathInfos "/" "/a/../b/" "" ["index.html"]
     = Ok [ {| path := "/b/index.html"; name := "index"; selector := ""; ext := "html";
               relPath := "/b/index" |} ]
     ∧ JS.startsWith "/b/index.html" "/a/../b/" = false)
  ∧ (getPathInfos "/" "/docs/" "" ["../index.html"]
     = Ok [ {| path := "/index.html"; name := "index"; selector := ""; ext := "html";
               relPath := "/index" |} ]
     ∧ JS.startsWith "/index.html" "/docs/" = false).
Proof. repeat split; reflexivity. Qed.

Lemma sublist_same_length {A} (l1 l2 : list A) :
  l1 `sublist_of` l2 → length l1 = length l2 → l1 = l2.
Proof.
  induction 1 as [| x l1 l2 Hsub IH | x l1 l2 Hsub IH]; intros Hlen.
  - reflexivity.
  - f_equal. apply IH. simpl in Hlen. lia.
  - apply sublist_length in Hsub. simpl in Hlen. lia.
Qed.

Lemma unique_length (l : list string) :
  (length (unique l) ≤ length l)%nat ∧ (length (unique l) = length l ↔ NoDup l).
Proof.
  assert (Hsub : unique l `sublist_of` l).
  { unfold unique. destruct (unique_fold_sublist l []) as (t & -> & Ht). exact Ht. }
  split; [apply sublist_length, Hsub |]. split.
  - intros Hlen. rewrite <- (sublist_same_length _ _ Hsub Hlen).
    apply unique_fold_NoDup_inv, NoDup_nil_2.
  - intros Hnd. rewrite (unique_NoDup l Hnd). reflexivity.
Qed.

(** C7, amended. For a path that ends in a slash (or is empty), the
    candidates of [getPathInfos] are [path.resolve(dir, index)], one per
    index name in the given order, [dir] being the path after its first
    run of slashes is collapsed, or [/]. If a candidate has no extension,
    [getPathInfos] throws. Otherwise, whatever the mount, it returns the
    path infos of the distinct candidates in the order of their first
    occurrence: never more than there are index names, and exactly as many
    if and only if no two candidates are equal; then the [i]-th descriptor
    is the path info of the [i]-th candidate and, when the mount is empty
    or the root, has that candidate as its [path]. When the working
    directory is absolute and the index names are plain file names with an
    extension, every candidate has an extension and is the normalized
    directory followed by the index name, and distinct names give distinct
    candidates; so, for distinct such names and a mount that is empty or
    the root, the request path is a prefix of every [path] whenever it is
    already normalized (or empty). *)
Theorem getPathInfos_directory_index (cwd urlPath mount : string) (indices : list string) :
  urlPath = "" ∨ JS.endsWith urlPath "/" = true →
  let candidateOf index := Path.resolve cwd [directoryPath urlPath; index] in
  let dir := directoryOf cwd (directoryPath urlPath) in
  candidates cwd urlPath indices = map candidateOf indices
  ∧ ((∃ index, index ∈ indices ∧ ¬ hasExtension (candidateOf index)) →
     getPathInfos cwd urlPath mount indices = Throw extensionError)
  ∧ ((∀ index, index ∈ indices → hasExtension (candidateOf index)) →
     ∃ infos,
       getPathInfos cwd urlPath mount indices = Ok infos
       ∧ infos = map (infoOf mount) (unique (map candidateOf indices))
       ∧ (length infos ≤ length indices)%nat
       ∧ (length infos = length indices ↔ NoDup (map candidateOf indices))
       ∧ (NoDup (map candidateOf indices) →
          Forall2 (λ index info, pathInfoOf mount (candidateOf index) = Ok info)
            indices infos)
       ∧ (NoDup (map candidateOf indices) → mount = "" ∨ mount = "/" →
          map path infos = map candidateOf indices))
  ∧ (Path.isAbsolute cwd = true →
     Forall (λ index, isFileName index = true) indices →
     (∀ index, index ∈ indices →
        candidateOf index = dir +:+ index ∧ hasExtension (candidateOf index))
     ∧ (NoDup indices → NoDup (map candidateOf indices)))
  ∧ (Path.isAbsolute cwd = true →
     Forall (λ index, isFileName index = true) indices →
     NoDup indices →
     mount = "" ∨ mount = "/" →
     urlPath = "" ∨ dir = urlPath →
     ∃ infos,
       getPathInfos cwd urlPath mount indices = Ok infos
       ∧ length infos = length indices
       ∧ map path infos = map (λ index, dir +:+ index) indices
       ∧ Forall (λ info, JS.startsWith (path info) urlPath = true) infos).
Proof.
  intros Hdir candidateOf dir.
  pose proof (candidates_directory cwd urlPath indices Hdir) as Hcand.
  fold candidateOf in Hcand.
  assert (Hall : (∀ index, index ∈ indices → hasExtension (candidateOf index)) →
                 ∀ url, url ∈ candidates cwd urlPath indices → hasExtension url).
  { intros H url. rewrite Hcand. intros (index & -> & Hin)%list_elem_of_fmap. auto. }
  assert (Hnames : Path.isAbsolute cwd = true →
                   Forall (λ index, isFileName index = true) indices →
                   (∀ index, index ∈ indices →
                      candidateOf index = dir +:+ index ∧ hasExtension (candidateOf index))
                   ∧ (NoDup indices → NoDup (map candidateOf indices))).
  { intros Hcwd Hfiles. rewrite Forall_forall in Hfiles.
    assert (Hchild : ∀ index, index ∈ indices → candidateOf index = dir +:+ index).
    { intros index Hin. pose proof (isFileName_spec index (Hfiles index Hin)) as (Hn & Hs & _).
      apply resolve_child; auto using directoryPath_nonempty. }
    split.
    - intros index Hin. split; [apply Hchild, Hin |].
      rewrite (Hchild index Hin). apply hasExtension_child, Hfiles, Hin.
    - intros Hnd.
      assert (Heq : map candidateOf indices = map (λ index, dir +:+ index) indices)
        by (apply map_ext_Forall, Forall_forall; exact Hchild).
      rewrite Heq. apply (NoDup_fmap_2 _). exact Hnd. }
  assert (Hreturns : (∀ index, index ∈ indices → hasExtension (candidateOf index)) →
            ∃ infos,
              getPathInfos cwd urlPath mount indices = Ok infos
              ∧ infos = map (infoOf mount) (unique (map candidateOf indices))
              ∧ (length infos ≤ length indices)%nat
              ∧ (length infos = length indices ↔ NoDup (map candidateOf indices))
              ∧ (NoDup (map candidateOf indices) →
                 Forall2 (λ index info, pathInfoOf mount (candidateOf index) = Ok info)
                   indices infos)
              ∧ (NoDup (map candidateOf indices) → mount = "" ∨ mount = "/" →
                 map path infos = map candidateOf indices)).
  { intros Hext. eexists. split.
    { rewrite (getPathInfos_returns cwd urlPath mount indices (Hall Hext)), Hcand.
      reflexivity. }
    split; [reflexivity |].
    destruct (unique_length (map candidateOf indices)) as [Hle Hiff].
    rewrite !length_map in *. split; [exact Hle |]. split; [exact Hiff |]. split.
    - intros Hnd. rewrite (unique_NoDup _ Hnd).
      clear Hle Hiff Hnd Hcand Hall Hnames.
      induction indices as [| index indices IH]; constructor.
      + apply pathInfoOf_infoOf, Hext, elem_of_cons. auto.
      + apply IH. intros i Hi. apply Hext, elem_of_cons. auto.
    - intros Hnd Hmount. rewrite (unique_NoDup _ Hnd), !map_map.
      apply map_ext_Forall, Forall_forall. intros index Hin.
      apply path_infoOf; [apply Hext, Hin | exact Hmount]. }
  split; [exact Hcand |]. split.
  { intros (index & Hin & Hno). apply getPathInfos_throws. exists (candidateOf index).
    split; [rewrite Hcand; apply list_elem_of_fmap; eauto | exact Hno]. }
  split; [exact Hreturns |]. split; [exact Hnames |].
  intros Hcwd Hfiles Hnd Hmount Hprefix.
  destruct (Hnames Hcwd Hfiles) as [Hchild Hdistinct].
  destruct (Hreturns (λ index Hin, proj2 (Hchild index Hin)))
    as (infos & Hinfos & _ & _ & Hlen & _ & Hpaths).
  assert (Hp : map path infos = map (λ index, dir +:+ index) indices).
  { rewrite (Hpaths (Hdistinct Hnd) Hmount).
    apply map_ext_Forall, Forall_forall. intros index Hin. apply Hchild, Hin. }
  exists infos. split; [exact Hinfos |].
  split; [apply Hlen, Hdistinct, Hnd |]. split; [exact Hp |].
  apply Forall_forall. intros info Hinfo.
  assert (Hin : path info ∈ map path infos) by (apply list_elem_of_fmap; eauto).
  rewrite Hp in Hin. apply list_elem_of_fmap in Hin as (index & -> & _).
  unfold JS.startsWith. destruct Hprefix as [Hempty | Hnorm].
  - rewrite Hempty. destruct (dir +:+ index); reflexivity.
  - rewrite <- Hnorm. apply prefix_app.
Qed.

Lemma getPathInfos_directory_index_witness :
  JS.endsWith "/docs/" "/" = true
  ∧ (∃ infos,
       getPathInfos "/" "/docs/" "/docs" ["index.html"; "README.md"] = Ok infos
       ∧ length infos = 2%nat
       ∧ Forall2 (λ index info,
                    pathInfoOf "/docs" (Path.resolve "/" ["/docs/"; index]) = Ok info)
           ["index.html"; "README.md"] infos)
  ∧ (∃ infos,
       getPathInfos "/" "/docs/" "" ["index.html"; "README.md"] = Ok infos
       ∧ map path infos = ["/docs/index.html"; "/docs/README.md"]
       ∧ Forall (λ info, JS.startsWith (path info) "/docs/" = true) infos).
Proof.
  assert (Hnd : NoDup ["index.html"; "README.md"]).
  { apply NoDup_cons. split; [| apply NoDup_singleton].
    intros H%list_elem_of_singleton. discriminate. }
  assert (Hnames : Forall (λ index, isFileName index = true) ["index.html"; "README.md"])
    by (repeat constructor).
  split; [reflexivity |]. split.
  - destruct (getPathInfos_directory_index "/" "/docs/" "/docs" ["index.html"; "README.md"]
                (or_intror eq_refl)) as (_ & _ & Hreturns & Hfiles & _).
    destruct (Hfiles eq_refl Hnames) as [Hchild Hdistinct].
    destruct (Hreturns (λ index Hin, proj2 (Hchild index Hin)))
      as (infos & Hinfos & _ & _ & Hlen & Horder & _).
    exists infos. split; [exact Hinfos |].
    split; [apply Hlen, Hdistinct, Hnd | apply Horder, Hdistinct, Hnd].
  - destruct (getPathInfos_directory_index "/" "/docs/" "" ["index.html"; "README.md"]
                (or_intror eq_refl)) as (_ & _ & _ & _ & Hprefix).
    destruct (Hprefix eq_refl Hnames Hnd (or_introl eq_refl) (or_intror eq_refl))
      as (infos & Hinfos & _ & Hpaths & Hstarts).
    exists infos. split; [exact Hinfos |]. split; [exact Hpaths | exact Hstarts].
Defined.

(** C9, counterexample. The index name [README] has no extension: its
    candidate [/README] has no dot after its last slash, and [getPathInfos]
    throws. *)
Lemma getPathInfos_index_without_extension :
  "/README" ∈ candidates "/" "/" ["README"]
  ∧ ¬ hasExtension "/README"
  ∧ getPathInfos "/" "/" "" ["README"] = Throw extensionError.
Proof.
  split; [apply list_elem_of_singleton; reflexivity |].
  split; [vm_compute; discriminate | reflexivity].
Qed.

(** C9, amended. The candidate of a path that does not end in a slash
    always has its last dot after its last slash, and so does every
    directory-index candidate when the index names are plain file names
    with an extension. [getPathInfos] throws its fail-fast error exactly
    when some candidate has no extension, and returns in every other
    case. *)
Theorem getPathInfos_extension_guard (cwd urlPath mount : string) (indices : list string) :
  let u := JS.replaceFirstSlashRun urlPath in
  (u ≠ "" → JS.endsWith u "/" = false →
   ∀ url, url ∈ candidates cwd urlPath indices → hasExtension url)
  ∧ (Path.isAbsolute cwd = true → Forall (λ index, isFileName index = true) indices →
     ∀ url, url ∈ candidates cwd urlPath indices → hasExtension url)
  ∧ ((∃ url, url ∈ candidates cwd urlPath indices ∧ ¬ hasExtension url)
     ↔ getPathInfos cwd urlPath mount indices = Throw extensionError)
  ∧ ((∀ url, url ∈ candidates cwd urlPath indices → hasExtension url)
     ↔ ∃ infos, getPathInfos cwd urlPath mount indices = Ok infos).
Proof.
  intros u.
  split; [apply candidates_extension |].
  split; [apply candidates_directory_index |].
  destruct (decide (Forall hasExtension (candidates cwd urlPath indices))) as [Hall | Hex].
  - rewrite Forall_forall in Hall.
    pose proof (getPathInfos_returns cwd urlPath mount indices Hall) as Hok.
    split; split.
    + intros (url & Hurl & Hno). exfalso. apply Hno, Hall, Hurl.
    + rewrite Hok. discriminate.
    + eauto.
    + intros _. exact Hall.
  - apply not_Forall_Exists in Hex; [| apply _]. apply Exists_exists in Hex.
    assert (Hno : ∃ url, url ∈ candidates cwd urlPath indices ∧ ¬ hasExtension url).
    { destruct Hex as (url & Hurl & Hno). exists url. split; [exact Hurl | exact Hno]. }
    pose proof (getPathInfos_throws cwd urlPath mount indices Hno) as Hthrow.
    split; split.
    + intros _. exact Hthrow.
    + intros _. exact Hno.
    + intros Hall. destruct Hno as (url & Hurl & Hno'). exfalso. apply Hno', Hall, Hurl.
    + rewrite Hthrow. intros [infos Hinfos]. discriminate.
Qed.

Lemma getPathInfos_extension_guard_witness :
  JS.replaceFirstSlashRun "/docs/page" ≠ ""
  ∧ JS.endsWith (JS.replaceFirstSlashRun "/docs/page") "/" = false
  ∧ "/docs/page.html" ∈ candidates "/" "/docs/page" ["index.html"]
  ∧ hasExtension "/docs/page.html".
Proof.
  assert (Hne : JS.replaceFirstSlashRun "/docs/page" ≠ "") by discriminate.
  assert (Hin : "/docs/page.html" ∈ candidates "/" "/docs/page" ["index.html"])
    by (apply list_elem_of_singleton; reflexivity).
  split; [exact Hne |]. split; [reflexivity |]. split; [exact Hin |].
  exact (proj1 (getPathInfos_extension_guard "/" "/docs/page" "" ["index.html"])
           Hne eq_refl "/docs/page.html" Hin).
Defined.

(** ** Properties of [fetchers] *)

Lemma candidates_nonempty (cwd urlPath : string) (indices : list string) :
  indices ≠ [] → candidates cwd urlPath indices ≠ [].
Proof.
  intros Hne. unfold candidates.
  destruct (_ <=? _); [| discriminate].
  destruct (_ || _); [| discriminate].
  destruct indices; [contradiction | discriminate].
Qed.

Lemma pathInfosOf_nonempty (cwd : string) (params : Params.t) (infos : list PathInfo) :
  pathInfosOf cwd params = Ok infos → infos ≠ [].
Proof.
  unfold pathInfosOf, getPathInfos. intros H Hnil. apply mapM_length in H.
  rewrite Hnil in H. symmetry in H. apply length_zero_iff_nil in H.
  revert H. apply unique_nonempty, candidates_nonempty, split_nonempty.
Qed.

Section PlanBuilder.

Variable cwd : string.
Variable service : nat → Invoke.t → Outcome.
Variable params : Params.t.

Lemma staticRef_typed : stringOrFalsy (prop (staticOptsOf params) "ref").
Proof.
  unfold prop. destruct (staticOptsOf_coordinate params) as (_ & _ & -> & _).
  apply stringOrFalsy_ofOpt.
Qed.

Lemma contentRef_typed : stringOrFalsy (prop (contentOptsOf params) "ref").
Proof.
  unfold prop. destruct (contentOptsOf_coordinate params) as (_ & _ & -> & _).
  apply stringOrFalsy_ofOpt.
Qed.

Lemma resolvers_shared (w : World) :
  equalRepository (staticOptsOf params) (contentOptsOf params) = true →
  ∃ p w',
    resolveRef service (staticOptsOf params) (wskOptsOf params) (Params.__ow_logger params) w
    = (p, w')
    ∧ resolvers service (staticOptsOf params) (contentOptsOf params) (wskOptsOf params)
        (Params.__ow_logger params) w
      = (p, p, w')
    ∧ resolutions w' = resolutions w ++ [staticOptsOf params]
    ∧ invocations w'
      = invocations w ++ requestsOf (staticOptsOf params) (wskOptsOf params)
    ∧ settlement (Params.__ow_logger params) p.
Proof.
  intros Heq. unfold resolvers. rewrite Heq.
  destruct (resolveRef_settled service (staticOptsOf params) (wskOptsOf params)
              (Params.__ow_logger params) w staticRef_typed)
    as (p & w' & Hp & Htrace & Hinv & Hset).
  exists p, w'. rewrite Hp. auto.
Qed.

Lemma resolvers_independent (w : World) :
  equalRepository (staticOptsOf params) (contentOptsOf params) = false →
  ∃ sp cp w1 w',
    resolveRef service (staticOptsOf params) (wskOptsOf params) (Params.__ow_logger params) w
    = (sp, w1)
    ∧ resolveRef service (contentOptsOf params) (wskOptsOf params)
        (Params.__ow_logger params) w1
      = (cp, w')
    ∧ resolvers service (staticOptsOf params) (contentOptsOf params) (wskOptsOf params)
        (Params.__ow_logger params) w
      = (sp, cp, w')
    ∧ resolutions w' = resolutions w ++ [staticOptsOf params; contentOptsOf params]
    ∧ invocations w'
      = invocations w ++ requestsOf (staticOptsOf params) (wskOptsOf params)
        ++ requestsOf (contentOptsOf params) (wskOptsOf params)
    ∧ settlement (Params.__ow_logger params) sp
    ∧ settlement (Params.__ow_logger params) cp.
Proof.
  intros Hne. unfold resolvers. rewrite Hne.
  destruct (resolveRef_settled service (staticOptsOf params) (wskOptsOf params)
              (Params.__ow_logger params) w staticRef_typed)
    as (sp & w1 & Hsp & Htrace1 & Hinv1 & Hset1).
  destruct (resolveRef_settled service (contentOptsOf params) (wskOptsOf params)
              (Params.__ow_logger params) w1 contentRef_typed)
    as (cp & w' & Hcp & Htrace2 & Hinv2 & Hset2).
  exists sp, cp, w1, w'.
  rewrite Hsp, Hcp, Htrace2, Htrace1, Hinv2, Hinv1, <- !List.app_assoc. auto 10.
Qed.

Lemma resolvers_settled (w : World) :
  ∃ sp cp w',
    resolvers service (staticOptsOf params) (contentOptsOf params) (wskOptsOf params)
      (Params.__ow_logger params) w
    = (sp, cp, w')
    ∧ settlement (Params.__ow_logger params) sp
    ∧ settlement (Params.__ow_logger params) cp.
Proof.
  destruct (equalRepository (staticOptsOf params) (contentOptsOf params)) eqn:E.
  - destruct (resolvers_shared w E) as (p & w' & _ & H & _ & _ & Hp). eauto 10.
  - destruct (resolvers_independent w E)
      as (sp & cp & w1 & w' & _ & _ & H & _ & _ & H1 & H2).
    eauto 10.
Qed.

Lemma settlement_logger (log : option Logger) (p : promise jsobj) :
  log ≠ None → settlement log p → ∃ v, p = Fulfilled v ∧ onlyRef v.
Proof.
  intros Hlog Hp. destruct p as [v | e].
  - exists v. auto.
  - destruct Hp as [Hp _]. contradiction.
Qed.

(** With a logger, both resolutions fulfil. *)
Lemma resolvers_fulfilled (w : World) :
  Params.__ow_logger params ≠ None →
  ∃ sr cr w',
    resolvers service (staticOptsOf params) (contentOptsOf params) (wskOptsOf params)
      (Params.__ow_logger params) w
    = (Fulfilled sr, Fulfilled cr, w')
    ∧ onlyRef sr ∧ onlyRef cr.
Proof.
  intros Hlog. destruct (resolvers_settled w) as (sp & cp & w' & Hres & Hsp & Hcp).
  destruct (settlement_logger _ sp Hlog Hsp) as (sr & -> & Hsr).
  destruct (settlement_logger _ cp Hlog Hcp) as (cr & -> & Hcr).
  eauto 10.
Qed.

Lemma fetchers_returns (w w' : World) (infos : list PathInfo) (sp cp : promise jsobj) :
  pathInfosOf cwd params = Ok infos →
  resolvers service (staticOptsOf params) (contentOptsOf params) (wskOptsOf params)
    (Params.__ow_logger params) w
  = (sp, cp, w') →
  let contentPromise := updateOpts (contentOptsOf params) cp in
  let staticPromise := updateOpts (staticOptsOf params) sp in
  let baseTasks :=
    fetchrawtasks infos params contentPromise (wskOptsOf params)
    ++ fetchactiontasks infos (wskOptsOf params) contentPromise params
    ++ fetchfallbacktasks infos (wskOptsOf params) contentPromise staticPromise in
  ∃ tasks404,
    fetch404tasks infos (wskOptsOf params) contentPromise staticPromise (length baseTasks)
    = Ok tasks404
    ∧ fetchers cwd service params w = (Ok {| base := baseTasks; fetch404 := tasks404 |}, w').
Proof.
  intros Hinfos Hres contentPromise staticPromise baseTasks.
  pose proof (pathInfosOf_nonempty cwd params infos Hinfos) as Hne.
  unfold fetchers. unfold pathInfosOf in Hinfos. rewrite Hinfos, Hres.
  fold contentPromise staticPromise. fold baseTasks.
  destruct infos as [| info0 infos']; [contradiction |].
  unfold fetch404tasks. destruct (String.eqb (ext info0) "html");
    eexists; split; reflexivity.
Qed.

End PlanBuilder.

Section Tasks.

Variable params : Params.t.
Variables (cr sr : jsobj).
Hypothesis Hcr : onlyRef cr.
Hypothesis Hsr : onlyRef sr.

Lemma resolved_lookup (o r : jsobj) (k : string) :
  onlyRef r → k ≠ "ref" → k ≠ "branch" → assign o r !! k = o !! k.
Proof. intros Hr H1 H2. apply lookup_assign_None, Hr; assumption. Qed.

Lemma cOpts_lookup :
  (assign (contentOptsOf params) cr) !! "owner" = Some (ofOpt (Params.content_owner params))
  ∧ (assign (contentOptsOf params) cr) !! "repo" = Some (ofOpt (Params.content_repo params))
  ∧ (assign (contentOptsOf params) cr) !! "package" = Some (ofOpt (Params.content_package params))
  ∧ (assign (contentOptsOf params) cr) !! "path" = None.
Proof using Hcr.
  rewrite !(resolved_lookup _ cr) by (exact Hcr || discriminate).
  destruct (contentOptsOf_coordinate params) as (-> & -> & _ & -> & ->). auto.
Qed.

Lemma sOpts_lookup :
  (assign (staticOptsOf params) sr) !! "owner" = Some (ofOpt (Params.static_owner params))
  ∧ (assign (staticOptsOf params) sr) !! "repo" = Some (ofOpt (Params.static_repo params))
  ∧ (assign (staticOptsOf params) sr) !! "path" = None.
Proof using Hsr.
  rewrite !(resolved_lookup _ sr) by (exact Hsr || discriminate).
  destruct (staticOptsOf_coordinate params) as (-> & -> & _ & ->). auto.
Qed.

(** The [path], [owner] and [repo] of [{...literal, ...wskOpts, ...opts}]. *)
Lemma task_params (literal opts : jsobj) (owner repo : jsval) (pth : string) :
  literal !! "path" = Some (JStr pth) →
  opts !! "owner" = Some owner → opts !! "repo" = Some repo → opts !! "path" = None →
  prop (assign (assign literal (wskOptsOf params)) opts) "path" = JStr pth
  ∧ prop (assign (assign literal (wskOptsOf params)) opts) "owner" = owner
  ∧ prop (assign (assign literal (wskOptsOf params)) opts) "repo" = repo.
Proof.
  intros Hlit Ho Hr Hp. rewrite !prop_assign, Ho, Hr, Hp.
  rewrite (wskOptsOf_keys params "path") by discriminate.
  unfold prop. rewrite Hlit. auto.
Qed.

Lemma fetchrawtasks_spec (infos : list PathInfo) :
  Forall2 (λ info task,
             fetchesFrom defaultResolver (Params.content_owner params)
               (Params.content_repo params) (path info) task)
          infos (fetchrawtasks infos params (Fulfilled (assign (contentOptsOf params) cr)) (wskOptsOf params)).
Proof using Hcr.
  destruct cOpts_lookup as (Ho & Hr & _ & Hp).
  induction infos as [| info infos IH]; constructor; [| exact IH].
  eexists. split; [reflexivity |]. do 3 (split; [reflexivity |]).
  apply task_params; auto.
Qed.

Lemma fetchactiontasks_spec (infos : list PathInfo) :
  Forall2 (invokesPipeline params)
          infos (fetchactiontasks infos (wskOptsOf params) (Fulfilled (assign (contentOptsOf params) cr)) params).
Proof using Hcr.
  destruct cOpts_lookup as (Ho & Hr & Hpkg & Hp).
  induction infos as [| info infos IH]; constructor; [| exact IH].
  eexists. split; [reflexivity |]. split.
  - cbn [Task.name]. unfold prop. rewrite Hpkg. simpl default.
    rewrite truthy_ofOpt. reflexivity.
  - do 2 (split; [reflexivity |]). apply task_params; auto.
Qed.

Lemma fetchfallbacktasks_spec (infos : list PathInfo) :
  Forall2 (λ info task,
             fetchesFrom defaultResolver (Params.static_owner params)
               (Params.static_repo params) (path info) task)
          infos (fetchfallbacktasks infos (wskOptsOf params) (Fulfilled (assign (contentOptsOf params) cr))
                   (Fulfilled (assign (staticOptsOf params) sr))).
Proof using Hsr.
  destruct sOpts_lookup as (Ho & Hr & Hp).
  induction infos as [| info infos IH]; constructor; [| exact IH].
  eexists. split; [reflexivity |]. do 3 (split; [reflexivity |]).
  apply task_params; auto.
Qed.

Lemma fetch404tasks_spec (infos : list PathInfo) (info0 : PathInfo) (idxOffset : nat)
    (tasks404 : list (promise Task.t)) :
  head infos = Some info0 →
  fetch404tasks infos (wskOptsOf params) (Fulfilled (assign (contentOptsOf params) cr)) (Fulfilled (assign (staticOptsOf params) sr)) idxOffset
  = Ok tasks404 →
  (ext info0 ≠ "html" → tasks404 = [])
  ∧ (ext info0 = "html" →
     ∃ t1 t2, tasks404 = [t1; t2]
       ∧ fetchesFrom errorPageResolver (Params.content_owner params)
           (Params.content_repo params) "/404.html" t1
       ∧ fetchesFrom errorPageResolver (Params.static_owner params)
           (Params.static_repo params) "/404.html" t2)
  ∧ (∀ task, task ∈ tasks404 →
       ∃ d, task = Fulfilled d ∧ Task.idxOffset d = Some idxOffset).
Proof using Hcr Hsr.
  destruct cOpts_lookup as (Hco & Hcrp & _ & Hcp).
  destruct sOpts_lookup as (Hso & Hsrp & Hsp).
  destruct infos as [| i0 infos']; [discriminate |]. intros [= ->].
  unfold fetch404tasks. destruct (String.eqb_spec (ext info0) "html") as [Hext | Hext].
  - intros [= <-]. split; [contradiction |]. split.
    + intros _. eexists _, _. split; [reflexivity |].
      split; (eexists; split; [reflexivity |]; do 3 (split; [reflexivity |]);
              apply task_params; auto).
    + intros task Htask. apply elem_of_cons in Htask as [-> | Htask];
        [eexists; split; reflexivity |].
      apply list_elem_of_singleton in Htask as ->. eexists; split; reflexivity.
  - intros [= <-]. split; [reflexivity |]. split; [contradiction |].
    intros task Htask. apply elem_of_nil in Htask. contradiction.
Qed.

Lemma baseOf_idxOffset (infos : list PathInfo) (task : promise Task.t) :
  task ∈ baseOf params infos (assign (contentOptsOf params) cr) (assign (staticOptsOf params) sr) →
  ∃ d, task = Fulfilled d ∧ Task.idxOffset d = None.
Proof.
  unfold baseOf, fetchrawtasks, fetchactiontasks, fetchfallbacktasks.
  rewrite !elem_of_app.
  intros [H | [H | H]]; apply list_elem_of_fmap in H as (info & -> & _);
    eexists; split; reflexivity.
Qed.

End Tasks.

Section Settling.

Variable params : Params.t.
Variable log : option Logger.
Variables (sp cp : promise jsobj).
Hypothesis Hsp : settlement log sp.
Hypothesis Hcp : settlement log cp.

Lemma rejected_tasks {A} (e : Exn) (l : list A) (P : A → promise Task.t → Prop) :
  (∀ a, P a (Rejected e)) → Forall2 P l (map (λ _, Rejected e) l).
Proof. intros H. induction l; constructor; auto. Qed.

Lemma fetchrawtasks_awaits (infos : list PathInfo) :
  Forall2 (λ info, awaits cp (fetchesFrom defaultResolver (Params.content_owner params)
                                (Params.content_repo params) (path info)))
          infos
          (fetchrawtasks infos params (updateOpts (contentOptsOf params) cp)
             (wskOptsOf params)).
Proof using Hcp.
  destruct cp as [cr | e].
  - exact (fetchrawtasks_spec params cr Hcp infos).
  - apply (rejected_tasks e infos). reflexivity.
Qed.

Lemma fetchactiontasks_awaits (infos : list PathInfo) :
  Forall2 (λ info, awaits cp (invokesPipeline params info))
          infos
          (fetchactiontasks infos (wskOptsOf params) (updateOpts (contentOptsOf params) cp)
             params).
Proof using Hcp.
  destruct cp as [cr | e].
  - exact (fetchactiontasks_spec params cr Hcp infos).
  - apply (rejected_tasks e infos). reflexivity.
Qed.

Lemma fetchfallbacktasks_awaits (infos : list PathInfo) :
  Forall2 (λ info, awaits (bothOf sp cp)
                     (fetchesFrom defaultResolver (Params.static_owner params)
                        (Params.static_repo params) (path info)))
          infos
          (fetchfallbacktasks infos (wskOptsOf params) (updateOpts (contentOptsOf params) cp)
             (updateOpts (staticOptsOf params) sp)).
Proof using Hsp Hcp.
  destruct sp as [sr | e].
  - destruct cp as [cr | e].
    + exact (fetchfallbacktasks_spec params cr sr Hsp infos).
    + apply (rejected_tasks e infos). reflexivity.
  - apply (rejected_tasks e infos). reflexivity.
Qed.

Lemma fetch404tasks_awaits (infos : list PathInfo) (info0 : PathInfo) (idxOffset : nat)
    (tasks404 : list (promise Task.t)) :
  head infos = Some info0 →
  fetch404tasks infos (wskOptsOf params) (updateOpts (contentOptsOf params) cp)
    (updateOpts (staticOptsOf params) sp) idxOffset
  = Ok tasks404 →
  (ext info0 ≠ "html" → tasks404 = [])
  ∧ (ext info0 = "html" →
     ∃ t1 t2, tasks404 = [t1; t2]
       ∧ awaits cp (fetchesFrom errorPageResolver (Params.content_owner params)
                      (Params.content_repo params) "/404.html") t1
       ∧ awaits (bothOf sp cp)
           (fetchesFrom errorPageResolver (Params.static_owner params)
              (Params.static_repo params) "/404.html") t2).
Proof using Hsp Hcp.
  intros Hhead H404. split.
  - destruct infos as [| i0 infos']; [discriminate |]. injection Hhead as ->.
    intros Hext. unfold fetch404tasks in H404.
    destruct (String.eqb_spec (ext info0) "html"); [contradiction | congruence].
  - intros Hext.
    destruct sp as [sr | es], cp as [cr | ec].
    + destruct (fetch404tasks_spec params cr sr Hcp Hsp infos info0 _ tasks404 Hhead H404)
        as (_ & Hhtml & _).
      exact (Hhtml Hext).
    + destruct infos as [| i0 infos']; [discriminate |]. injection Hhead as ->.
      unfold fetch404tasks in H404. rewrite Hext in H404. injection H404 as <-.
      eexists _, _. split; [reflexivity |]. split; reflexivity.
    + destruct infos as [| i0 infos']; [discriminate |]. injection Hhead as ->.
      unfold fetch404tasks in H404. rewrite Hext in H404. injection H404 as <-.
      edestruct (fetch404tasks_spec params cr cr Hcp Hcp (info0 :: infos') info0 idxOffset)
        as (_ & Hhtml & _);
        [reflexivity | unfold fetch404tasks; rewrite Hext; reflexivity |].
      destruct (Hhtml Hext) as (t1 & t2 & Heq & Ht1 & _). injection Heq as <- _.
      eexists _, _. split; [reflexivity |]. split; [exact Ht1 | reflexivity].
    + destruct infos as [| i0 infos']; [discriminate |]. injection Hhead as ->.
      unfold fetch404tasks in H404. rewrite Hext in H404. injection H404 as <-.
      eexists _, _. split; [reflexivity |]. split; reflexivity.
Qed.

End Settling.

(** The descriptors record [idxOffset] however the resolutions settle. *)
Lemma fetch404tasks_idxOffset (infos : list PathInfo) (wskOpts : jsobj)
    (contentPromise staticPromise : promise jsobj) (idxOffset : nat)
    (tasks404 : list (promise Task.t)) (task : promise Task.t) (d : Task.t) :
  fetch404tasks infos wskOpts contentPromise staticPromise idxOffset = Ok tasks404 →
  task ∈ tasks404 → task = Fulfilled d → Task.idxOffset d = Some idxOffset.
Proof.
  destruct infos as [| info0 infos']; [discriminate |]. unfold fetch404tasks.
  destruct (String.eqb (ext info0) "html"); intros [= <-] Hin Hd.
  - apply elem_of_cons in Hin as [-> | Hin].
    + destruct contentPromise; [| discriminate]. injection Hd as <-. reflexivity.
    + apply list_elem_of_singleton in Hin as ->.
      destruct staticPromise; [| discriminate].
      destruct contentPromise; [| discriminate]. injection Hd as <-. reflexivity.
  - apply elem_of_nil in Hin. contradiction.
Qed.

Lemma base_idxOffset (infos : list PathInfo) (params : Params.t) (wskOpts : jsobj)
    (contentPromise staticPromise : promise jsobj) (task : promise Task.t) (d : Task.t) :
  task ∈ fetchrawtasks infos params contentPromise wskOpts
         ++ fetchactiontasks infos wskOpts contentPromise params
         ++ fetchfallbacktasks infos wskOpts contentPromise staticPromise →
  task = Fulfilled d → Task.idxOffset d = None.
Proof.
  unfold fetchrawtasks, fetchactiontasks, fetchfallbacktasks. rewrite !elem_of_app.
  intros [H | [H | H]] Hd; apply list_elem_of_fmap in H as (info & -> & _).
  - destruct contentPromise; [| discriminate]. injection Hd as <-. reflexivity.
  - destruct contentPromise; [| discriminate]. injection Hd as <-. reflexivity.
  - destruct staticPromise; [| discriminate].
    destruct contentPromise; [| discriminate]. injection Hd as <-. reflexivity.
Qed.

Lemma plan_of_infos (cwd : string) (service : nat → Invoke.t → Outcome)
    (params : Params.t) (w : World) (infos : list PathInfo) :
  pathInfosOf cwd params = Ok infos →
  ∃ plan w' staticResolver contentResolver raw actions fallback info0,
    fetchers cwd service params w = (Ok plan, w')
    ∧ resolvers service (staticOptsOf params) (contentOptsOf params) (wskOptsOf params)
        (Params.__ow_logger params) w
      = (staticResolver, contentResolver, w')
    ∧ (Params.__ow_logger params ≠ None →
       (∃ sr, staticResolver = Fulfilled sr) ∧ (∃ cr, contentResolver = Fulfilled cr))
    ∧ base plan = raw ++ actions ++ fallback
    ∧ Forall2 (λ info, awaits contentResolver
                         (fetchesFrom defaultResolver (Params.content_owner params)
                            (Params.content_repo params) (path info))) infos raw
    ∧ Forall2 (λ info, awaits contentResolver (invokesPipeline params info)) infos actions
    ∧ Forall2 (λ info, awaits (bothOf staticResolver contentResolver)
                         (fetchesFrom defaultResolver (Params.static_owner params)
                            (Params.static_repo params) (path info))) infos fallback
    ∧ head infos = Some info0
    ∧ (ext info0 ≠ "html" → fetch404 plan = [])
    ∧ (ext info0 = "html" →
       ∃ t1 t2, fetch404 plan = [t1; t2]
         ∧ awaits contentResolver
             (fetchesFrom errorPageResolver (Params.content_owner params)
                (Params.content_repo params) "/404.html") t1
         ∧ awaits (bothOf staticResolver contentResolver)
             (fetchesFrom errorPageResolver (Params.static_owner params)
                (Params.static_repo params) "/404.html") t2).
Proof.
  intros Hinfos.
  destruct (resolvers_settled service params w) as (sp & cp & w' & Hres & Hsp & Hcp).
  destruct (fetchers_returns cwd service params w w' infos sp cp Hinfos Hres)
    as (tasks404 & H404 & Hfetch).
  pose proof (pathInfosOf_nonempty cwd params infos Hinfos) as Hne.
  destruct infos as [| info0 infos'] eqn:Einfos; [contradiction |]. rewrite <- Einfos in *.
  assert (Hhead : head infos = Some info0) by (rewrite Einfos; reflexivity).
  destruct (fetch404tasks_awaits params _ sp cp Hsp Hcp infos info0 _ tasks404 Hhead H404)
    as (Hother & Hhtml).
  eexists _, w', sp, cp, _, _, _, info0. split; [exact Hfetch |].
  split; [exact Hres |]. split.
  { intros Hlog.
    destruct (settlement_logger _ sp Hlog Hsp) as (sr & -> & _).
    destruct (settlement_logger _ cp Hlog Hcp) as (cr & -> & _). eauto. }
  split; [reflexivity |].
  split; [exact (fetchrawtasks_awaits params _ cp Hcp infos) |].
  split; [exact (fetchactiontasks_awaits params _ cp Hcp infos) |].
  split; [exact (fetchfallbacktasks_awaits params _ sp cp Hsp Hcp infos) |].
  split; [exact Hhead |]. split; [exact Hother | exact Hhtml].
Qed.

Lemma fetchers_throws (cwd : string) (service : nat → Invoke.t → Outcome)
    (params : Params.t) (w : World) (e : Exn) :
  pathInfosOf cwd params = Throw e → fetchers cwd service params w = (Throw e, w).
Proof. unfold pathInfosOf, fetchers. intros ->. reflexivity. Qed.

(** C1, counterexample. With the index name [README], [fetchers] throws
    and builds no plan. For the request [{}], which carries no logger, and
    a service that raises an error, every task of the plan is a rejected
    promise: there is no invocation descriptor. *)
Lemma fetchers_throws_or_rejects :
  fetchers "/" downService bareIndexParams emptyWorld = (Throw extensionError, emptyWorld)
  ∧ ∃ w', fetchers "/" downService Params.empty emptyWorld
          = (Ok {| base := [ Rejected (missingLogger LError);
                             Rejected (missingLogger LError);
                             Rejected (missingLogger LError) ];
                   fetch404 := [ Rejected (missingLogger LError);
                                 Rejected (missingLogger LError) ] |}, w').
Proof. split; [reflexivity |]. eexists. vm_compute. reflexivity. Qed.

(** C1, amended. When the path resolver throws, [fetchers] throws the same
    error and builds no plan. Otherwise it returns a plan of promises. Its
    base list is, in this order, one raw fetch from the content repository
    per path info, one pipeline invocation per path info and one raw fetch
    from the static repository per path info, all under the default policy.
    Its [fetch404] list is empty unless the extension of the first path
    info is [html]; then it holds exactly two tasks, the fetch of
    [/404.html] from the content repository followed by the one from the
    static repository, both under the error-page policy. A task of the
    content repository is such a descriptor when the content resolution
    fulfils and rejects with its error otherwise; a task of the static
    repository awaits the static and then the content resolution in the
    same way. Both resolutions fulfil whenever the request carries a
    logger. *)
Theorem fetchers_plan (cwd : string) (service : nat → Invoke.t → Outcome)
    (params : Params.t) (w : World) :
  match pathInfosOf cwd params with
  | Throw e => fetchers cwd service params w = (Throw e, w)
  | Ok infos =>
      ∃ plan w' staticResolver contentResolver raw actions fallback info0,
        fetchers cwd service params w = (Ok plan, w')
        ∧ resolvers service (staticOptsOf params) (contentOptsOf params) (wskOptsOf params)
            (Params.__ow_logger params) w
          = (staticResolver, contentResolver, w')
        ∧ (Params.__ow_logger params ≠ None →
           (∃ sr, staticResolver = Fulfilled sr) ∧ (∃ cr, contentResolver = Fulfilled cr))
        ∧ base plan = raw ++ actions ++ fallback
        ∧ Forall2 (λ info, awaits contentResolver
                             (fetchesFrom defaultResolver (Params.content_owner params)
                                (Params.content_repo params) (path info))) infos raw
        ∧ Forall2 (λ info, awaits contentResolver (invokesPipeline params info))
            infos actions
        ∧ Forall2 (λ info, awaits (bothOf staticResolver contentResolver)
                             (fetchesFrom defaultResolver (Params.static_owner params)
                                (Params.static_repo params) (path info))) infos fallback
        ∧ head infos = Some info0
        ∧ (ext info0 ≠ "html" → fetch404 plan = [])
        ∧ (ext info0 = "html" →
           ∃ t1 t2, fetch404 plan = [t1; t2]
             ∧ awaits contentResolver
                 (fetchesFrom errorPageResolver (Params.content_owner params)
                    (Params.content_repo params) "/404.html") t1
             ∧ awaits (bothOf staticResolver contentResolver)
                 (fetchesFrom errorPageResolver (Params.static_owner params)
                    (Params.static_repo params) "/404.html") t2)
  end.
Proof.
  destruct (pathInfosOf cwd params) as [infos | e] eqn:Hinfos.
  - apply plan_of_infos, Hinfos.
  - apply fetchers_throws, Hinfos.
Qed.

Lemma fetchers_plan_witness :
  ∃ plan w' d t2 t3 d404 t404,
    fetchers "/" downService loggedParams emptyWorld = (Ok plan, w')
    ∧ base plan = [Fulfilled d; t2; t3]
    ∧ Task.name d = HELIX_STATIC_ACTION
    ∧ prop (Task.params d) "path" = JStr "/index.html"
    ∧ fetch404 plan = [Fulfilled d404; t404]
    ∧ prop (Task.params d404) "path" = JStr "/404.html".
Proof.
  pose proof (fetchers_plan "/" downService loggedParams emptyWorld) as H.
  change (pathInfosOf "/" loggedParams)
    with (Ok [ {| path := "/index.html"; name := "index"; selector := ""; ext := "html";
                  relPath := "/index" |} ]) in H.
  destruct H as (plan & w' & sp & cp & raw & actions & fallback & info0 & Hfetch & _ & Hlog
                 & Hbase & Hraw & Hact & Hfall & Hhead & _ & Hhtml).
  injection Hhead as <-.
  destruct Hlog as [[sr ->] [cr ->]]; [discriminate |].
  destruct (Hhtml eq_refl) as (t1 & t404 & H404 & (d404 & -> & _ & _ & _ & Hp404 & _) & _).
  apply Forall2_cons_inv_l in Hraw
    as (t & raw' & (d & -> & Hname & _ & _ & Hpath & _) & Hraw' & ->).
  apply Forall2_nil_inv_l in Hraw' as ->.
  apply Forall2_cons_inv_l in Hact as (t2 & act' & _ & Hact' & ->).
  apply Forall2_nil_inv_l in Hact' as ->.
  apply Forall2_cons_inv_l in Hfall as (t3 & fall' & _ & Hfall' & ->).
  apply Forall2_nil_inv_l in Hfall' as ->.
  exists plan, w', d, t2, t3, d404, t404. auto 10.
Defined.

Lemma resolutions_of_infos (cwd : string) (service : nat → Invoke.t → Outcome)
    (params : Params.t) (w : World) (infos : list PathInfo) :
  pathInfosOf cwd params = Ok infos →
  let sameCoordinates :=
    Params.static_owner params = Params.content_owner params
    ∧ Params.static_repo params = Params.content_repo params
    ∧ Params.static_ref params = Params.content_ref params in
  let staticOpts := staticOptsOf params in
  let contentOpts := contentOptsOf params in
  let wskOpts := wskOptsOf params in
  let log := Params.__ow_logger params in
  (sameCoordinates →
   ∃ p w' plan,
     resolveRef service staticOpts wskOpts log w = (p, w')
     ∧ resolvers service staticOpts contentOpts wskOpts log w = (p, p, w')
     ∧ fetchers cwd service params w = (Ok plan, w')
     ∧ (∀ r, p = Fulfilled r →
          base plan = baseOf params infos (assign contentOpts r) (assign staticOpts r))
     ∧ resolutions w' = resolutions w ++ [staticOpts]
     ∧ invocations w' = invocations w ++ requestsOf staticOpts wskOpts)
  ∧ (¬ sameCoordinates →
     ∃ sp cp w1 w' plan,
       resolveRef service staticOpts wskOpts log w = (sp, w1)
       ∧ resolveRef service contentOpts wskOpts log w1 = (cp, w')
       ∧ resolvers service staticOpts contentOpts wskOpts log w = (sp, cp, w')
       ∧ fetchers cwd service params w = (Ok plan, w')
       ∧ (∀ sr cr, sp = Fulfilled sr → cp = Fulfilled cr →
            base plan = baseOf params infos (assign contentOpts cr) (assign staticOpts sr))
       ∧ resolutions w' = resolutions w ++ [staticOpts; contentOpts]
       ∧ invocations w'
         = invocations w ++ requestsOf staticOpts wskOpts ++ requestsOf contentOpts wskOpts).
Proof.
  intros Hinfos same staticOpts contentOpts wskOpts log. split.
  - intros Hsame. apply equalRepository_spec in Hsame.
    destruct (resolvers_shared service params w Hsame)
      as (p & w' & Hp & Hres & Htrace & Hinv & _).
    destruct (fetchers_returns cwd service params w w' infos p p Hinfos Hres)
      as (tasks404 & _ & Hfetch).
    eexists p, w', _. split; [exact Hp |]. split; [exact Hres |].
    split; [exact Hfetch |]. split; [| split; [exact Htrace | exact Hinv]].
    intros r ->. reflexivity.
  - intros Hdiff.
    assert (Hne : equalRepository (staticOptsOf params) (contentOptsOf params) = false).
    { apply not_true_is_false. intros H. apply Hdiff, equalRepository_spec, H. }
    destruct (resolvers_independent service params w Hne)
      as (sp & cp & w1 & w' & Hsp & Hcp & Hres & Htrace & Hinv & _).
    destruct (fetchers_returns cwd service params w w' infos sp cp Hinfos Hres)
      as (tasks404 & _ & Hfetch).
    eexists sp, cp, w1, w', _. split; [exact Hsp |]. split; [exact Hcp |].
    split; [exact Hres |]. split; [exact Hfetch |].
    split; [| split; [exact Htrace | exact Hinv]].
    intros sr cr -> ->. reflexivity.
Qed.

(** C5, counterexample. With the index name [README] and identical
    (absent) coordinates, [fetchers] throws before any call of
    [resolveRef]: nothing is resolved and nothing is sent to the service.
    With two different coordinates whose refs are commit shas,
    [resolveRef] is called twice and nothing is sent to the service. *)
Lemma fetchers_without_resolution_requests :
  (Params.static_owner bareIndexParams = Params.content_owner bareIndexParams
   ∧ Params.static_repo bareIndexParams = Params.content_repo bareIndexParams
   ∧ Params.static_ref bareIndexParams = Params.content_ref bareIndexParams
   ∧ resolutions (snd (fetchers "/" shaService bareIndexParams emptyWorld)) = []
   ∧ invocations (snd (fetchers "/" shaService bareIndexParams emptyWorld)) = [])
  ∧ (Params.static_repo shaParams ≠ Params.content_repo shaParams
     ∧ resolutions (snd (fetchers "/" shaService shaParams emptyWorld))
       = [staticOptsOf shaParams; contentOptsOf shaParams]
     ∧ invocations (snd (fetchers "/" shaService shaParams emptyWorld)) = []).
Proof.
  split; [repeat split; reflexivity |].
  split; [discriminate |]. split; vm_compute; reflexivity.
Qed.

(** C5, amended. When the path resolver throws, [fetchers] throws before
    any call of [resolveRef]. Otherwise: if the static and the content
    parameters name the same owner, repo and ref, [fetchers] calls
    [resolveRef] once, on the static options, and the static and the
    content resolver are the one promise that call returns; if they
    differ, it calls [resolveRef] twice, on the static and then on the
    content options. Each call of [resolveRef] sends one request to the
    ref-resolution service, except that a call whose ref is a commit sha
    sends none. The number of path infos plays no part. *)
Theorem fetchers_resolutions (cwd : string) (service : nat → Invoke.t → Outcome)
    (params : Params.t) (w : World) :
  let sameCoordinates :=
    Params.static_owner params = Params.content_owner params
    ∧ Params.static_repo params = Params.content_repo params
    ∧ Params.static_ref params = Params.content_ref params in
  let staticOpts := staticOptsOf params in
  let contentOpts := contentOptsOf params in
  let wskOpts := wskOptsOf params in
  let log := Params.__ow_logger params in
  match pathInfosOf cwd params with
  | Throw e => fetchers cwd service params w = (Throw e, w)
  | Ok infos =>
      (sameCoordinates →
       ∃ p w' plan,
         resolveRef service staticOpts wskOpts log w = (p, w')
         ∧ resolvers service staticOpts contentOpts wskOpts log w = (p, p, w')
         ∧ fetchers cwd service params w = (Ok plan, w')
         ∧ (∀ r, p = Fulfilled r →
              base plan = baseOf params infos (assign contentOpts r) (assign staticOpts r))
         ∧ resolutions w' = resolutions w ++ [staticOpts]
         ∧ invocations w' = invocations w ++ requestsOf staticOpts wskOpts)
      ∧ (¬ sameCoordinates →
         ∃ sp cp w1 w' plan,
           resolveRef service staticOpts wskOpts log w = (sp, w1)
           ∧ resolveRef service contentOpts wskOpts log w1 = (cp, w')
           ∧ resolvers service staticOpts contentOpts wskOpts log w = (sp, cp, w')
           ∧ fetchers cwd service params w = (Ok plan, w')
           ∧ (∀ sr cr, sp = Fulfilled sr → cp = Fulfilled cr →
                base plan
                = baseOf params infos (assign contentOpts cr) (assign staticOpts sr))
           ∧ resolutions w' = resolutions w ++ [staticOpts; contentOpts]
           ∧ invocations w'
             = invocations w ++ requestsOf staticOpts wskOpts
               ++ requestsOf contentOpts wskOpts)
  end.
Proof.
  intros same staticOpts contentOpts wskOpts log.
  destruct (pathInfosOf cwd params) as [infos | e] eqn:Hinfos.
  - apply (resolutions_of_infos cwd service params w infos Hinfos).
  - apply fetchers_throws, Hinfos.
Qed.

Lemma fetchers_resolutions_witness :
  (∃ plan w', fetchers "/" shaService Params.empty emptyWorld = (Ok plan, w')
              ∧ resolutions w' = [staticOptsOf Params.empty]
              ∧ invocations w'
                = [resolveRequest (staticOptsOf Params.empty) (wskOptsOf Params.empty)])
  ∧ (∃ plan w', fetchers "/" downService twoRepoParams emptyWorld = (Ok plan, w')
                ∧ resolutions w' = [staticOptsOf twoRepoParams; contentOptsOf twoRepoParams]
                ∧ invocations w'
                  = [resolveRequest (staticOptsOf twoRepoParams) (wskOptsOf twoRepoParams);
                     resolveRequest (contentOptsOf twoRepoParams) (wskOptsOf twoRepoParams)])
  ∧ (∃ plan w', fetchers "/" downService shaParams emptyWorld = (Ok plan, w')
                ∧ resolutions w' = [staticOptsOf shaParams; contentOptsOf shaParams]
                ∧ invocations w' = []).
Proof.
  split; [| split].
  - pose proof (fetchers_resolutions "/" shaService Params.empty emptyWorld) as H.
    cbv zeta in H.
    change (pathInfosOf "/" Params.empty)
      with (Ok [ {| path := "/index.html"; name := "index"; selector := ""; ext := "html";
                    relPath := "/index" |} ]) in H.
    destruct H as [Hsame _].
    destruct Hsame as (p & w' & plan & _ & _ & Hfetch & _ & Htrace & Hinv);
      [repeat split; reflexivity |].
    exists plan, w'. split; [exact Hfetch |]. split; [exact Htrace | exact Hinv].
  - pose proof (fetchers_resolutions "/" downService twoRepoParams emptyWorld) as H.
    cbv zeta in H.
    change (pathInfosOf "/" twoRepoParams)
      with (Ok [ {| path := "/docs/index.html"; name := "index"; selector := "";
                    ext := "html"; relPath := "/docs/index" |} ]) in H.
    destruct H as [_ Hdiff].
    destruct Hdiff as (sp & cp & w1 & w' & plan & _ & _ & _ & Hfetch & _ & Htrace & Hinv);
      [intros (_ & Hrepo & _); discriminate |].
    exists plan, w'. split; [exact Hfetch |]. split; [exact Htrace | exact Hinv].
  - pose proof (fetchers_resolutions "/" downService shaParams emptyWorld) as H.
    cbv zeta in H.
    change (pathInfosOf "/" shaParams)
      with (Ok [ {| path := "/docs/index.html"; name := "index"; selector := "";
                    ext := "html"; relPath := "/docs/index" |} ]) in H.
    destruct H as [_ Hdiff].
    destruct Hdiff as (sp & cp & w1 & w' & plan & _ & _ & _ & Hfetch & _ & Htrace & Hinv);
      [intros (_ & Hrepo & _); discriminate |].
    exists plan, w'. split; [exact Hfetch |]. split; [exact Htrace | exact Hinv].
Defined.

(** C8, counterexample. The request [{__ow_logger: logger}] gives a plan
    whose first base task fulfils with a descriptor that carries no
    [idxOffset]. *)
Lemma fetchers_base_task_without_idxOffset :
  ∃ plan w' d,
    fetchers "/" downService loggedParams emptyWorld = (Ok plan, w')
    ∧ head (base plan) = Some (Fulfilled d)
    ∧ Task.idxOffset d = None.
Proof. eexists _, _, _. split; [vm_compute; reflexivity |]. split; reflexivity. Qed.

(** C8, amended. Whenever the path infos of the request exist, every
    descriptor that a task of the [fetch404] list fulfils with records, as
    [idxOffset], the length of the base list; the descriptors of the base
    list record no [idxOffset]. With a logger every task of the plan
    fulfils with a descriptor. *)
Theorem fetchers_idxOffset (cwd : string) (service : nat → Invoke.t → Outcome)
    (params : Params.t) (w : World) (infos : list PathInfo) :
  pathInfosOf cwd params = Ok infos →
  ∃ plan w',
    fetchers cwd service params w = (Ok plan, w')
    ∧ (∀ task d, task ∈ fetch404 plan → task = Fulfilled d →
         Task.idxOffset d = Some (length (base plan)))
    ∧ (∀ task d, task ∈ base plan → task = Fulfilled d → Task.idxOffset d = None)
    ∧ (Params.__ow_logger params ≠ None →
       ∀ task, task ∈ base plan ++ fetch404 plan → ∃ d, task = Fulfilled d).
Proof.
  intros Hinfos.
  destruct (resolvers_settled service params w) as (sp & cp & w' & Hres & Hsp & Hcp).
  destruct (fetchers_returns cwd service params w w' infos sp cp Hinfos Hres)
    as (tasks404 & H404 & Hfetch).
  eexists _, w'. split; [exact Hfetch |]. cbn [base fetch404].
  split; [intros task d; apply (fetch404tasks_idxOffset _ _ _ _ _ _ _ _ H404) |].
  split; [intros task d; apply base_idxOffset |].
  intros Hlog.
  destruct (settlement_logger _ sp Hlog Hsp) as (sr & -> & Hsr).
  destruct (settlement_logger _ cp Hlog Hcp) as (cr & -> & Hcr).
  pose proof (pathInfosOf_nonempty cwd params infos Hinfos) as Hne.
  destruct infos as [| info0 infos'] eqn:Einfos; [contradiction |]. rewrite <- Einfos in *.
  assert (Hhead : head infos = Some info0) by (rewrite Einfos; reflexivity).
  destruct (fetch404tasks_spec params cr sr Hcr Hsr infos info0 _ tasks404 Hhead H404)
    as (_ & _ & Hidx).
  intros task Hin. apply elem_of_app in Hin as [Hin | Hin].
  - destruct (baseOf_idxOffset params cr sr infos task Hin) as (d & -> & _). eauto.
  - destruct (Hidx task Hin) as (d & -> & _). eauto.
Qed.

Lemma fetchers_idxOffset_witness :
  pathInfosOf "/" loggedParams
  = Ok [ {| path := "/index.html"; name := "index"; selector := ""; ext := "html";
            relPath := "/index" |} ]
  ∧ ∃ plan w' d,
      fetchers "/" downService loggedParams emptyWorld = (Ok plan, w')
      ∧ head (fetch404 plan) = Some (Fulfilled d)
      ∧ length (base plan) = 3%nat
      ∧ Task.idxOffset d = Some 3%nat.
Proof.
  assert (H0 : pathInfosOf "/" loggedParams
               = Ok [ {| path := "/index.html"; name := "index"; selector := "";
                         ext := "html"; relPath := "/index" |} ])
    by (vm_compute; reflexivity).
  split; [exact H0 |].
  destruct (fetchers_idxOffset "/" downService loggedParams emptyWorld _ H0)
    as (plan & w' & Hfetch & Hidx & _ & _).
  assert (Hplan : ∃ d rest, fetch404 plan = Fulfilled d :: rest ∧ length (base plan) = 3%nat).
  { revert Hfetch. vm_compute. intros [= <- _]. eexists _, _. split; reflexivity. }
  destruct Hplan as (d & rest & H404 & Hlen).
  exists plan, w', d. split; [exact Hfetch |]. rewrite H404, Hlen. split; [reflexivity |].
  split; [reflexivity |]. rewrite <- Hlen. apply (Hidx (Fulfilled d)); [| reflexivity].
  rewrite H404. apply elem_of_cons. left. reflexivity.
Defined.

(** * Further properties *)

(** ** Slices of strings *)

Module SliceFacts.
Import StrFacts.

Lemma take_drop (n : nat) (s : string) : JS.take n s +:+ JS.drop n s = s.
Proof.
  revert s. induction n as [| n IH]; intros [| a s]; try reflexivity.
  simpl. rewrite app_cons, IH. reflexivity.
Qed.

Lemma length_take (n : nat) (s : string) :
  String.length (JS.take n s) = Nat.min n (String.length s).
Proof.
  revert s. induction n as [| n IH]; intros [| a s]; try reflexivity.
  simpl. rewrite IH. reflexivity.
Qed.

Lemma length_drop (n : nat) (s : string) :
  String.length (JS.drop n s) = (String.length s - n)%nat.
Proof.
  revert s. induction n as [| n IH]; intros [| a s]; try reflexivity.
  simpl. apply IH.
Qed.

Lemma take_ge (n : nat) (s : string) : (String.length s ≤ n)%nat → JS.take n s = s.
Proof.
  revert s. induction n as [| n IH]; intros [| a s] H; try reflexivity.
  - simpl in H. lia.
  - simpl. rewrite IH; [reflexivity | simpl in H; lia].
Qed.

Lemma take_take (n m : nat) (s : string) :
  (n ≤ m)%nat → JS.take n (JS.take m s) = JS.take n s.
Proof.
  revert m s. induction n as [| n IH]; intros m s H; [destruct (JS.take m s); reflexivity |].
  destruct m as [| m]; [lia |]. destruct s as [| a s]; [reflexivity |].
  simpl. rewrite IH by lia. reflexivity.
Qed.

Lemma take_app (s t : string) (n : nat) :
  JS.take (String.length s + n) (s +:+ t) = s +:+ JS.take n t.
Proof.
  induction s as [| a s IH]; [reflexivity |].
  rewrite !app_cons. simpl. rewrite IH. reflexivity.
Qed.

Lemma drop_app (s t : string) (n : nat) :
  JS.drop (String.length s + n) (s +:+ t) = JS.drop n t.
Proof. induction s as [| a s IH]; [reflexivity |]. rewrite app_cons. simpl. exact IH. Qed.

Lemma drop_within (s t : string) (n : nat) :
  (n ≤ String.length s)%nat → JS.drop n (s +:+ t) = JS.drop n s +:+ t.
Proof.
  revert s. induction n as [| n IH]; intros s H; [reflexivity |].
  destruct s as [| a s]; [simpl in H; lia |].
  rewrite app_cons. simpl. apply IH. simpl in H. lia.
Qed.

Lemma substring_slice (s : string) (a b : Z) :
  0 ≤ a ≤ b → b ≤ JS.len s →
  JS.substring s a b = JS.take (Z.to_nat (b - a)) (JS.drop (Z.to_nat a) s).
Proof.
  intros Hab Hb. unfold JS.substring, JS.clamp.
  rewrite (Z.min_l a), (Z.min_l b), (Z.max_r 0 a), (Z.max_r 0 b) by lia.
  rewrite (Z.min_l a b), (Z.max_r a b) by lia. reflexivity.
Qed.

Lemma substringFrom_slice (s : string) (a : Z) :
  0 ≤ a ≤ JS.len s → JS.substringFrom s a = JS.drop (Z.to_nat a) s.
Proof.
  intros Ha. unfold JS.substringFrom. rewrite substring_slice by lia.
  apply take_ge. rewrite length_drop. unfold JS.len in *. lia.
Qed.

Lemma lastIndexOf_drop (c : ascii) (n : nat) (s : string) :
  JS.lastIndexOf (JS.drop n s) c
  = if Z.of_nat n <=? JS.lastIndexOf s c then JS.lastIndexOf s c - Z.of_nat n else -1.
Proof.
  revert s. induction n as [| n IH]; intros s.
  - simpl JS.drop. pose proof (lastIndexOf_bounds s c).
    destruct (Z.leb_spec (Z.of_nat 0) (JS.lastIndexOf s c)); lia.
  - destruct s as [| a s]; [reflexivity |].
    simpl JS.drop. rewrite IH, lastIndexOf_cons. pose proof (lastIndexOf_bounds s c).
    destruct (Z.leb_spec 0 (JS.lastIndexOf s c)).
    + destruct (Z.leb_spec (Z.of_nat n) (JS.lastIndexOf s c));
        destruct (Z.leb_spec (Z.of_nat (S n)) (JS.lastIndexOf s c + 1)); lia.
    + destruct (Z.leb_spec (Z.of_nat n) (JS.lastIndexOf s c)); [lia |].
      destruct (Ascii.eqb a c).
      * destruct (Z.leb_spec (Z.of_nat (S n)) 0); lia.
      * destruct (Z.leb_spec (Z.of_nat (S n)) (-1)); lia.
Qed.

Lemma lastIndexOf_take (c : ascii) (n : nat) (s : string) :
  JS.lastIndexOf s c < Z.of_nat n → JS.lastIndexOf (JS.take n s) c = JS.lastIndexOf s c.
Proof.
  revert s. induction n as [| n IH]; intros s H.
  - pose proof (lastIndexOf_bounds s c). assert (Hs : JS.lastIndexOf s c = -1) by lia.
    rewrite Hs. destruct s; reflexivity.
  - destruct s as [| a s]; [reflexivity |].
    simpl JS.take. rewrite !lastIndexOf_cons in *. pose proof (lastIndexOf_bounds s c).
    rewrite IH; [reflexivity |].
    destruct (Z.leb_spec 0 (JS.lastIndexOf s c)); lia.
Qed.

Lemma free_take (c : ascii) (n : nat) (s : string) : free c s → free c (JS.take n s).
Proof.
  unfold free. intros H. destruct n as [| n]; [destruct s; reflexivity |].
  rewrite lastIndexOf_take; [exact H | lia].
Qed.

Lemma drop_at_lastIndexOf (c : ascii) (s : string) :
  0 ≤ JS.lastIndexOf s c →
  JS.drop (Z.to_nat (JS.lastIndexOf s c)) s
  = String c (JS.drop (Z.to_nat (JS.lastIndexOf s c + 1)) s).
Proof.
  induction s as [| a s IH]; [simpl; lia |].
  rewrite lastIndexOf_cons. pose proof (lastIndexOf_bounds s c).
  destruct (Z.leb_spec 0 (JS.lastIndexOf s c)) as [Hs | Hs].
  - intros _. rewrite !Z2Nat.inj_add by lia. change (Z.to_nat 1) with 1%nat.
    rewrite !Nat.add_1_r. simpl JS.drop. rewrite IH by lia.
    rewrite Z2Nat.inj_add by lia. change (Z.to_nat 1) with 1%nat. rewrite Nat.add_1_r.
    reflexivity.
  - destruct (Ascii.eqb_spec a c) as [-> |]; [| lia]. intros _. reflexivity.
Qed.

(** A string is cut in two around the last occurrence of a character. *)
Lemma split_at_lastIndexOf (c : ascii) (s : string) :
  0 ≤ JS.lastIndexOf s c →
  s = JS.take (Z.to_nat (JS.lastIndexOf s c)) s
      +:+ String c (JS.drop (Z.to_nat (JS.lastIndexOf s c + 1)) s).
Proof.
  intros H. rewrite <- (drop_at_lastIndexOf c s H), take_drop. reflexivity.
Qed.

Lemma prefix_length (p s : string) :
  String.prefix p s = true → (String.length p ≤ String.length s)%nat.
Proof.
  revert s. induction p as [| a p IH]; intros s H; [simpl; lia |].
  destruct s as [| b s]; [discriminate |]. simpl in H.
  destruct (ascii_dec a b); [| discriminate]. simpl. specialize (IH s H). lia.
Qed.

Lemma length_app (s t : string) :
  String.length (s +:+ t) = (String.length s + String.length t)%nat.
Proof.
  induction s as [| a s IH]; [reflexivity |]. rewrite app_cons. simpl. rewrite IH.
  reflexivity.
Qed.

End SliceFacts.

(** ** The fields of a path info *)

Module FieldFacts.
Import StrFacts SliceFacts.

Lemma len_take_lastDot (url : string) :
  JS.len (JS.take (Z.to_nat (JS.lastIndexOf url ".")) url)
  = Z.max 0 (JS.lastIndexOf url ".").
Proof.
  pose proof (lastIndexOf_bounds url "."). unfold JS.len in *. rewrite length_take. lia.
Qed.

Lemma pathInfoOf_fields (mount url : string) :
  hasExtension url → pathInfoOf mount url = Ok (fieldsOf mount url).
Proof.
  unfold hasExtension. intros Hext.
  pose proof (lastIndexOf_bounds url "/") as Hls.
  pose proof (lastIndexOf_bounds url ".") as HD.
  pose proof (len_take_lastDot url) as Hlen.
  pose proof (lastIndexOf_bounds (JS.take (Z.to_nat (JS.lastIndexOf url ".")) url) ".") as HS.
  unfold pathInfoOf, fieldsOf.
  set (ls := JS.lastIndexOf url "/") in *. set (D := JS.lastIndexOf url ".") in *.
  destruct (Z.leb_spec D ls); [lia |].
  rewrite (substringFrom_slice url (D + 1)) by lia.
  rewrite (substring_slice url (ls + 1) D) by lia.
  rewrite (substring_slice url 0 D) by lia.
  rewrite Z.sub_0_r. change (JS.drop (Z.to_nat 0) url) with url.
  set (R0 := JS.take (Z.to_nat D) url) in *.
  set (S := JS.lastIndexOf R0 ".") in *.
  assert (Hm : ∀ rel : string,
             JS.startsWith (rel +:+ "/") (mount +:+ "/") = true →
             JS.len rel ≤ JS.len url →
             JS.substringFrom url (JS.len mount) = JS.drop (String.length mount) url
             ∧ JS.substringFrom rel (JS.len mount) = JS.drop (String.length mount) rel).
  { intros rel Hpre Hrel. apply prefix_length in Hpre. rewrite !length_app in Hpre.
    simpl in Hpre. unfold JS.len in *.
    rewrite !substringFrom_slice by (unfold JS.len; lia).
    rewrite Nat2Z.id. auto. }
  destruct (Z.ltb_spec ls S) as [Hsel | Hsel].
  - rewrite (substring_slice url (ls + 1) S) by lia.
    rewrite (substringFrom_slice R0 (S + 1)) by lia.
    rewrite (substring_slice R0 0 S) by lia.
    rewrite Z.sub_0_r. change (JS.drop (Z.to_nat 0) R0) with R0.
    assert (Htt : JS.take (Z.to_nat S) R0 = JS.take (Z.to_nat S) url)
      by (unfold R0; apply take_take; lia).
    rewrite !Htt.
    replace (S - (ls + 1)) with (S - ls - 1) by lia.
    destruct (JS.truthy mount && negb (String.eqb mount "/")); simpl andb; [| reflexivity].
    destruct (JS.startsWith _ _) eqn:Hpre; [| reflexivity].
    destruct (Hm _ Hpre) as [-> ->]; [| reflexivity].
    unfold JS.len. rewrite length_take. unfold JS.len in HD. lia.
  - replace (D - (ls + 1)) with (D - ls - 1) by lia.
    destruct (JS.truthy mount && negb (String.eqb mount "/")); simpl andb; [| reflexivity].
    fold R0. destruct (JS.startsWith _ _) eqn:Hpre; [| reflexivity].
    destruct (Hm _ Hpre) as [-> ->]; [| reflexivity].
    unfold JS.len in *. lia.
Qed.

End FieldFacts.

(** ** More on [getPathInfos] *)

Import SliceFacts FieldFacts.

Lemma mapM_elem {A B} (f : A → result B) (l : list A) (bs : list B) (b : B) :
  mapM f l = Ok bs → b ∈ bs → ∃ a, a ∈ l ∧ f a = Ok b.
Proof.
  revert bs. induction l as [| a l IH]; intros bs; simpl.
  - intros [= <-] Hb. apply elem_of_nil in Hb. contradiction.
  - destruct (f a) as [b0 | e] eqn:Hb0; simpl; [| discriminate].
    destruct (mapM f l) as [bs' | e]; simpl; [| discriminate].
    intros [= <-] Hb. apply elem_of_cons in Hb as [-> | Hb].
    + exists a. split; [left | exact Hb0].
    + destruct (IH bs' eq_refl Hb) as (a' & Ha' & Hfa'). exists a'. split; [right |]; auto.
Qed.

(** Every path info returned is the record of fields of a candidate with
    an extension. *)
Lemma getPathInfos_fields (cwd urlPath mount : string) (indices : list string)
    (infos : list PathInfo) (info : PathInfo) :
  getPathInfos cwd urlPath mount indices = Ok infos → info ∈ infos →
  ∃ url, url ∈ candidates cwd urlPath indices ∧ hasExtension url
         ∧ info = fieldsOf mount url.
Proof.
  unfold getPathInfos. intros H Hin.
  destruct (mapM_elem _ _ _ _ H Hin) as (url & Hurl & Hinfo).
  exists url. split; [apply unique_elem, Hurl |].
  destruct (decide (hasExtension url)) as [Hext | Hno].
  - split; [exact Hext |]. rewrite (pathInfoOf_fields mount url Hext) in Hinfo.
    congruence.
  - rewrite (pathInfoOf_throws mount url Hno) in Hinfo. discriminate.
Qed.

Lemma dot_app (s : string) : "." +:+ s = String "." s.
Proof. reflexivity. Qed.

Section Fields.

Variables (mount url : string).
Hypothesis Hext : hasExtension url.

Lemma fieldsOf_ext_free : free "." (ext (fieldsOf mount url)) ∧ free "/" (ext (fieldsOf mount url)).
Proof using Hext.
  unfold hasExtension in Hext. pose proof (lastIndexOf_bounds url "/").
  unfold free, fieldsOf. cbn [ext]. rewrite !lastIndexOf_drop.
  rewrite Z2Nat.id by lia.
  split; match goal with |- context [?a <=? ?b] => destruct (Z.leb_spec a b) end; lia.
Qed.

Lemma fieldsOf_selector_free :
  free "." (selector (fieldsOf mount url)) ∧ free "/" (selector (fieldsOf mount url)).
Proof using Hext.
  unfold hasExtension in Hext. pose proof (lastIndexOf_bounds url "/").
  unfold free, fieldsOf. cbn [selector].
  set (R0 := JS.take (Z.to_nat (JS.lastIndexOf url ".")) url).
  destruct (Z.ltb_spec (JS.lastIndexOf url "/") (JS.lastIndexOf R0 ".")) as [Hsel | Hsel];
    [| split; reflexivity].
  assert (Hslash : JS.lastIndexOf R0 "/" = JS.lastIndexOf url "/")
    by (apply lastIndexOf_take; lia).
  rewrite !lastIndexOf_drop, Hslash. rewrite Z2Nat.id by lia.
  split; match goal with |- context [?a <=? ?b] => destruct (Z.leb_spec a b) end; lia.
Qed.

Lemma fieldsOf_name_free : free "/" (name (fieldsOf mount url)).
Proof using Hext.
  unfold hasExtension in Hext. pose proof (lastIndexOf_bounds url "/").
  unfold fieldsOf. cbn [name]. apply free_take. unfold free.
  rewrite lastIndexOf_drop, Z2Nat.id by lia.
  match goal with |- context [?a <=? ?b] => destruct (Z.leb_spec a b) end; lia.
Qed.

(** The URL is the untrimmed [relPath], the optional selector and the
    extension, joined by dots. *)
Lemma fieldsOf_path :
  path (fieldsOf mount url)
  = relPath (fieldsOf mount url) +:+ "." +:+ ext (fieldsOf mount url)
  ∨ path (fieldsOf mount url)
    = relPath (fieldsOf mount url) +:+ "." +:+ selector (fieldsOf mount url)
      +:+ "." +:+ ext (fieldsOf mount url).
Proof using Hext.
  unfold hasExtension in Hext.
  pose proof (lastIndexOf_bounds url "/") as Hls.
  pose proof (lastIndexOf_bounds url ".") as HD.
  pose proof (len_take_lastDot url) as Hlen.
  pose proof (lastIndexOf_bounds (JS.take (Z.to_nat (JS.lastIndexOf url ".")) url) ".") as HS.
  pose proof (split_at_lastIndexOf "." url ltac:(lia)) as Hurl.
  unfold fieldsOf. cbn [path relPath ext selector]. rewrite !dot_app.
  set (ls := JS.lastIndexOf url "/") in *. set (D := JS.lastIndexOf url ".") in *.
  set (R0 := JS.take (Z.to_nat D) url) in *.
  set (S := JS.lastIndexOf R0 ".") in *.
  set (e := JS.drop (Z.to_nat (D + 1)) url) in *.
  assert (Hstrip : ∀ rel rest : string, url = rel +:+ rest →
            (if JS.truthy mount && negb (String.eqb mount "/")
                && JS.startsWith (rel +:+ "/") (mount +:+ "/")
             then JS.drop (String.length mount) url else url)
            = (if JS.truthy mount && negb (String.eqb mount "/")
                  && JS.startsWith (rel +:+ "/") (mount +:+ "/")
               then JS.drop (String.length mount) rel else rel) +:+ rest).
  { intros rel rest Hrel.
    destruct (JS.truthy mount && negb (String.eqb mount "/")); simpl andb; [| exact Hrel].
    destruct (JS.startsWith _ _) eqn:Hpre; [| exact Hrel].
    apply prefix_length in Hpre. rewrite !length_app in Hpre. simpl in Hpre.
    rewrite Hrel at 1. apply drop_within. lia. }
  destruct (Z.ltb_spec ls S) as [Hsel | Hsel].
  - right. apply Hstrip.
    pose proof (split_at_lastIndexOf "." R0 ltac:(fold S; lia)) as HR0. fold S in HR0.
    assert (Htt : JS.take (Z.to_nat S) R0 = JS.take (Z.to_nat S) url)
      by (unfold R0; apply take_take; lia).
    rewrite Htt in HR0. rewrite Hurl at 1. rewrite HR0 at 1.
    rewrite app_assoc, app_cons. reflexivity.
  - left. apply Hstrip. exact Hurl.
Qed.

End Fields.

Lemma unique_singleton (x : string) : unique [x] = [x].
Proof.
  unfold unique. cbn [fold_left]. unfold uniqueStep.
  rewrite bool_decide_eq_false_2 by apply not_elem_of_nil. reflexivity.
Qed.

Lemma getPathInfos_single (cwd urlPath mount url : string) (indices : list string) :
  candidates cwd urlPath indices = [url] → hasExtension url →
  getPathInfos cwd urlPath mount indices = Ok [fieldsOf mount url].
Proof.
  intros Hc Hext. unfold getPathInfos. rewrite Hc, unique_singleton. simpl.
  rewrite (pathInfoOf_fields mount url Hext). reflexivity.
Qed.

(** X1. In every path info [getPathInfos] returns, [ext] and [selector]
    hold neither a dot nor a slash, and [name] holds no slash. *)
Theorem getPathInfos_clean_fields (cwd urlPath mount : string) (indices : list string)
    (infos : list PathInfo) :
  getPathInfos cwd urlPath mount indices = Ok infos →
  Forall (λ info,
            free "." (ext info) ∧ free "/" (ext info)
            ∧ free "." (selector info) ∧ free "/" (selector info)
            ∧ free "/" (name info)) infos.
Proof.
  intros H. apply Forall_forall. intros info Hin.
  destruct (getPathInfos_fields _ _ _ _ _ _ H Hin) as (url & _ & Hext & ->).
  pose proof (fieldsOf_ext_free mount url Hext) as [? ?].
  pose proof (fieldsOf_selector_free mount url Hext) as [? ?].
  pose proof (fieldsOf_name_free mount url Hext). auto.
Qed.

Lemma getPathInfos_clean_fields_witness :
  getPathInfos "/" "/docs/a.b.info.html" "/docs" ["index.html"]
  = Ok [ {| path := "/a.b.info.html"; name := "a.b"; selector := "info"; ext := "html";
            relPath := "/a.b" |} ]
  ∧ free "." "html" ∧ free "/" "a.b".
Proof.
  assert (H0 : getPathInfos "/" "/docs/a.b.info.html" "/docs" ["index.html"]
               = Ok [ {| path := "/a.b.info.html"; name := "a.b"; selector := "info";
                         ext := "html"; relPath := "/a.b" |} ])
    by (vm_compute; reflexivity).
  split; [exact H0 |].
  pose proof (getPathInfos_clean_fields "/" "/docs/a.b.info.html" "/docs" ["index.html"]
                _ H0) as H.
  apply Forall_inv in H. destruct H as (Hext & _ & _ & _ & Hname).
  split; [exact Hext | exact Hname].
Defined.

(** X2. In every path info [getPathInfos] returns, [path] is [relPath]
    followed by a dot and [ext], or by a dot, [selector], a dot and [ext];
    the stripping of the mount keeps this. *)
Theorem getPathInfos_path_recomposes (cwd urlPath mount : string) (indices : list string)
    (infos : list PathInfo) :
  getPathInfos cwd urlPath mount indices = Ok infos →
  Forall (λ info,
            path info = relPath info +:+ "." +:+ ext info
            ∨ path info = relPath info +:+ "." +:+ selector info +:+ "." +:+ ext info)
         infos.
Proof.
  intros H. apply Forall_forall. intros info Hin.
  destruct (getPathInfos_fields _ _ _ _ _ _ H Hin) as (url & _ & Hext & ->).
  apply fieldsOf_path, Hext.
Qed.

Lemma getPathInfos_path_recomposes_witness :
  getPathInfos "/" "/docs/a.info.html" "/docs" ["index.html"]
  = Ok [ {| path := "/a.info.html"; name := "a"; selector := "info"; ext := "html";
            relPath := "/a" |} ]
  ∧ ("/a.info.html" = "/a" +:+ "." +:+ "html"
     ∨ "/a.info.html" = "/a" +:+ "." +:+ "info" +:+ "." +:+ "html").
Proof.
  assert (H0 : getPathInfos "/" "/docs/a.info.html" "/docs" ["index.html"]
               = Ok [ {| path := "/a.info.html"; name := "a"; selector := "info";
                         ext := "html"; relPath := "/a" |} ])
    by (vm_compute; reflexivity).
  split; [exact H0 |].
  pose proof (getPathInfos_path_recomposes "/" "/docs/a.info.html" "/docs" ["index.html"]
                _ H0) as H.
  apply Forall_inv in H. exact H.
Defined.

(** X3. A path that does not end in a slash and has no dot after its last
    slash gives exactly one path info, with the extension [html], whatever
    the index names are. *)
Theorem getPathInfos_bare_path (cwd urlPath mount : string) (indices : list string) :
  let u := JS.replaceFirstSlashRun urlPath in
  u ≠ "" → JS.endsWith u "/" = false →
  JS.lastIndexOf u "." ≤ JS.lastIndexOf u "/" →
  ∃ info, getPathInfos cwd urlPath mount indices = Ok [info] ∧ ext info = "html".
Proof.
  intros u Hne Hends Hbare.
  assert (Hc : candidates cwd urlPath indices = [Path.resolve cwd [u] +:+ ".html"]).
  { unfold candidates. fold u. apply truthy_spec in Hne. rewrite Hne, Hends.
    destruct (Z.leb_spec (JS.lastIndexOf u ".") (JS.lastIndexOf u "/")); [reflexivity | lia]. }
  set (r := Path.resolve cwd [u]) in *.
  exists (fieldsOf mount (r +:+ ".html")).
  split; [apply getPathInfos_single; [exact Hc | apply hasExtension_html] |].
  unfold fieldsOf. cbn [ext].
  rewrite (lastIndexOf_app_present r ".html" ".") by (vm_compute; discriminate).
  change (JS.lastIndexOf ".html" ".") with 0.
  replace (Z.to_nat (JS.len r + 0 + 1)) with (String.length r + 1)%nat
    by (unfold JS.len; lia).
  rewrite drop_app. reflexivity.
Qed.

Lemma getPathInfos_bare_path_witness :
  JS.replaceFirstSlashRun "/docs/page" ≠ ""
  ∧ JS.endsWith (JS.replaceFirstSlashRun "/docs/page") "/" = false
  ∧ ∃ info, getPathInfos "/" "/docs/page" "" ["index.html"; "README.md"] = Ok [info]
            ∧ ext info = "html".
Proof.
  assert (Hne : JS.replaceFirstSlashRun "/docs/page" ≠ "") by discriminate.
  split; [exact Hne |]. split; [reflexivity |].
  apply (getPathInfos_bare_path "/" "/docs/page" "" ["index.html"; "README.md"] Hne eq_refl).
  vm_compute. discriminate.
Defined.

(** X4. For a path with a dot after its last slash, neither the index
    names nor the working directory matter: [getPathInfos] returns exactly
    one path info, whose [path] is the request path (its first run of
    slashes collapsed) when the mount is empty or the root. *)
Theorem getPathInfos_explicit_extension (cwd cwd' urlPath mount : string)
    (indices indices' : list string) :
  hasExtension (JS.replaceFirstSlashRun urlPath) →
  getPathInfos cwd urlPath mount indices = getPathInfos cwd' urlPath mount indices'
  ∧ ∃ info, getPathInfos cwd urlPath mount indices = Ok [info]
            ∧ (mount = "" ∨ mount = "/" → path info = JS.replaceFirstSlashRun urlPath).
Proof.
  intros Hext. set (u := JS.replaceFirstSlashRun urlPath) in *.
  assert (Hc : ∀ c i, candidates c urlPath i = [u]).
  { intros c i. unfold candidates. fold u. unfold hasExtension in Hext.
    destruct (Z.leb_spec (JS.lastIndexOf u ".") (JS.lastIndexOf u "/")); [lia | reflexivity]. }
  rewrite !(getPathInfos_single _ urlPath mount u _ (Hc _ _) Hext).
  split; [reflexivity |]. eexists. split; [reflexivity |].
  intros Hm. destruct (pathInfoOf_returns mount u Hext) as (info & Hinfo & Hpath).
  rewrite (pathInfoOf_fields mount u Hext) in Hinfo. injection Hinfo as <-. auto.
Qed.

Lemma getPathInfos_explicit_extension_witness :
  hasExtension (JS.replaceFirstSlashRun "//img/logo.png")
  ∧ getPathInfos "/" "//img/logo.png" "" ["index.html"]
    = getPathInfos "/srv" "//img/logo.png" "" []
  ∧ ∃ info, getPathInfos "/" "//img/logo.png" "" ["index.html"] = Ok [info]
            ∧ path info = "/img/logo.png".
Proof.
  assert (Hext : hasExtension (JS.replaceFirstSlashRun "//img/logo.png"))
    by (vm_compute; reflexivity).
  split; [exact Hext |].
  destruct (getPathInfos_explicit_extension "/" "/srv" "//img/logo.png" ""
              ["index.html"] [] Hext) as (Heq & info & Hinfo & Hpath).
  split; [exact Heq |]. exists info. split; [exact Hinfo |].
  apply Hpath. left. reflexivity.
Defined.

Lemma prefix_refl (s : string) : String.prefix s s = true.
Proof. rewrite <- (StrFacts.app_nil_r s) at 2. apply prefix_app. Qed.

Lemma drop_all (s : string) : JS.drop (String.length s) s = "".
Proof. induction s as [| a s IH]; [reflexivity | exact IH]. Qed.

Lemma lastIndexOf_head (c : ascii) (s : string) : 0 ≤ JS.lastIndexOf (String c s) c.
Proof.
  rewrite lastIndexOf_cons, Ascii.eqb_refl. pose proof (lastIndexOf_bounds s c).
  destruct (Z.leb_spec 0 (JS.lastIndexOf s c)); lia.
Qed.

(** X5. A path that lies under the mount, [mount/rest] with an extension,
    gives one path info whose [path] is [/rest]: the mount is stripped. *)
Theorem getPathInfos_strips_mount (cwd urlPath mount rest : string)
    (indices : list string) :
  mount ≠ "" → mount ≠ "/" →
  JS.replaceFirstSlashRun urlPath = mount +:+ String "/" rest →
  hasExtension (mount +:+ String "/" rest) →
  ∃ info, getPathInfos cwd urlPath mount indices = Ok [info]
          ∧ path info = String "/" rest.
Proof.
  intros Hm0 Hm1 Hu Hext. set (url := mount +:+ String "/" rest) in *.
  assert (Hc : candidates cwd urlPath indices = [url]).
  { unfold candidates. rewrite Hu. unfold hasExtension in Hext.
    destruct (Z.leb_spec (JS.lastIndexOf url ".") (JS.lastIndexOf url "/")); [lia | reflexivity]. }
  exists (fieldsOf mount url). split; [apply getPathInfos_single; assumption |].
  unfold hasExtension in Hext.
  pose proof (lastIndexOf_bounds url ".") as HD.
  pose proof (len_take_lastDot url) as Hlen.
  pose proof (lastIndexOf_bounds (JS.take (Z.to_nat (JS.lastIndexOf url ".")) url) ".") as HS.
  assert (Hls : JS.len mount ≤ JS.lastIndexOf url "/").
  { unfold url. rewrite lastIndexOf_app_present by apply lastIndexOf_head.
    pose proof (lastIndexOf_head "/" rest). lia. }
  unfold fieldsOf. cbn [path].
  set (cut := if JS.lastIndexOf url "/" <? _ then _ else JS.lastIndexOf url ".").
  assert (Hcut : JS.len mount + 1 ≤ cut).
  { unfold cut. destruct (Z.ltb_spec (JS.lastIndexOf url "/")
      (JS.lastIndexOf (JS.take (Z.to_nat (JS.lastIndexOf url ".")) url) ".")); lia. }
  apply truthy_spec in Hm0. apply String.eqb_neq in Hm1. rewrite Hm0, Hm1. simpl andb.
  replace (Z.to_nat cut)
    with (String.length mount + S (Z.to_nat cut - String.length mount - 1))%nat
    by (unfold JS.len in *; lia).
  unfold url at 1. rewrite take_app. simpl JS.take.
  replace (mount +:+ String "/" (JS.take (Z.to_nat cut - String.length mount - 1) rest))
    with ((mount +:+ "/") +:+ JS.take (Z.to_nat cut - String.length mount - 1) rest)
    by (rewrite StrFacts.app_assoc; reflexivity).
  unfold JS.startsWith. rewrite StrFacts.app_assoc, prefix_app.
  unfold url. rewrite <- (Nat.add_0_r (String.length mount)), drop_app. reflexivity.
Qed.

Lemma getPathInfos_strips_mount_witness :
  JS.replaceFirstSlashRun "/docs/guide/a.html" = "/docs" +:+ String "/" "guide/a.html"
  ∧ hasExtension ("/docs" +:+ String "/" "guide/a.html")
  ∧ ∃ info, getPathInfos "/" "/docs/guide/a.html" "/docs" ["index.html"] = Ok [info]
            ∧ path info = "/guide/a.html".
Proof.
  assert (Hext : hasExtension ("/docs" +:+ String "/" "guide/a.html"))
    by (vm_compute; reflexivity).
  split; [reflexivity |]. split; [exact Hext |].
  apply (getPathInfos_strips_mount "/" "/docs/guide/a.html" "/docs" "guide/a.html"
           ["index.html"]); [discriminate | discriminate | reflexivity | exact Hext].
Defined.

(** X6. A path that is the mount itself followed by an extension,
    [mount.e], passes the mount test as well: its path info has an empty
    [relPath] and the [path] [.e]. *)
Theorem getPathInfos_mount_with_extension (cwd urlPath mount e : string)
    (indices : list string) :
  mount ≠ "" → mount ≠ "/" →
  JS.lastIndexOf mount "." ≤ JS.lastIndexOf mount "/" →
  free "." e → free "/" e →
  JS.replaceFirstSlashRun urlPath = mount +:+ String "." e →
  ∃ info, getPathInfos cwd urlPath mount indices = Ok [info]
          ∧ path info = String "." e ∧ relPath info = "" ∧ ext info = e
          ∧ selector info = "".
Proof.
  unfold free. intros Hm0 Hm1 Hbare Hdot Hslash Hu. set (url := mount +:+ String "." e) in *.
  pose proof (lastIndexOf_bounds mount "/") as Hmb.
  assert (HD : JS.lastIndexOf url "." = JS.len mount).
  { unfold url. rewrite lastIndexOf_app_present by apply lastIndexOf_head.
    rewrite lastIndexOf_cons, Hdot, Ascii.eqb_refl. simpl. lia. }
  assert (Hls : JS.lastIndexOf url "/" = JS.lastIndexOf mount "/").
  { unfold url. apply lastIndexOf_app_absent. rewrite lastIndexOf_cons, Hslash. reflexivity. }
  assert (Hext : hasExtension url) by (unfold hasExtension; lia).
  assert (Hc : candidates cwd urlPath indices = [url]).
  { unfold candidates. rewrite Hu. unfold hasExtension in Hext.
    destruct (Z.leb_spec (JS.lastIndexOf url ".") (JS.lastIndexOf url "/")); [lia | reflexivity]. }
  exists (fieldsOf mount url). split; [apply getPathInfos_single; assumption |].
  assert (HR0 : JS.take (Z.to_nat (JS.lastIndexOf url ".")) url = mount).
  { rewrite HD. unfold JS.len. rewrite Nat2Z.id. unfold url.
    rewrite <- (Nat.add_0_r (String.length mount)), take_app.
    apply StrFacts.app_nil_r. }
  unfold fieldsOf. cbn [path relPath ext selector]. rewrite HR0, Hls.
  destruct (Z.ltb_spec (JS.lastIndexOf mount "/") (JS.lastIndexOf mount ".")); [lia |].
  rewrite HR0. apply truthy_spec in Hm0. apply String.eqb_neq in Hm1.
  rewrite Hm0, Hm1. unfold JS.startsWith. rewrite prefix_refl. simpl andb. cbv iota.
  rewrite drop_all. unfold url at 1.
  rewrite <- (Nat.add_0_r (String.length mount)) at 1. rewrite drop_app.
  split; [reflexivity |]. split; [reflexivity |]. split; [| reflexivity].
  rewrite HD. unfold url.
  replace (Z.to_nat (JS.len mount + 1)) with (String.length mount + 1)%nat
    by (unfold JS.len; lia).
  rewrite drop_app. reflexivity.
Qed.

Lemma getPathInfos_mount_with_extension_witness :
  JS.lastIndexOf "/docs" "." ≤ JS.lastIndexOf "/docs" "/"
  ∧ free "." "html" ∧ free "/" "html"
  ∧ ∃ info, getPathInfos "/" "/docs.html" "/docs" ["index.html"] = Ok [info]
            ∧ path info = ".html" ∧ relPath info = "".
Proof.
  assert (Hbare : JS.lastIndexOf "/docs" "." ≤ JS.lastIndexOf "/docs" "/")
    by (vm_compute; discriminate).
  split; [exact Hbare |]. split; [reflexivity |]. split; [reflexivity |].
  destruct (getPathInfos_mount_with_extension "/" "/docs.html" "/docs" "html" ["index.html"])
    as (info & Hinfo & Hpath & Hrel & _);
    [discriminate | discriminate | exact Hbare | reflexivity | reflexivity | reflexivity |].
  exists info. auto.
Defined.

(** ** [unique] *)

Lemma unique_fold_filter (l acc acc' : list string) :
  fold_left uniqueStep l (acc ++ acc')
  = acc ++ fold_left uniqueStep (filter (λ y, y ∉ acc) l) acc'.
Proof.
  revert acc'. induction l as [| a l IH]; intros acc'; [reflexivity |].
  simpl fold_left. unfold uniqueStep at 2.
  destruct (decide (a ∈ acc)) as [Ha | Ha].
  - rewrite bool_decide_eq_true_2 by (apply elem_of_app; auto).
    rewrite filter_cons_False by auto. apply IH.
  - rewrite filter_cons_True by exact Ha. simpl fold_left. unfold uniqueStep at 3.
    destruct (decide (a ∈ acc')) as [Ha' | Ha'].
    + rewrite !bool_decide_eq_true_2 by (try apply elem_of_app; auto). apply IH.
    + rewrite !bool_decide_eq_false_2 by (rewrite ?elem_of_app; tauto).
      rewrite <- List.app_assoc. apply IH.
Qed.

(** X7. [unique] returns a list without duplicates that has the elements
    of its argument and keeps their order. *)
Theorem unique_order_preserving_set (l : list string) :
  NoDup (unique l)
  ∧ (∀ x, x ∈ unique l ↔ x ∈ l)
  ∧ unique l `sublist_of` l.
Proof.
  split; [apply unique_fold_NoDup_inv, NoDup_nil_2 |].
  split; [intros x; apply unique_elem |].
  unfold unique. destruct (unique_fold_sublist l []) as (t & -> & Ht). exact Ht.
Qed.

(** X8. [unique] keeps the first occurrence of each element: the head
    stays and is removed from the rest. Hence it leaves its own results
    unchanged. *)
Theorem unique_first_occurrence (x : string) (l : list string) :
  unique (x :: l) = x :: unique (filter (λ y, y ≠ x) l)
  ∧ unique (unique l) = unique l.
Proof.
  split.
  - unfold unique. simpl fold_left. unfold uniqueStep at 2.
    rewrite bool_decide_eq_false_2 by apply not_elem_of_nil.
    change ([] ++ [x]) with ([x] ++ @nil string).
    rewrite unique_fold_filter. simpl. f_equal. f_equal.
    apply list_filter_iff. intros y. rewrite list_elem_of_singleton. reflexivity.
  - apply unique_NoDup, unique_fold_NoDup_inv, NoDup_nil_2.
Qed.

(** ** More on the resolver policies *)

(** X9. [defaultResolver] never changes the store; it resolves with the
    very reference it was given, a [null] response included; and an error
    it rejects with has a status code of 400 or more that is never 502. *)
Theorem defaultResolver_outcome (res : option loc) (h : store) :
  snd (defaultResolver res h) = h
  ∧ (∀ v, fst (defaultResolver res h) = Resolves v → v = res)
  ∧ (res = None → fst (defaultResolver res h) = Resolves None)
  ∧ (∀ e, fst (defaultResolver res h) = Rejects e →
       400 ≤ Err.statusCode e ∧ Err.statusCode e ≠ 502).
Proof.
  unfold defaultResolver.
  destruct (res ≫= λ l, h !! l) as [r |] eqn:Hr.
  - destruct (Z.leb_spec 400 (Res.statusCode r)) as [Hge | Hlt].
    + split; [reflexivity |]. split; [discriminate |].
      split; [intros ->; discriminate |].
      intros e [= <-]. cbn [Err.statusCode].
      destruct (Z.eqb_spec (Res.statusCode r) 502); lia.
    + split; [reflexivity |]. split; [intros v [= <-]; reflexivity |].
      split; [intros ->; reflexivity | discriminate].
  - split; [reflexivity |]. split; [intros v [= <-]; reflexivity |].
    split; [intros ->; reflexivity | discriminate].
Qed.

Lemma defaultResolver_outcome_witness :
  fst (defaultResolver (Some 1%positive) (sampleStore 502))
  = Rejects {| Err.message :=
                 "[3] Error invoking helix-services/static@v1(adobe/helix-pages/main/a.html): 502";
               Err.statusCode := 504 |}
  ∧ 400 ≤ 504 ∧ 504 ≠ 502.
Proof.
  assert (H0 : fst (defaultResolver (Some 1%positive) (sampleStore 502))
               = Rejects {| Err.message :=
                   "[3] Error invoking helix-services/static@v1(adobe/helix-pages/main/a.html): 502";
                   Err.statusCode := 504 |}) by (vm_compute; reflexivity).
  split; [exact H0 |].
  destruct (defaultResolver_outcome (Some 1%positive) (sampleStore 502)) as (_ & _ & _ & H).
  exact (H _ H0).
Defined.

(** X10. A response with status code 200 that [errorPageResolver] has
    accepted is a 404 response afterwards: handing the same reference to
    [errorPageResolver] or to [defaultResolver] once more rejects it with
    status code 404. *)
Theorem errorPageResolver_second_pass (h : store) (l : loc) (r : Res.t) :
  h !! l = Some r → Res.statusCode r = 200 →
  ∃ h' e,
    errorPageResolver (Some l) h = (Resolves (Some l), h')
    ∧ errorPageResolver (Some l) h' = (Rejects e, h')
    ∧ defaultResolver (Some l) h' = (Rejects e, h')
    ∧ Err.statusCode e = 404.
Proof.
  intros Hl H200.
  set (r' := Res.withStatusCode r 404). set (h' := <[l := r']> h).
  assert (Hl' : h' !! l = Some r') by apply lookup_insert_eq.
  destruct (defaultResolver_rejects h' l r' Hl') as (e & He & Hcode & _);
    [simpl; lia |].
  exists h', e. split; [apply errorPageResolver_rewrites; assumption |].
  split; [| split; [exact He | rewrite Hcode; reflexivity]].
  rewrite (errorPageResolver_delegates h' l r' Hl'); [exact He | simpl; lia].
Qed.

Lemma errorPageResolver_second_pass_witness :
  sampleStore 200 !! 1%positive = Some (sampleResponse 200)
  ∧ Res.statusCode (sampleResponse 200) = 200
  ∧ ∃ h' e, errorPageResolver (Some 1%positive) (sampleStore 200)
            = (Resolves (Some 1%positive), h')
            ∧ errorPageResolver (Some 1%positive) h' = (Rejects e, h')
            ∧ Err.statusCode e = 404.
Proof.
  split; [reflexivity |]. split; [reflexivity |].
  destruct (errorPageResolver_second_pass (sampleStore 200) 1%positive (sampleResponse 200)
              eq_refl eq_refl) as (h' & e & H1 & H2 & _ & H4).
  exists h', e. auto.
Defined.

(** X11. Whatever the response, [errorPageResolver] either resolves with
    the reference it was given, and then the stored status code is never
    200: it is 404 or below 400; or it rejects with a status code of 400 or
    more that is never 502, and then the store is as before. *)
Theorem errorPageResolver_outcome (h : store) (l : loc) (r : Res.t) :
  h !! l = Some r →
  (∃ h' r', errorPageResolver (Some l) h = (Resolves (Some l), h')
            ∧ h' !! l = Some r'
            ∧ Res.statusCode r' ≠ 200
               ∧ (Res.statusCode r' < 400 ∨ Res.statusCode r' = 404))
  ∨ (∃ e, errorPageResolver (Some l) h = (Rejects e, h)
          ∧ 400 ≤ Err.statusCode e ∧ Err.statusCode e ≠ 502).
Proof.
  intros Hl. destruct (Z.eq_dec (Res.statusCode r) 200) as [H200 | Hne].
  - left. exists (<[l := Res.withStatusCode r 404]> h), (Res.withStatusCode r 404).
    split; [apply errorPageResolver_rewrites; assumption |].
    split; [apply lookup_insert_eq |]. simpl. split; [lia | right; reflexivity].
  - rewrite (errorPageResolver_delegates h l r Hl Hne).
    destruct (Z.lt_ge_cases (Res.statusCode r) 400) as [Hlt | Hge].
    + left. exists h, r. split; [apply (defaultResolver_accepts h l r Hl Hlt) |]. auto.
    + right. destruct (defaultResolver_rejects h l r Hl Hge) as (e & He & Hcode & _).
      exists e. split; [exact He |]. rewrite Hcode.
      destruct (Z.eqb_spec (Res.statusCode r) 502); lia.
Qed.

Lemma errorPageResolver_outcome_witness :
  sampleStore 302 !! 1%positive = Some (sampleResponse 302)
  ∧ ((∃ h' r', errorPageResolver (Some 1%positive) (sampleStore 302)
               = (Resolves (Some 1%positive), h')
               ∧ h' !! 1%positive = Some r'
               ∧ Res.statusCode r' ≠ 200
               ∧ (Res.statusCode r' < 400 ∨ Res.statusCode r' = 404))
     ∨ (∃ e, errorPageResolver (Some 1%positive) (sampleStore 302)
             = (Rejects e, sampleStore 302)
             ∧ 400 ≤ Err.statusCode e ∧ Err.statusCode e ≠ 502)).
Proof.
  split; [reflexivity |].
  exact (errorPageResolver_outcome (sampleStore 302) 1%positive (sampleResponse 302) eq_refl).
Defined.

(** ** More on [resolveRef] *)

Section RefResolverMore.

Variable service : nat → Invoke.t → Outcome.
Variables (opts wskOpts : jsobj) (log : option Logger) (w : World).
Hypothesis Hty : stringOrFalsy (prop opts "ref").

Lemma refIsSha_shaRef : refIsSha (prop opts "ref") = Ok (shaRef (prop opts "ref")).
Proof using Hty. apply refIsSha_typed, Hty. Qed.

Lemma resolveRef_of_sha :
  shaRef (prop opts "ref") = true →
  resolveRef service opts wskOpts log w
  = (Fulfilled {[ "ref" := prop opts "ref" ]}, enter opts w).
Proof using Hty. intros H. unfold resolveRef. rewrite refIsSha_shaRef, H. reflexivity. Qed.

Lemma resolveRef_resolved (res : RefResponse) (sha : string) :
  shaRef (prop opts "ref") = false →
  service (length (invocations w)) (resolveRequest opts wskOpts) = Returned res →
  bodySha (res_body res) = Some sha →
  resolveRef service opts wskOpts log w
  = (Fulfilled {[ "ref" := JStr sha; "branch" := prop opts "ref" ]},
     send (resolveRequest opts wskOpts) (enter opts w)).
Proof using Hty.
  intros H Hsvc Hsha. unfold resolveRef. rewrite refIsSha_shaRef, H.
  change (service (length (invocations (enter opts w))) _)
    with (service (length (invocations w)) (resolveRequest opts wskOpts)).
  rewrite Hsvc, Hsha. reflexivity.
Qed.

End RefResolverMore.

(** X12. [resolveRef] logs nothing when the ref is a sha or the service
    resolves it. With a logger, a response without a usable sha is logged
    in one line, at level [info] when its status code is present, not zero
    and below 500, and at level [error] otherwise; an exception is logged
    in one line at level [error]. Without a logger nothing is logged. *)
Theorem resolveRef_logging (service : nat → Invoke.t → Outcome)
    (opts wskOpts : jsobj) (log : option Logger) (w : World) :
  stringOrFalsy (prop opts "ref") →
  let ref := prop opts "ref" in
  let w' := snd (resolveRef service opts wskOpts log w) in
  (shaRef ref = true → logged w' = logged w)
  ∧ (shaRef ref = false →
     match service (length (invocations w)) (resolveRequest opts wskOpts) with
     | Returned res =>
         match bodySha (res_body res) with
         | Some _ => logged w' = logged w
         | None =>
             match log with
             | Some _ =>
                 ∃ msg, logged w' = logged w ++ [(failureLevel (res_statusCode res), msg)]
             | None => logged w' = logged w
             end
         end
     | Raised e =>
         match log with
         | Some _ =>
             logged w'
             = logged w ++ [(LError, "Unable to resolve ref " +:+ tpl ref +:+ ": " +:+ e)]
         | None => logged w' = logged w
         end
     end)
  ∧ (∀ status, failureLevel status = LInfo
               ↔ ∃ code, status = Some code ∧ code ≠ 0 ∧ code < 500).
Proof.
  intros Hty ref w'. split; [| split].
  - intros Hsha. unfold w'. rewrite (resolveRef_of_sha service opts wskOpts log w Hty Hsha).
    reflexivity.
  - intros Hsha. unfold w', resolveRef.
    rewrite (refIsSha_shaRef opts Hty). fold ref. rewrite Hsha.
    change (service (length (invocations (enter opts w))) _)
      with (service (length (invocations w)) (resolveRequest opts wskOpts)).
    destruct (service (length (invocations w)) (resolveRequest opts wskOpts)) as [res | e].
    + destruct (bodySha (res_body res)); [reflexivity |].
      destruct log as [[] |]; [eexists |]; reflexivity.
    + destruct log as [[] |]; reflexivity.
  - intros [code |]; simpl; [| split; [discriminate | intros (c & [=] & _)]].
    destruct (Z.eqb_spec code 0) as [-> | Hne]; simpl.
    + split; [discriminate | intros (c & [= <-] & H0 & _); contradiction].
    + destruct (Z.leb_spec 500 code).
      * split; [discriminate | intros (c & [= <-] & _ & Hlt); lia].
      * split; [intros _; exists code; auto | reflexivity].
Qed.

Lemma resolveRef_logging_witness :
  stringOrFalsy (prop branchOpts "ref")
  ∧ shaRef (prop branchOpts "ref") = false
  ∧ logged (snd (resolveRef downService branchOpts ∅ (Some WrapperLogger) emptyWorld))
    = [(LError, "Unable to resolve ref main: Error: unavailable")]
  ∧ logged (snd (resolveRef downService branchOpts ∅ None emptyWorld)) = [].
Proof.
  split; [exact I |]. split; [reflexivity |]. split.
  - destruct (resolveRef_logging downService branchOpts ∅ (Some WrapperLogger) emptyWorld I)
      as (_ & H & _).
    exact (H eq_refl).
  - destruct (resolveRef_logging downService branchOpts ∅ None emptyWorld I) as (_ & H & _).
    exact (H eq_refl).
Defined.

(** ** More on [fetchers] *)

Lemma lookup_assign (o src : jsobj) (k : string) :
  assign o src !! k = match src !! k with Some v => Some v | None => o !! k end.
Proof.
  unfold assign. rewrite lookup_union. destruct (src !! k), (o !! k); reflexivity.
Qed.

Section OptionObjectsMore.

Variable params : Params.t.

Lemma staticOptsOf_more :
  staticOptsOf params !! "esi" = Some (Params.static_esi params)
  ∧ staticOptsOf params !! "root" = Some (Params.static_root params)
  ∧ staticOptsOf params !! "GITHUB_TOKEN"
    = (if truthy (extractGithubToken params) then Some (extractGithubToken params)
       else None)
  ∧ staticOptsOf params !! "__ow_headers" = None
  ∧ staticOptsOf params !! "__ow_method" = None
  ∧ staticOptsOf params !! "branch" = None.
Proof. unfold staticOptsOf. destruct (truthy _); repeat split; reflexivity. Qed.

Lemma contentOptsOf_more :
  contentOptsOf params !! "esi" = None
  ∧ contentOptsOf params !! "root" = None
  ∧ contentOptsOf params !! "GITHUB_TOKEN"
    = (if truthy (extractGithubToken params) then Some (extractGithubToken params)
       else None)
  ∧ contentOptsOf params !! "__ow_headers" = None
  ∧ contentOptsOf params !! "__ow_method" = None
  ∧ contentOptsOf params !! "branch" = None.
Proof. unfold contentOptsOf. destruct (truthy _); repeat split; reflexivity. Qed.

Lemma wskOptsOf_lookup :
  wskOptsOf params !! "__ow_headers"
  = Some (from_option JObj JUndefined (Params.__ow_headers params))
  ∧ wskOptsOf params !! "__ow_method" = Some (Params.__ow_method params).
Proof. split; reflexivity. Qed.

(** The parameter wins; the header is read when the parameter is absent or
    empty. *)
Lemma extractGithubToken_cases :
  (∀ token, Params.GITHUB_TOKEN params = Some token → token ≠ "" →
     extractGithubToken params = JStr token)
  ∧ (strOr (Params.GITHUB_TOKEN params) "" = "" →
     extractGithubToken params = ofOpt (headerToken params)).
Proof.
  unfold extractGithubToken, headerToken. split.
  - intros token -> Hne. destruct token; [contradiction | reflexivity].
  - destruct (Params.GITHUB_TOKEN params) as [[| a token] |],
      (Params.__ow_headers params); simpl; try discriminate; reflexivity.
Qed.

Lemma tokenProperty_cases :
  let property :=
    if truthy (extractGithubToken params) then Some (extractGithubToken params)
    else None in
  (∀ token, Params.GITHUB_TOKEN params = Some token → token ≠ "" →
     property = Some (JStr token))
  ∧ (strOr (Params.GITHUB_TOKEN params) "" = "" →
     ∀ token, headerToken params = Some token → token ≠ "" →
       property = Some (JStr token))
  ∧ (strOr (Params.GITHUB_TOKEN params) "" = "" → strOr (headerToken params) "" = "" →
     property = None).
Proof.
  destruct extractGithubToken_cases as [Hparam Hheader]. split; [| split].
  - intros token Ht Hne. rewrite (Hparam token Ht Hne).
    destruct token; [contradiction | reflexivity].
  - intros Hno token Ht Hne. rewrite (Hheader Hno), Ht.
    destruct token; [contradiction | reflexivity].
  - intros Hno Hnone. rewrite (Hheader Hno).
    destruct (headerToken params) as [[| a token] |]; simpl in *;
      [reflexivity | discriminate | reflexivity].
Qed.

Ltac literal_keys :=
  intros k ? ? ? ? ?; repeat (rewrite lookup_insert_ne by congruence);
  apply lookup_singleton_ne; congruence.

(** A task settles as the promises it is built on: fulfilled, its
    [params] are a literal overridden by [wskOpts] and then by the options
    of one repository; rejected, it carries the error of a promise. *)
Lemma task_settles (infos : list PathInfo) (contentPromise staticPromise : promise jsobj)
    (idxOffset : nat) (tasks404 : list (promise Task.t)) (task : promise Task.t) :
  fetch404tasks infos (wskOptsOf params) contentPromise staticPromise idxOffset
  = Ok tasks404 →
  task ∈ (fetchrawtasks infos params contentPromise (wskOptsOf params)
          ++ fetchactiontasks infos (wskOptsOf params) contentPromise params
          ++ fetchfallbacktasks infos (wskOptsOf params) contentPromise staticPromise)
         ++ tasks404 →
  (∃ d literal opts,
     task = Fulfilled d
     ∧ Task.params d = assign (assign literal (wskOptsOf params)) opts
     ∧ (contentPromise = Fulfilled opts ∨ staticPromise = Fulfilled opts)
     ∧ taskLiteral literal)
  ∨ (∃ e, task = Rejected e ∧ (contentPromise = Rejected e ∨ staticPromise = Rejected e)).
Proof.
  intros H404. unfold fetchrawtasks, fetchactiontasks, fetchfallbacktasks.
  rewrite !elem_of_app. intros [[H | [H | H]] | H].
  - apply list_elem_of_fmap in H as (info & -> & _).
    destruct contentPromise as [cOpts | e]; [left | right; eauto].
    eexists _, _, cOpts. split; [reflexivity |]. split; [reflexivity |].
    split; [auto | literal_keys].
  - apply list_elem_of_fmap in H as (info & -> & _).
    destruct contentPromise as [cOpts | e]; [left | right; eauto].
    eexists _, _, cOpts. split; [reflexivity |]. split; [reflexivity |].
    split; [auto | literal_keys].
  - apply list_elem_of_fmap in H as (info & -> & _).
    destruct staticPromise as [sOpts | e]; [| right; eauto].
    destruct contentPromise as [cOpts | e]; [left | right; eauto].
    eexists _, _, sOpts. split; [reflexivity |]. split; [reflexivity |].
    split; [auto | literal_keys].
  - unfold fetch404tasks in H404. destruct infos as [| info0 infos']; [discriminate |].
    destruct (String.eqb (ext info0) "html"); injection H404 as <-;
      [| apply elem_of_nil in H; contradiction].
    apply elem_of_cons in H as [-> | H].
    + destruct contentPromise as [cOpts | e]; [left | right; eauto].
      eexists _, _, cOpts. split; [reflexivity |]. split; [reflexivity |].
      split; [auto | literal_keys].
    + apply list_elem_of_singleton in H as ->.
      destruct staticPromise as [sOpts | e]; [| right; eauto].
      destruct contentPromise as [cOpts | e]; [left | right; eauto].
      eexists _, _, sOpts. split; [reflexivity |]. split; [reflexivity |].
      split; [auto | literal_keys].
Qed.

(** Every task built on fulfilled promises is fulfilled. *)
Lemma task_shape (infos : list PathInfo) (cOpts sOpts : jsobj) (idxOffset : nat)
    (tasks404 : list (promise Task.t)) (task : promise Task.t) :
  fetch404tasks infos (wskOptsOf params) (Fulfilled cOpts) (Fulfilled sOpts) idxOffset
  = Ok tasks404 →
  task ∈ baseOf params infos cOpts sOpts ++ tasks404 →
  ∃ d literal opts,
    task = Fulfilled d
    ∧ Task.params d = assign (assign literal (wskOptsOf params)) opts
    ∧ (opts = cOpts ∨ opts = sOpts)
    ∧ taskLiteral literal.
Proof.
  intros H404 Htask.
  destruct (task_settles infos _ _ _ tasks404 task H404 Htask)
    as [(d & literal & opts & -> & Hp & Hopts & Hlit) | (e & _ & [[=] | [=]])].
  exists d, literal, opts. split; [reflexivity |]. split; [exact Hp |].
  split; [| exact Hlit]. destruct Hopts as [[= ->] | [= ->]]; auto.
Qed.

End OptionObjectsMore.

(** The plan of [fetchers], with the results of the two resolutions. *)
Lemma fetchers_tasks (cwd : string) (service : nat → Invoke.t → Outcome)
    (params : Params.t) (w w' : World) (infos : list PathInfo) (sr cr : jsobj) :
  pathInfosOf cwd params = Ok infos →
  resolvers service (staticOptsOf params) (contentOptsOf params) (wskOptsOf params)
    (Params.__ow_logger params) w
  = (Fulfilled sr, Fulfilled cr, w') →
  ∃ plan,
    fetchers cwd service params w = (Ok plan, w')
    ∧ base plan
      = baseOf params infos (assign (contentOptsOf params) cr)
          (assign (staticOptsOf params) sr)
    ∧ ∀ task, task ∈ tasksOf plan →
        ∃ d literal o r,
          task = Fulfilled d
          ∧ Task.params d = assign (assign literal (wskOptsOf params)) (assign o r)
          ∧ (o = contentOptsOf params ∧ r = cr ∨ o = staticOptsOf params ∧ r = sr)
          ∧ taskLiteral literal.
Proof.
  intros Hinfos Hres.
  destruct (fetchers_returns cwd service params w w' infos (Fulfilled sr) (Fulfilled cr)
              Hinfos Hres) as (tasks404 & H404 & Hfetch).
  eexists. split; [exact Hfetch |]. split; [reflexivity |].
  intros task Htask. unfold tasksOf in Htask. cbn [base fetch404] in Htask.
  destruct (task_shape params infos _ _ _ tasks404 task H404 Htask)
    as (d & literal & opts & -> & Hp & Hopts & Hlit).
  destruct Hopts as [-> | ->]; eexists d, literal, _, _;
    (split; [reflexivity |]; split; [exact Hp |]; split; [| exact Hlit]); auto.
Qed.

(** The plan of [fetchers], however the two resolutions settle: a task is
    fulfilled on the result of a fulfilled resolution, or rejected with the
    error of a rejected one. *)
Lemma fetchers_settled (cwd : string) (service : nat → Invoke.t → Outcome)
    (params : Params.t) (w : World) (infos : list PathInfo) :
  pathInfosOf cwd params = Ok infos →
  ∃ plan w' sp cp,
    fetchers cwd service params w = (Ok plan, w')
    ∧ resolvers service (staticOptsOf params) (contentOptsOf params) (wskOptsOf params)
        (Params.__ow_logger params) w
      = (sp, cp, w')
    ∧ settlement (Params.__ow_logger params) sp
    ∧ settlement (Params.__ow_logger params) cp
    ∧ ∀ task, task ∈ tasksOf plan →
        (∃ d literal o r,
           task = Fulfilled d
           ∧ Task.params d = assign (assign literal (wskOptsOf params)) (assign o r)
           ∧ (o = contentOptsOf params ∧ cp = Fulfilled r
              ∨ o = staticOptsOf params ∧ sp = Fulfilled r)
           ∧ onlyRef r
           ∧ taskLiteral literal)
        ∨ (∃ e, task = Rejected e ∧ (cp = Rejected e ∨ sp = Rejected e)).
Proof.
  intros Hinfos.
  destruct (resolvers_settled service params w) as (sp & cp & w' & Hres & Hsp & Hcp).
  destruct (fetchers_returns cwd service params w w' infos sp cp Hinfos Hres)
    as (tasks404 & H404 & Hfetch).
  eexists _, w', sp, cp. split; [exact Hfetch |]. split; [exact Hres |].
  split; [exact Hsp |]. split; [exact Hcp |].
  intros task Htask. unfold tasksOf in Htask. cbn [base fetch404] in Htask.
  destruct (task_settles params infos _ _ _ tasks404 task H404 Htask)
    as [(d & literal & opts & -> & Hp & Hopts & Hlit) | (e & -> & Hrej)].
  - left. destruct Hopts as [Hopts | Hopts].
    + destruct cp as [cr | ec]; [| discriminate]. injection Hopts as <-.
      eexists d, literal, _, cr. split; [reflexivity |]. split; [exact Hp |]. auto.
    + destruct sp as [sr | es]; [| discriminate]. injection Hopts as <-.
      eexists d, literal, _, sr. split; [reflexivity |]. split; [exact Hp |]. auto.
  - right. exists e. split; [reflexivity |]. destruct Hrej as [Hrej | Hrej].
    + destruct cp; [discriminate |]. injection Hrej as ->. auto.
    + destruct sp; [discriminate |]. injection Hrej as ->. auto.
Qed.

(** X13. Whenever the path infos of the request exist, every descriptor
    of the plan carries the inbound [__ow_headers] and [__ow_method]
    unchanged, and carries the GitHub token as [GITHUB_TOKEN] when the
    token is truthy: the [GITHUB_TOKEN] parameter when that is not empty,
    whatever the headers; otherwise the [x-github-token] header when that
    is not empty; otherwise the descriptor has no [GITHUB_TOKEN] property.
    With a logger every task of the plan fulfils with a descriptor. *)
Theorem fetchers_passes_request_on (cwd : string) (service : nat → Invoke.t → Outcome)
    (params : Params.t) (w : World) (infos : list PathInfo) :
  pathInfosOf cwd params = Ok infos →
  ∃ plan w',
    fetchers cwd service params w = (Ok plan, w')
    ∧ (Params.__ow_logger params ≠ None →
       ∀ task, task ∈ tasksOf plan → ∃ d, task = Fulfilled d)
    ∧ ∀ task d, task ∈ tasksOf plan → task = Fulfilled d →
        Task.params d !! "__ow_headers"
        = Some (from_option JObj JUndefined (Params.__ow_headers params))
        ∧ Task.params d !! "__ow_method" = Some (Params.__ow_method params)
        ∧ Task.params d !! "GITHUB_TOKEN"
          = (if truthy (extractGithubToken params)
             then Some (extractGithubToken params) else None)
        ∧ (∀ token, Params.GITHUB_TOKEN params = Some token → token ≠ "" →
             Task.params d !! "GITHUB_TOKEN" = Some (JStr token))
        ∧ (strOr (Params.GITHUB_TOKEN params) "" = "" →
           ∀ token, headerToken params = Some token → token ≠ "" →
             Task.params d !! "GITHUB_TOKEN" = Some (JStr token))
        ∧ (strOr (Params.GITHUB_TOKEN params) "" = "" →
           strOr (headerToken params) "" = "" →
           Task.params d !! "GITHUB_TOKEN" = None).
Proof.
  intros Hinfos.
  destruct (fetchers_settled cwd service params w infos Hinfos)
    as (plan & w' & sp & cp & Hfetch & _ & Hsp & Hcp & Htasks).
  exists plan, w'. split; [exact Hfetch |]. split.
  { intros Hlog task Htask.
    destruct (settlement_logger _ sp Hlog Hsp) as (sr & -> & _).
    destruct (settlement_logger _ cp Hlog Hcp) as (cr & -> & _).
    destruct (Htasks task Htask) as [(d & _ & _ & _ & -> & _) | (e & _ & [[=] | [=]])].
    eauto. }
  intros task d0 Htask ->.
  destruct (Htasks _ Htask)
    as [(d & literal & o & r & [= <-] & Hp & Hor & Hr & Hlit) | (e & [=] & _)].
  assert (Htoken : Task.params d0 !! "__ow_headers"
                   = Some (from_option JObj JUndefined (Params.__ow_headers params))
                   ∧ Task.params d0 !! "__ow_method" = Some (Params.__ow_method params)
                   ∧ Task.params d0 !! "GITHUB_TOKEN"
                     = (if truthy (extractGithubToken params)
                        then Some (extractGithubToken params) else None)).
  { rewrite Hp, !lookup_assign.
    destruct (staticOptsOf_more params) as (_ & _ & Hst & Hsh & Hsm & _).
    destruct (contentOptsOf_more params) as (_ & _ & Hct & Hch & Hcm & _).
    destruct (wskOptsOf_lookup params) as (Hwh & Hwm).
    rewrite Hwh, Hwm, (wskOptsOf_keys params "GITHUB_TOKEN") by discriminate.
    rewrite (Hlit "GITHUB_TOKEN") by discriminate.
    rewrite !(Hr _) by discriminate.
    destruct Hor as [[-> _] | [-> _]].
    - rewrite Hct, Hch, Hcm. destruct (truthy (extractGithubToken params)); auto.
    - rewrite Hst, Hsh, Hsm. destruct (truthy (extractGithubToken params)); auto. }
  destruct Htoken as (Hh & Hm & Ht). rewrite Ht.
  destruct (tokenProperty_cases params) as (H1 & H2 & H3). auto 10.
Qed.

Lemma fetchers_passes_request_on_witness :
  (∃ plan w' d rest,
     fetchers "/" downService twoRepoParams emptyWorld = (Ok plan, w')
     ∧ tasksOf plan = Fulfilled d :: rest
     ∧ Task.params d !! "GITHUB_TOKEN" = Some (JStr "param-token")
     ∧ Task.params d !! "__ow_headers"
       = Some (JObj {[ "x-github-token" := "header-token" ]})
     ∧ Task.params d !! "__ow_method" = Some (JStr "get"))
  ∧ (∃ plan w' d rest,
       fetchers "/" shaService headerTokenParams emptyWorld = (Ok plan, w')
       ∧ tasksOf plan = Fulfilled d :: rest
       ∧ Task.params d !! "GITHUB_TOKEN" = Some (JStr "header-token")).
Proof.
  split.
  - assert (H0 : pathInfosOf "/" twoRepoParams
                 = Ok [ {| path := "/docs/index.html"; name := "index"; selector := "";
                           ext := "html"; relPath := "/docs/index" |} ])
      by (vm_compute; reflexivity).
    destruct (fetchers_passes_request_on "/" downService twoRepoParams emptyWorld _ H0)
      as (plan & w' & Hfetch & _ & Htasks).
    assert (Hplan : ∃ d rest, tasksOf plan = Fulfilled d :: rest).
    { revert Hfetch. vm_compute. intros [= <- _]. eexists _, _. reflexivity. }
    destruct Hplan as (d & rest & Hplan).
    destruct (Htasks (Fulfilled d) d) as (Hh & Hm & _ & Hparam & _);
      [rewrite Hplan; apply elem_of_cons; left; reflexivity | reflexivity |].
    exists plan, w', d, rest. split; [exact Hfetch |]. split; [exact Hplan |].
    split; [apply Hparam; [reflexivity | discriminate] |]. split; [exact Hh | exact Hm].
  - assert (H0 : pathInfosOf "/" headerTokenParams
                 = Ok [ {| path := "/index.html"; name := "index"; selector := "";
                           ext := "html"; relPath := "/index" |} ])
      by (vm_compute; reflexivity).
    destruct (fetchers_passes_request_on "/" shaService headerTokenParams emptyWorld _ H0)
      as (plan & w' & Hfetch & _ & Htasks).
    assert (Hplan : ∃ d rest, tasksOf plan = Fulfilled d :: rest).
    { revert Hfetch. vm_compute. intros [= <- _]. eexists _, _. reflexivity. }
    destruct Hplan as (d & rest & Hplan).
    destruct (Htasks (Fulfilled d) d) as (_ & _ & _ & _ & Hheader & _);
      [rewrite Hplan; apply elem_of_cons; left; reflexivity | reflexivity |].
    exists plan, w', d, rest. split; [exact Hfetch |]. split; [exact Hplan |].
    apply Hheader; [reflexivity | reflexivity | discriminate].
Defined.

Lemma resolvers_of_shas (service : nat → Invoke.t → Outcome) (params : Params.t)
    (w : World) :
  shaRef (ofOpt (Params.static_ref params)) = true →
  shaRef (ofOpt (Params.content_ref params)) = true →
  ∃ cref w',
    resolvers service (staticOptsOf params) (contentOptsOf params) (wskOptsOf params)
      (Params.__ow_logger params) w
    = (Fulfilled {[ "ref" := ofOpt (Params.static_ref params) ]},
       Fulfilled {[ "ref" := cref ]}, w')
    ∧ (cref = ofOpt (Params.static_ref params) ∨ cref = ofOpt (Params.content_ref params))
    ∧ invocations w' = invocations w ∧ logged w' = logged w.
Proof.
  intros Hs Hc.
  assert (Hsref : prop (staticOptsOf params) "ref" = ofOpt (Params.static_ref params)).
  { unfold prop. destruct (staticOptsOf_coordinate params) as (_ & _ & -> & _). reflexivity. }
  assert (Hcref : prop (contentOptsOf params) "ref" = ofOpt (Params.content_ref params)).
  { unfold prop. destruct (contentOptsOf_coordinate params) as (_ & _ & -> & _). reflexivity. }
  unfold resolvers.
  rewrite (resolveRef_of_sha service (staticOptsOf params) (wskOptsOf params) _ w)
    by (rewrite Hsref; first [apply stringOrFalsy_ofOpt | exact Hs]).
  rewrite Hsref.
  destruct (equalRepository _ _).
  - eexists _, _. split; [reflexivity |]. auto.
  - rewrite (resolveRef_of_sha service (contentOptsOf params) (wskOptsOf params))
      by (rewrite Hcref; first [apply stringOrFalsy_ofOpt | exact Hc]).
    rewrite Hcref. eexists _, _. split; [reflexivity |]. auto.
Qed.

(** X14. When the static and the content ref are both shas, [fetchers]
    sends nothing to the ref-resolution service and logs nothing, and every
    task of the plan carries one of the two refs as it was given, without a
    [branch] property. *)
Theorem fetchers_with_sha_refs (cwd : string) (service : nat → Invoke.t → Outcome)
    (params : Params.t) (w : World) (infos : list PathInfo) :
  pathInfosOf cwd params = Ok infos →
  shaRef (ofOpt (Params.static_ref params)) = true →
  shaRef (ofOpt (Params.content_ref params)) = true →
  ∃ plan w',
    fetchers cwd service params w = (Ok plan, w')
    ∧ invocations w' = invocations w
    ∧ logged w' = logged w
    ∧ ∀ task, task ∈ tasksOf plan →
        ∃ d, task = Fulfilled d
             ∧ Task.params d !! "branch" = None
             ∧ (Task.params d !! "ref" = Some (ofOpt (Params.static_ref params))
                ∨ Task.params d !! "ref" = Some (ofOpt (Params.content_ref params))).
Proof.
  intros Hinfos Hs Hc.
  destruct (resolvers_of_shas service params w Hs Hc)
    as (cref & w' & Hres & Hcref & Hinv & Hlog).
  destruct (fetchers_tasks cwd service params w w' infos _ _ Hinfos Hres)
    as (plan & Hfetch & _ & Htasks).
  exists plan, w'. split; [exact Hfetch |]. split; [exact Hinv |]. split; [exact Hlog |].
  intros task Htask.
  destruct (Htasks task Htask) as (d & literal & o & r & -> & Hp & Hor & Hlit).
  exists d. split; [reflexivity |]. rewrite Hp, !lookup_assign.
  destruct (staticOptsOf_more params) as (_ & _ & _ & _ & _ & Hsb).
  destruct (contentOptsOf_more params) as (_ & _ & _ & _ & _ & Hcb).
  rewrite (wskOptsOf_keys params "branch"), (Hlit "branch") by discriminate.
  destruct Hor as [[-> ->] | [-> ->]].
  - rewrite lookup_singleton_ne by discriminate. rewrite Hcb, lookup_singleton_eq.
    split; [reflexivity |]. destruct Hcref as [-> | ->]; auto.
  - rewrite lookup_singleton_ne by discriminate. rewrite Hsb, lookup_singleton_eq. auto.
Qed.

Lemma fetchers_with_sha_refs_witness :
  shaRef (ofOpt (Params.static_ref shaParams)) = true
  ∧ shaRef (ofOpt (Params.content_ref shaParams)) = true
  ∧ ∃ plan w', fetchers "/" downService shaParams emptyWorld = (Ok plan, w')
               ∧ invocations w' = [] ∧ logged w' = [].
Proof.
  assert (H0 : pathInfosOf "/" shaParams
               = Ok [ {| path := "/docs/index.html"; name := "index"; selector := "";
                         ext := "html"; relPath := "/docs/index" |} ])
    by (vm_compute; reflexivity).
  assert (Hs : shaRef (ofOpt (Params.static_ref shaParams)) = true)
    by (vm_compute; reflexivity).
  assert (Hc : shaRef (ofOpt (Params.content_ref shaParams)) = true)
    by (vm_compute; reflexivity).
  split; [exact Hs |]. split; [exact Hc |].
  destruct (fetchers_with_sha_refs "/" downService shaParams emptyWorld _ H0 Hs Hc)
    as (plan & w' & Hfetch & Hinv & Hlog & _).
  exists plan, w'. auto.
Defined.

Lemma resolvers_resolved (service : nat → Invoke.t → Outcome) (params : Params.t)
    (w : World) (sha : string) :
  resolvesTo sha service →
  shaRef (ofOpt (Params.static_ref params)) = false →
  shaRef (ofOpt (Params.content_ref params)) = false →
  ∃ cbranch w',
    resolvers service (staticOptsOf params) (contentOptsOf params) (wskOptsOf params)
      (Params.__ow_logger params) w
    = (Fulfilled {[ "ref" := JStr sha; "branch" := ofOpt (Params.static_ref params) ]},
       Fulfilled {[ "ref" := JStr sha; "branch" := cbranch ]}, w')
    ∧ (cbranch = ofOpt (Params.static_ref params)
       ∨ cbranch = ofOpt (Params.content_ref params)).
Proof.
  intros Hsvc Hs Hc.
  assert (Hsref : prop (staticOptsOf params) "ref" = ofOpt (Params.static_ref params)).
  { unfold prop. destruct (staticOptsOf_coordinate params) as (_ & _ & -> & _). reflexivity. }
  assert (Hcref : prop (contentOptsOf params) "ref" = ofOpt (Params.content_ref params)).
  { unfold prop. destruct (contentOptsOf_coordinate params) as (_ & _ & -> & _). reflexivity. }
  unfold resolvers.
  destruct (Hsvc (length (invocations w))
              (resolveRequest (staticOptsOf params) (wskOptsOf params)))
    as (res & Hres & Hsha).
  rewrite (resolveRef_resolved service (staticOptsOf params) (wskOptsOf params) _ w
             ltac:(rewrite Hsref; apply stringOrFalsy_ofOpt) res sha
             ltac:(rewrite Hsref; exact Hs) Hres Hsha).
  rewrite Hsref. destruct (equalRepository _ _).
  - eexists _, _. split; [reflexivity |]. auto.
  - match goal with |- context [resolveRef service _ _ _ ?w1] =>
      destruct (Hsvc (length (invocations w1))
                  (resolveRequest (contentOptsOf params) (wskOptsOf params)))
        as (res' & Hres' & Hsha');
      rewrite (resolveRef_resolved service (contentOptsOf params) (wskOptsOf params) _ w1
                 ltac:(rewrite Hcref; apply stringOrFalsy_ofOpt) res' sha
                 ltac:(rewrite Hcref; exact Hc) Hres' Hsha')
    end.
    rewrite Hcref. eexists _, _. split; [reflexivity |]. auto.
Qed.

(** X15. When the service resolves every ref to a sha and neither ref is a
    sha already, every task of the plan carries that sha as [ref] and the
    ref it was resolved from as [branch]. *)
Theorem fetchers_with_resolved_refs (cwd : string) (service : nat → Invoke.t → Outcome)
    (params : Params.t) (w : World) (infos : list PathInfo) (sha : string) :
  pathInfosOf cwd params = Ok infos →
  resolvesTo sha service →
  shaRef (ofOpt (Params.static_ref params)) = false →
  shaRef (ofOpt (Params.content_ref params)) = false →
  ∃ plan w',
    fetchers cwd service params w = (Ok plan, w')
    ∧ ∀ task, task ∈ tasksOf plan →
        ∃ d, task = Fulfilled d
             ∧ Task.params d !! "ref" = Some (JStr sha)
             ∧ (Task.params d !! "branch" = Some (ofOpt (Params.static_ref params))
                ∨ Task.params d !! "branch" = Some (ofOpt (Params.content_ref params))).
Proof.
  intros Hinfos Hsvc Hs Hc.
  destruct (resolvers_resolved service params w sha Hsvc Hs Hc)
    as (cbranch & w' & Hres & Hcb).
  destruct (fetchers_tasks cwd service params w w' infos _ _ Hinfos Hres)
    as (plan & Hfetch & _ & Htasks).
  exists plan, w'. split; [exact Hfetch |]. intros task Htask.
  destruct (Htasks task Htask) as (d & literal & o & r & -> & Hp & Hor & Hlit).
  exists d. split; [reflexivity |]. rewrite Hp, !lookup_assign.
  destruct Hor as [[-> ->] | [-> ->]];
    rewrite lookup_insert_eq, lookup_insert_ne, lookup_singleton_eq by discriminate.
  - split; [reflexivity |]. destruct Hcb as [-> | ->]; auto.
  - auto.
Qed.

Lemma fetchers_with_resolved_refs_witness :
  resolvesTo "5f2a6c8d7e1b4a3c9d0e5f2a6c8d7e1b4a3c9d0e" shaService
  ∧ ∃ plan w',
      fetchers "/" shaService Params.empty emptyWorld = (Ok plan, w')
      ∧ ∀ task, task ∈ tasksOf plan →
          ∃ d, task = Fulfilled d
               ∧ Task.params d !! "ref"
                 = Some (JStr "5f2a6c8d7e1b4a3c9d0e5f2a6c8d7e1b4a3c9d0e").
Proof.
  assert (Hsvc : resolvesTo "5f2a6c8d7e1b4a3c9d0e5f2a6c8d7e1b4a3c9d0e" shaService)
    by (intros n req; eexists; split; reflexivity).
  assert (H0 : pathInfosOf "/" Params.empty
               = Ok [ {| path := "/index.html"; name := "index"; selector := "";
                         ext := "html"; relPath := "/index" |} ])
    by (vm_compute; reflexivity).
  split; [exact Hsvc |].
  destruct (fetchers_with_resolved_refs "/" shaService Params.empty emptyWorld _ _ H0 Hsvc
              eq_refl eq_refl) as (plan & w' & Hfetch & Htasks).
  exists plan, w'. split; [exact Hfetch |]. intros task Htask.
  destruct (Htasks task Htask) as (d & Hd & Href & _). exists d. auto.
Defined.

Lemma lookup_map {A B} (f : A → B) (l : list A) (i : nat) :
  map f l !! i = f <$> l !! i.
Proof. apply list_lookup_fmap. Qed.

(** X16. Whenever the path infos of the request exist and the two ref
    resolutions fulfil, the [i]-th task of the base plan fetches the [i]-th
    path from the content repository with [esi] false and the root
    [content.root], whereas the task [2n + i] ([n] path infos) fetches the
    same path from the static repository with [static.esi] in place of
    false, present or not, and the root [static.root]. *)
Theorem fetchers_esi_and_root (cwd : string) (service : nat → Invoke.t → Outcome)
    (params : Params.t) (w w' : World) (infos : list PathInfo) (sr cr : jsobj) :
  pathInfosOf cwd params = Ok infos →
  resolvers service (staticOptsOf params) (contentOptsOf params) (wskOptsOf params)
    (Params.__ow_logger params) w
  = (Fulfilled sr, Fulfilled cr, w') →
  ∃ plan,
    fetchers cwd service params w = (Ok plan, w')
    ∧ ∀ i info, infos !! i = Some info →
        ∃ dr df,
          base plan !! i = Some (Fulfilled dr)
          ∧ base plan !! (2 * length infos + i)%nat = Some (Fulfilled df)
          ∧ Task.params dr !! "path" = Some (JStr (path info))
          ∧ Task.params dr !! "esi" = Some (JBool false)
          ∧ Task.params dr !! "root" = Some (Params.content_root params)
          ∧ Task.params df !! "path" = Some (JStr (path info))
          ∧ Task.params df !! "esi" = Some (Params.static_esi params)
          ∧ Task.params df !! "root" = Some (Params.static_root params).
Proof.
  intros Hinfos Hres.
  destruct (resolvers_settled service params w) as (sp & cp & w1 & Hres' & Hsp & Hcp).
  rewrite Hres in Hres'. injection Hres' as <- <- <-.
  assert (Hsr : onlyRef sr) by exact Hsp. assert (Hcr : onlyRef cr) by exact Hcp.
  destruct (fetchers_tasks cwd service params w w' infos sr cr Hinfos Hres)
    as (plan & Hfetch & Hbase & _).
  exists plan. split; [exact Hfetch |]. intros i info Hi.
  pose proof (lookup_lt_Some _ _ _ Hi) as Hlt.
  destruct (staticOptsOf_more params) as (Hse & Hsroot & _).
  destruct (contentOptsOf_more params) as (Hce & Hcroot & _).
  destruct (staticOptsOf_coordinate params) as (_ & _ & _ & Hspath).
  destruct (contentOptsOf_coordinate params) as (_ & _ & _ & _ & Hcpath).
  rewrite Hbase. unfold baseOf, fetchrawtasks, fetchactiontasks, fetchfallbacktasks.
  eexists _, _. split; [| split].
  - rewrite lookup_app_l by (rewrite length_map; exact Hlt).
    rewrite lookup_map, Hi. reflexivity.
  - rewrite lookup_app_r by (rewrite length_map; lia).
    rewrite lookup_app_r by (rewrite !length_map; lia).
    rewrite !length_map.
    replace (2 * length infos + i - length infos - length infos)%nat with i by lia.
    rewrite lookup_map, Hi. reflexivity.
  - cbn [Task.params then_ thenP]. rewrite !lookup_assign.
    rewrite !(Hcr _), !(Hsr _) by discriminate.
    rewrite Hce, Hcroot, Hcpath, Hse, Hsroot, Hspath.
    rewrite !(wskOptsOf_keys params) by discriminate.
    repeat split; reflexivity.
Qed.

Lemma fetchers_esi_and_root_witness :
  ∃ plan w' df,
    fetchers "/" downService shaParams emptyWorld = (Ok plan, w')
    ∧ base plan !! 2%nat = Some (Fulfilled df)
    ∧ Task.params df !! "esi" = Some (JStr "true")
    ∧ Task.params df !! "root" = Some (JStr "/htdocs").
Proof.
  assert (H0 : pathInfosOf "/" shaParams
               = Ok [ {| path := "/docs/index.html"; name := "index"; selector := "";
                         ext := "html"; relPath := "/docs/index" |} ])
    by (vm_compute; reflexivity).
  assert (Hres : resolvers downService (staticOptsOf shaParams) (contentOptsOf shaParams)
                   (wskOptsOf shaParams) (Params.__ow_logger shaParams) emptyWorld
                 = (Fulfilled {[ "ref" := JStr "0123456789ABCDEF0123456789abcdef01234567" ]},
                    Fulfilled {[ "ref" := JStr "5f2a6c8d7e1b4a3c9d0e5f2a6c8d7e1b4a3c9d0e" ]},
                    {| invocations := [];
                       resolutions := [staticOptsOf shaParams; contentOptsOf shaParams];
                       logged := [] |}))
    by (vm_compute; reflexivity).
  destruct (fetchers_esi_and_root "/" downService shaParams emptyWorld _ _ _ _ H0 Hres)
    as (plan & Hfetch & Htasks).
  destruct (Htasks 0%nat _ eq_refl) as (dr & df & _ & Hdf & _ & _ & _ & _ & Hesi & Hroot).
  eexists plan, _, df. split; [exact Hfetch |]. split; [exact Hdf |].
  split; [exact Hesi | exact Hroot].
Defined.

(** ** The redirect adapter *)

Module RedirectFacts.
Import StrFacts.

Lemma replaceAll_app (c : ascii) (by_ s t : string) :
  Redirect.replaceAll c by_ (s +:+ t)
  = Redirect.replaceAll c by_ s +:+ Redirect.replaceAll c by_ t.
Proof.
  induction s as [| a s IH]; [reflexivity |].
  rewrite app_cons. simpl Redirect.replaceAll. rewrite IH.
  destruct (Ascii.eqb a c); [rewrite app_assoc |]; reflexivity.
Qed.

Lemma escape_cons (a : ascii) (s : string) :
  Redirect.escape (String a s) = Redirect.entityOf a +:+ Redirect.escape s.
Proof.
  unfold Redirect.escape, Redirect.entityOf. simpl Redirect.replaceAll at 3.
  destruct (Ascii.eqb_spec a "&") as [-> | Hamp].
  - rewrite !replaceAll_app. reflexivity.
  - simpl Redirect.replaceAll at 2. destruct (Ascii.eqb_spec a "<") as [-> | Hlt].
    + rewrite !replaceAll_app. reflexivity.
    + simpl Redirect.replaceAll at 1. destruct (Ascii.eqb_spec a ">") as [-> | Hgt];
        reflexivity.
Qed.

Lemma entityOf_free (a c : ascii) :
  c = "<"%char ∨ c = ">"%char → free c (Redirect.entityOf a).
Proof.
  unfold free, Redirect.entityOf. intros Hc.
  destruct (Ascii.eqb_spec a "&"); [destruct Hc as [-> | ->]; reflexivity |].
  destruct (Ascii.eqb_spec a "<") as [-> | Hlt]; [destruct Hc as [-> | ->]; reflexivity |].
  destruct (Ascii.eqb_spec a ">") as [-> | Hgt]; [destruct Hc as [-> | ->]; reflexivity |].
  rewrite lastIndexOf_cons. simpl.
  destruct (Ascii.eqb_spec a c) as [-> |]; [destruct Hc; contradiction | reflexivity].
Qed.

End RedirectFacts.

(** X17. The three replacements of [abortRedirect], done one after the
    other, escape each character exactly once: the ampersand of an entity
    written for [<] or [>] is not escaped again. *)
Theorem escape_single_pass (s : string) : Redirect.escape s = Redirect.escapeChars s.
Proof.
  induction s as [| a s IH]; [reflexivity |].
  rewrite RedirectFacts.escape_cons, IH. reflexivity.
Qed.

(** X18. The body [abortRedirect] answers with holds neither [<] nor [>],
    whatever the redirect target is, and the status code is 508; a target
    without [&], [<] and [>] appears in it unchanged. A rejected redirect
    promise rejects the answer with the same error. *)
Theorem abortRedirect_escapes (R : Type) (redirection : Redirect.Redirection R) (e : Exn) :
  (∃ answer,
     Redirect.abortRedirect R (Fulfilled redirection) = Fulfilled answer
     ∧ Redirect.statusCode answer = 508
     ∧ free "<" (Redirect.body answer) ∧ free ">" (Redirect.body answer)
     ∧ (∀ target, Redirect.target redirection = Some target →
          free "&" target → free "<" target → free ">" target →
          Redirect.body answer = "Too many internal redirects to " +:+ target))
  ∧ Redirect.abortRedirect R (Rejected e) = Rejected e.
Proof.
  split; [| reflexivity]. eexists. split; [reflexivity |]. split; [reflexivity |].
  cbn [Redirect.body].
  assert (Hfree : ∀ c s, c = "<"%char ∨ c = ">"%char → free c (Redirect.escape s)).
  { intros c s Hc. induction s as [| a s IH]; [reflexivity |].
    rewrite RedirectFacts.escape_cons. unfold free in *.
    rewrite (lastIndexOf_app_absent _ _ c IH). apply RedirectFacts.entityOf_free, Hc. }
  split; [| split].
  - unfold free. rewrite lastIndexOf_app_absent by (apply Hfree; auto). reflexivity.
  - unfold free. rewrite lastIndexOf_app_absent by (apply Hfree; auto). reflexivity.
  - intros target -> Hamp Hlt Hgt. f_equal.
    assert (Hsafe : ∀ s, free "&" s → free "<" s → free ">" s → Redirect.escape s = s).
    { induction s as [| a s IH]; [reflexivity |]. unfold free. intros H1 H2 H3.
      apply SegFacts.lastIndexOf_absent_cons in H1 as [Ha1 H1].
      apply SegFacts.lastIndexOf_absent_cons in H2 as [Ha2 H2].
      apply SegFacts.lastIndexOf_absent_cons in H3 as [Ha3 H3].
      rewrite RedirectFacts.escape_cons. unfold Redirect.entityOf. rewrite Ha1, Ha2, Ha3.
      rewrite (IH H1 H2 H3). reflexivity. }
    unfold strOr. destruct (JS.truthy target) eqn:Ht.
    + apply Hsafe; assumption.
    + destruct target; [reflexivity | discriminate].
Qed.

(** X19. [sendRedirect] applied to the promise of [redirect] settles as the
    invocation of [helix-services/redirect@v1] with the given parameters
    does; [abortRedirect] applied to it names no target; and [redirect]
    writes the options to the console before the invocation and the result
    after it, when there is one. *)
Theorem redirect_adapters (R : Type) (params : jsobj)
    (ow : Redirect.Request → promise R) (console : list (Redirect.ConsoleLine R)) :
  let opts := {| Redirect.name := "helix-services/redirect@v1";
                 Redirect.params := params |} in
  let redirectPromise := fst (Redirect.redirect R params ow console) in
  Redirect.sendRedirect R redirectPromise = ow opts
  ∧ Redirect.abortRedirect R redirectPromise
    = then_ (ow opts) (λ _, {| Redirect.statusCode := 508;
                               Redirect.body := "Too many internal redirects to " |})
  ∧ snd (Redirect.redirect R params ow console)
    = console ++ Redirect.LoggedOpts opts
              :: match ow opts with
                 | Fulfilled result => [Redirect.LoggedResult result]
                 | Rejected _ => []
                 end.
Proof.
  intros opts redirectPromise. unfold redirectPromise, Redirect.redirect. fold opts.
  destruct (ow opts) as [result | e]; cbn [fst snd].
  - split; [reflexivity |]. split; [reflexivity |].
    rewrite <- List.app_assoc. reflexivity.
  - split; [reflexivity |]. split; reflexivity.
Qed.

(** ** What [fetchers] can throw *)

Lemma getPathInfos_cases (cwd urlPath mount : string) (indices : list string) :
  (∃ infos, getPathInfos cwd urlPath mount indices = Ok infos)
  ∨ getPathInfos cwd urlPath mount indices = Throw extensionError.
Proof.
  destruct (decide (Forall hasExtension (candidates cwd urlPath indices))) as [Hall | Hex].
  - left. eexists. apply getPathInfos_returns. apply Forall_forall, Hall.
  - right. apply getPathInfos_throws.
    apply not_Forall_Exists in Hex; [| apply _]. apply Exists_exists in Hex. exact Hex.
Qed.

(** X20. The only exception [fetchers] throws is the one of the path
    resolver, "directory index must have an extension."; in particular
    [infos[0]] is always there. When it returns, every task of the plan is
    a promise that fulfils with a descriptor or, only when the request
    carries no logger, rejects with the [TypeError] of reading [log.error];
    with a logger every task fulfils. *)
Theorem fetchers_outcomes (cwd : string) (service : nat → Invoke.t → Outcome)
    (params : Params.t) (w : World) :
  fetchers cwd service params w = (Throw extensionError, w)
  ∨ ∃ plan w',
      fetchers cwd service params w = (Ok plan, w')
      ∧ ∀ task, task ∈ tasksOf plan →
          (∃ d, task = Fulfilled d)
          ∨ (Params.__ow_logger params = None ∧ task = Rejected (missingLogger LError)).
Proof.
  destruct (getPathInfos_cases cwd (strOr (Params.path params) "/")
              (strOr (Params.rootPath params) "")
              (JS.split "," (strOr (Params.content_index params) "index.html")))
    as [[infos Hinfos] | Hthrow].
  - right.
    destruct (fetchers_settled cwd service params w infos Hinfos)
      as (plan & w' & sp & cp & Hfetch & _ & Hsp & Hcp & Htasks).
    exists plan, w'. split; [exact Hfetch |]. intros task Htask.
    destruct (Htasks task Htask) as [(d & _ & _ & _ & -> & _) | (e & -> & [-> | ->])].
    + left. eauto.
    + right. destruct Hcp as [-> ->]. auto.
    + right. destruct Hsp as [-> ->]. auto.
  - left. apply fetchers_throws. exact Hthrow.
Qed.
